(** * LZSS codec of lzss_c.c: bit stream, match finder, encoder, decoder

    A shallow embedding of [src/lzss_c.c].  Machine integers are modelled as
    [Z] with the wrap-around of their C type written out ([u8], [u32]);
    memory arrays are lists of [byte]; the locals and the accumulator of the
    bit stream are [Z].  Functions that return an [error_t] and mutate a
    stream through a pointer become functions from the stream to the error
    code and the new stream. *)

From Stdlib Require Import ZArith List Bool Lia Strings.Byte.
Import ListNotations.
Local Open Scope Z_scope.

(** ** Machine integers and bytes *)

Definition u8 (x : Z) : Z := x mod 2 ^ 8.
Definition u32 (x : Z) : Z := x mod 2 ^ 32.

Definition byte_to_Z (b : byte) : Z := Z.of_N (Byte.to_N b).

Definition byte_of_Z (z : Z) : byte :=
  match Byte.of_N (Z.to_N (u8 z)) with
  | Some b => b
  | None => x00
  end.

(** [a[i]] for a C array held in a list.  Every access of the bit stream is
    guarded by [buffer_position < buffer_length]; on an array whose length
    field does not exceed its allocation no access leaves the list, and the
    defaults below are never used. *)
Definition load (l : list byte) (i : Z) : Z :=
  byte_to_Z (nth (Z.to_nat i) l x00).

Fixpoint store_nat (l : list byte) (i : nat) (v : byte) : list byte :=
  match l, i with
  | [], _ => []
  | _ :: t, O => v :: t
  | h :: t, S j => h :: store_nat t j v
  end.

Definition store (l : list byte) (i : Z) (v : Z) : list byte :=
  store_nat l (Z.to_nat i) (byte_of_Z v).

(** The C comparison [(x > 0)] as an integer. *)
Definition gt0 (x : Z) : Z := if 0 <? x then 1 else 0.

(** ** Data types *)

Inductive error_t : Set :=
| ERROR_ALL_GOOD
| ERROR_NO_OP
| ERROR_BUFFER_OUT_OF_BOUNDS
| ERROR_COULD_NOT_ALLOCATE
| ERROR_WRONG_OUTPUT_SIZE.

(** [if (error)] in C: any code but [ERROR_ALL_GOOD] is true. *)
Definition failed (e : error_t) : bool :=
  match e with ERROR_ALL_GOOD => false | _ => true end.

(** [array_t]: the fields [bytes] and [length] of the source. *)
Record array_t : Set := mk_array {
  array_bytes : list byte;
  array_length : Z
}.

Record bit_stream_t : Set := mk_stream {
  buffer : list byte;
  buffer_length : Z;
  buffer_position : Z;
  byte_buffer : Z;
  bit_count : Z
}.

Record lzss_config_t : Set := mk_config {
  offset_bits : Z;
  max_offset : Z;
  minimum_length : Z;
  length_bits : Z;
  max_length : Z
}.

(** [match_t]: the fields [offset] and [length] of the source. *)
Record match_t : Set := mk_match {
  match_offset : Z;
  match_length : Z
}.

(** ** Bit stream *)

Definition bit_stream_init (a : array_t) : bit_stream_t :=
  {| buffer := array_bytes a;
     buffer_length := array_length a;
     buffer_position := 0;
     byte_buffer := 0;
     bit_count := 0 |}.

Definition bit_stream_unflush (s : bit_stream_t) : error_t * bit_stream_t :=
  if buffer_position s <? buffer_length s then
    (ERROR_ALL_GOOD,
     {| buffer := buffer s;
        buffer_length := buffer_length s;
        buffer_position := u32 (buffer_position s + 1);
        byte_buffer := load (buffer s) (buffer_position s);
        bit_count := 8 |})
  else (ERROR_BUFFER_OUT_OF_BOUNDS, s).

Definition bit_stream_flush (s : bit_stream_t) : error_t * bit_stream_t :=
  if bit_count s =? 0 then (ERROR_ALL_GOOD, s)
  else
    let acc :=
      if bit_count s <? 8
      then u8 (Z.shiftl (byte_buffer s) (8 - bit_count s))
      else byte_buffer s in
    if buffer_position s >=? buffer_length s then
      (ERROR_BUFFER_OUT_OF_BOUNDS,
       {| buffer := buffer s;
          buffer_length := buffer_length s;
          buffer_position := buffer_position s;
          byte_buffer := acc;
          bit_count := bit_count s |})
    else
      (ERROR_ALL_GOOD,
       {| buffer := store (buffer s) (buffer_position s) acc;
          buffer_length := buffer_length s;
          buffer_position := u32 (buffer_position s + 1);
          byte_buffer := 0;
          bit_count := 0 |}).

(** Readers return the value stored through the out-parameter.  On an error
    the C code leaves the out-parameter alone, and every caller in the source
    initialises it to 0 just before the call: the model returns 0 there. *)
Definition bit_stream_read_bit (s : bit_stream_t)
  : error_t * Z * bit_stream_t :=
  let '(error, s1) :=
    if bit_count s =? 0 then bit_stream_unflush s else (ERROR_ALL_GOOD, s) in
  if failed error then (error, 0, s1)
  else
    let n := u8 (bit_count s1 - 1) in
    (error,
     gt0 (Z.land (byte_buffer s1) (Z.shiftl 1 n)),
     {| buffer := buffer s1;
        buffer_length := buffer_length s1;
        buffer_position := buffer_position s1;
        byte_buffer := byte_buffer s1;
        bit_count := n |}).

Definition bit_stream_write_bit (s : bit_stream_t) (bit : Z)
  : error_t * bit_stream_t :=
  let s1 :=
    {| buffer := buffer s;
       buffer_length := buffer_length s;
       buffer_position := buffer_position s;
       byte_buffer :=
         Z.lor (u8 (Z.shiftl (byte_buffer s) 1)) (Z.land bit 1);
       bit_count := u8 (bit_count s + 1) |} in
  if bit_count s1 =? 8 then bit_stream_flush s1 else (ERROR_ALL_GOOD, s1).

(** [for (i = 0; i < bits; i += 1)]: [todo] counts the iterations left. *)
Fixpoint read_uint32_loop (todo : nat) (s : bit_stream_t) (value : Z)
  : error_t * Z * bit_stream_t :=
  match todo with
  | O => (ERROR_ALL_GOOD, value, s)
  | S todo' =>
      let value1 := u32 (Z.shiftl value 1) in
      let '(error, bit, s1) := bit_stream_read_bit s in
      if failed error then (error, 0, s1)
      else read_uint32_loop todo' s1 (Z.lor value1 (Z.land bit 1))
  end.

Definition bit_stream_read_uint32 (s : bit_stream_t) (bits : Z)
  : error_t * Z * bit_stream_t :=
  read_uint32_loop (Z.to_nat bits) s 0.

(** [while (bits > 0)]: the recursion is on the value of [bits].  The mask
    [1 << (bits - 1)] is computed in [int] and converted to [uint32_t]. *)
Fixpoint write_uint32_loop (bits : nat) (s : bit_stream_t) (number : Z)
  : error_t * bit_stream_t :=
  match bits with
  | O => (ERROR_ALL_GOOD, s)
  | S bits' =>
      let mask := u32 (Z.shiftl 1 (Z.of_nat bits')) in
      let bit := gt0 (Z.land number mask) in
      let '(error, s1) := bit_stream_write_bit s bit in
      if failed error then (error, s1)
      else write_uint32_loop bits' s1 number
  end.

Definition bit_stream_write_uint32 (s : bit_stream_t) (number bits : Z)
  : error_t * bit_stream_t :=
  write_uint32_loop (Z.to_nat bits) s number.

(** [while (1)] of the VLQ reader.  [shift] is a [uint8_t] that grows by 7
    and the loop breaks once it exceeds 32, so five rounds always end it;
    [fuel] only makes the recursion structural (see [read_7bit_fuel]). *)
Fixpoint read_7bit_loop (fuel : nat) (s : bit_stream_t) (n shift : Z)
  : error_t * Z * bit_stream_t :=
  match fuel with
  | O => (ERROR_ALL_GOOD, n, s)
  | S fuel' =>
      let '(error, byte, s1) := bit_stream_read_uint32 s 8 in
      if failed error then (error, 0, s1)
      else
        let n1 := Z.lor n (u32 (Z.shiftl (Z.land byte 127) shift)) in
        let shift1 := u8 (shift + 7) in
        if (Z.land byte 128 =? 0) || (32 <? shift1)
        then (ERROR_ALL_GOOD, n1, s1)
        else read_7bit_loop fuel' s1 n1 shift1
  end.

Definition bit_stream_read_7bit_uint32 (s : bit_stream_t)
  : error_t * Z * bit_stream_t :=
  read_7bit_loop 5 s 0 0.

(** [while (n > 127)] of the VLQ writer: [n] is a [uint32_t] shifted right by
    7 in every round, so the loop body runs at most four times. *)
Fixpoint write_7bit_loop (fuel : nat) (s : bit_stream_t) (n : Z)
  : error_t * bit_stream_t * Z :=
  match fuel with
  | O => (ERROR_ALL_GOOD, s, n)
  | S fuel' =>
      if 127 <? n then
        let b := Z.lor 128 (Z.land n 127) in
        let '(error, s1) := bit_stream_write_uint32 s b 8 in
        if failed error then (error, s1, n)
        else write_7bit_loop fuel' s1 (Z.shiftr n 7)
      else (ERROR_ALL_GOOD, s, n)
  end.

(** The last group is written with the result of [bit_stream_write_uint32]
    dropped (line 194 of the source): the stream changes, the error does
    not reach the caller. *)
Definition bit_stream_write_7bit_uint32 (s : bit_stream_t) (number : Z)
  : error_t * bit_stream_t :=
  let '(error, s1, n) := write_7bit_loop 5 s (u32 number) in
  if failed error then (error, s1)
  else if 0 <? n
       then (error, snd (bit_stream_write_uint32 s1 (Z.land n 127) 8))
       else (error, s1).

(** ** Configuration and sizing *)

Definition MIN (a b : Z) : Z := if a <? b then a else b.

(** The parameters are [uint8_t]; [1 << bits] is an [int] shift, defined in C
    for [bits <= 30] and taken here as the mathematical shift reduced to 32
    bits. *)
Definition lzss_config_init (offset_bits length_bits minimum_length : Z)
  : lzss_config_t :=
  {| offset_bits := u8 offset_bits;
     max_offset := u32 (Z.shiftl 1 (u8 offset_bits) - 1);
     minimum_length := u8 minimum_length;
     length_bits := u8 length_bits;
     max_length := u32 (Z.shiftl 1 (u8 length_bits) - 1) |}.

Definition lzss_get_upper_bound (input_length : Z) : Z :=
  let total_bits := u32 (32 + input_length * 9) in
  u32 (total_bits / 8 + (if 0 <? total_bits mod 8 then 1 else 0)).

Definition lzss_get_original_length (input : array_t) : error_t * Z :=
  let '(error, length, _) :=
    bit_stream_read_7bit_uint32 (bit_stream_init input) in
  if failed error then (error, 0) else (error, length).

(** ** Match finder *)

(** Inner [while] of [__get_longest_match]: the run of equal bytes from
    [offset] and from [index].  [length] grows by one per round and stays
    below [input.length - index], so [input.length] rounds are never
    exhausted. *)
Fixpoint match_run (fuel : nat) (input : array_t) (offset index length : Z)
  : Z :=
  match fuel with
  | O => length
  | S fuel' =>
      if (u32 (offset + length) <? array_length input)
         && (u32 (index + length) <? array_length input)
         && (load (array_bytes input) (u32 (offset + length))
             =? load (array_bytes input) (u32 (index + length)))
      then match_run fuel' input offset index (u32 (length + 1))
      else length
  end.

(** Outer [while (offset < index && offset < input.length)]. *)
Fixpoint match_scan (fuel : nat) (input : array_t)
    (index offset best_offset best_length : Z) : Z * Z :=
  match fuel with
  | O => (best_offset, best_length)
  | S fuel' =>
      if (offset <? index) && (offset <? array_length input) then
        let length :=
          match_run (Z.to_nat (array_length input)) input offset index 0 in
        if length >=? best_length
        then match_scan fuel' input index (u32 (offset + 1)) offset length
        else match_scan fuel' input index (u32 (offset + 1))
               best_offset best_length
      else (best_offset, best_length)
  end.

Definition __get_longest_match (config : lzss_config_t) (input : array_t)
    (index : Z) : match_t :=
  if u32 (index + minimum_length config) >=? array_length input then
    {| match_offset := 0; match_length := 0 |}
  else
    let offset :=
      if max_offset config >? index then 0
      else u32 (index - max_offset config) in
    let '(best_offset, best_length) :=
      match_scan (Z.to_nat index) input index offset 0 0 in
    {| match_offset := u32 (index - best_offset);
       match_length := MIN best_length (max_length config) |}.

(** ** Encoder *)

(** The [for] loop of [lzss_encode]; [None] when [fuel] rounds did not end
    it.  A failing [try] leaves the loop with the error and the stream as it
    is at that point. *)
Fixpoint encode_loop (fuel : nat) (config : lzss_config_t) (input : array_t)
    (stream : bit_stream_t) (index : Z) : option (error_t * bit_stream_t) :=
  if index <? array_length input then
    match fuel with
    | O => None
    | S fuel' =>
        let m := __get_longest_match config input index in
        if match_length m >=? minimum_length config then
          let '(error, s1) := bit_stream_write_bit stream 1 in
          if failed error then Some (error, s1) else
          let '(error, s2) :=
            bit_stream_write_uint32 s1 (match_offset m) (offset_bits config) in
          if failed error then Some (error, s2) else
          let '(error, s3) :=
            bit_stream_write_uint32 s2 (match_length m) (length_bits config) in
          if failed error then Some (error, s3) else
          encode_loop fuel' config input s3 (u32 (index + match_length m))
        else
          let '(error, s1) := bit_stream_write_bit stream 0 in
          if failed error then Some (error, s1) else
          let '(error, s2) :=
            bit_stream_write_uint32 s1 (load (array_bytes input) index) 8 in
          if failed error then Some (error, s2) else
          encode_loop fuel' config input s2 (u32 (index + 1))
    end
  else Some (ERROR_ALL_GOOD, stream).

(** Rounds granted to the encoder loop.  With [minimum_length >= 1] every
    round advances [index], and [input.length] rounds are enough
    ([encode_loop_enough_fuel]); the rest covers [minimum_length = 0], where a
    round can emit a pair of length 0 and the loop ends only when the buffer
    is full. *)
Definition encode_fuel (input output : array_t) : nat :=
  Z.to_nat (array_length input + 8 * array_length output + 257).

(** [error_exit] sets [output->length] to 0 and [no_error_exit] sets it to the
    stream position; the bytes of [output] are the stream's buffer, which the
    stream wrote through. *)
Definition lzss_encode (config : lzss_config_t) (input output : array_t)
  : option (error_t * array_t) :=
  if array_length input =? 0 then Some (ERROR_NO_OP, output)
  else
    let stream := bit_stream_init output in
    let '(error, s1) :=
      bit_stream_write_7bit_uint32 stream (array_length input) in
    if failed error
    then Some (error, {| array_bytes := buffer s1; array_length := 0 |})
    else
      match encode_loop (encode_fuel input output) config input s1 0 with
      | None => None
      | Some (error, s2) =>
          if failed error
          then Some (error, {| array_bytes := buffer s2; array_length := 0 |})
          else
            let '(error, s3) := bit_stream_flush s2 in
            if failed error
            then Some (error,
                       {| array_bytes := buffer s3; array_length := 0 |})
            else Some (error,
                       {| array_bytes := buffer s3;
                          array_length := buffer_position s3 |})
      end.

(** ** Decoder *)

(** What a call of [lzss_decode] does.  The stores and loads of the decoder go
    to [output->bytes] at indices read from the stream; an index outside the
    allocation is undefined behaviour in C and is reported as [OutOfBounds].
    [OutOfFuel] is the model's only: see [decode_fuel]. *)
Inductive decoded : Set :=
| Decoded (error : error_t) (output : array_t)
| OutOfBounds
| OutOfFuel.

Definition allocated (l : list byte) (i : Z) : bool :=
  (0 <=? i) && (i <? Z.of_nat (List.length l)).

(** [for (i = 0; i < length; i += 1)
       output->bytes[index + i] = output->bytes[(index - offset) + i];]
    one byte per round, [i] ascending. *)
Fixpoint copy_loop (todo : nat) (bytes : list byte) (index offset i : Z)
  : option (list byte) :=
  match todo with
  | O => Some bytes
  | S todo' =>
      let dst := u32 (index + i) in
      let src := u32 (u32 (index - offset) + i) in
      if allocated bytes dst && allocated bytes src
      then copy_loop todo' (store bytes dst (load bytes src))
             index offset (u32 (i + 1))
      else None
  end.

Fixpoint decode_loop (fuel : nat) (config : lzss_config_t)
    (stream : bit_stream_t) (output : array_t) (index : Z) : decoded :=
  if index <? array_length output then
    match fuel with
    | O => OutOfFuel
    | S fuel' =>
        let '(error, is_pair, s1) := bit_stream_read_bit stream in
        if failed error then Decoded error output else
        if negb (is_pair =? 0) then
          let '(error, offset, s2) :=
            bit_stream_read_uint32 s1 (offset_bits config) in
          if failed error then Decoded error output else
          let '(error, length, s3) :=
            bit_stream_read_uint32 s2 (length_bits config) in
          if failed error then Decoded error output else
          match copy_loop (Z.to_nat length) (array_bytes output)
                  index offset 0 with
          | None => OutOfBounds
          | Some bytes' =>
              decode_loop fuel' config s3
                {| array_bytes := bytes';
                   array_length := array_length output |}
                (u32 (index + length))
          end
        else
          let '(error, literal, s2) := bit_stream_read_uint32 s1 8 in
          if failed error then Decoded error output else
          if allocated (array_bytes output) index then
            decode_loop fuel' config s2
              {| array_bytes :=
                   store (array_bytes output) index (Z.land literal 255);
                 array_length := array_length output |}
              (u32 (index + 1))
          else OutOfBounds
    end
  else Decoded ERROR_ALL_GOOD output.

(** Every round of the decoder loop reads at least the flag bit, and the
    input holds [8 * input.length] bits: these rounds are never exhausted
    ([decode_loop_enough_fuel]). *)
Definition decode_fuel (input : array_t) : nat :=
  Z.to_nat (8 * array_length input + 1).

Definition lzss_decode (config : lzss_config_t) (input output : array_t)
  : decoded :=
  if (array_length input =? 0) || (array_length output =? 0)
  then Decoded ERROR_NO_OP output
  else
    let stream := bit_stream_init input in
    let '(error, original_size, s1) := bit_stream_read_7bit_uint32 stream in
    if failed error then Decoded error output
    else if negb (original_size =? array_length output)
    then Decoded ERROR_WRONG_OUTPUT_SIZE output
    else decode_loop (decode_fuel input) config s1 output 0.

(** ** The driver *)

(** A fresh array of [n] bytes, [malloc (n)] with [length] set to [n].  The
    allocation is taken to succeed ([ERROR_COULD_NOT_ALLOCATE] is not
    modelled); the content of the memory is unspecified in C and zero here:
    the encoder never reads it, and the decoder reads only what it wrote or
    what lies before [index]. *)
Definition zeroed (n : Z) : array_t :=
  {| array_bytes := repeat x00 (Z.to_nat n); array_length := n |}.

(** [lzss_encode] into an output of [lzss_get_upper_bound (input.length)]
    bytes: what [do_lzss_encoding] does with its configuration, and
    [Lzss::encode] of lzss_cpp.cpp with any. *)
Definition encode_in_upper_bound (config : lzss_config_t) (input : array_t)
  : option (error_t * array_t) :=
  lzss_encode config input (zeroed (lzss_get_upper_bound (array_length input))).

Definition do_lzss_encoding (input : array_t) : option (error_t * array_t) :=
  let config := lzss_config_init 10 6 2 in
  encode_in_upper_bound config input.

(** [do_lzss_decoding]: the output is allocated with the length the header
    declares; when the header cannot be read the output stays the empty
    array the caller passed. *)
Definition do_lzss_decoding (input : array_t) : decoded :=
  let config := lzss_config_init 10 6 2 in
  let '(error, original_length) := lzss_get_original_length input in
  if failed error
  then Decoded error {| array_bytes := []; array_length := 0 |}
  else lzss_decode config input (zeroed original_length).

Definition array_of (l : list byte) : array_t :=
  {| array_bytes := l; array_length := Z.of_nat (List.length l) |}.

(** * Specification vocabulary *)

(** The [n] low bits of [v], most significant first: the order in which
    [bit_stream_write_uint32] emits them and [bit_stream_read_bit] consumes
    the accumulator. *)
Fixpoint low_bits (v : Z) (n : nat) : list bool :=
  match n with
  | O => []
  | S k => Z.testbit v (Z.of_nat k) :: low_bits v k
  end.

(** The bits of a byte sequence, each byte most significant bit first. *)
Definition bits_of_bytes (l : list byte) : list bool :=
  flat_map (fun b => low_bits (byte_to_Z b) 8) l.

(** The value a reader accumulates from [value] over the bits [bs]. *)
Fixpoint bits_value (value : Z) (bs : list bool) : Z :=
  match bs with
  | [] => value
  | b :: bs' => bits_value (2 * value + Z.b2z b) bs'
  end.

(** An array whose [length] field is a [uint32_t] within its allocation. *)
Definition array_ok (a : array_t) : Prop :=
  0 <= array_length a <= Z.of_nat (List.length (array_bytes a))
  /\ array_length a < 2 ^ 32.

(** [writes out s bs]: [s] is a stream over [out] in which no write has
    failed, and [bs] are the bits written so far, the flushed bytes followed
    by the content of the accumulator. *)
Record writes (out : array_t) (s : bit_stream_t) (bs : list bool) : Prop := {
  w_len : buffer_length s = array_length out;
  w_alloc : List.length (buffer s) = List.length (array_bytes out);
  w_count : 0 <= bit_count s < 8;
  w_pos : 0 <= buffer_position s <= buffer_length s;
  w_bits :
    bs = bits_of_bytes (firstn (Z.to_nat (buffer_position s)) (buffer s))
         ++ low_bits (byte_buffer s) (Z.to_nat (bit_count s))
}.

(** The bytes of the buffer a reader has not pulled yet. *)
Definition unread (s : bit_stream_t) : list byte :=
  firstn (Z.to_nat (buffer_length s - buffer_position s))
    (skipn (Z.to_nat (buffer_position s)) (buffer s)).

(** [reads s bs]: the bits the stream [s] will deliver are [bs], the rest of
    the accumulator followed by the bytes not pulled yet. *)
Record reads (s : bit_stream_t) (bs : list bool) : Prop := {
  r_count : 0 <= bit_count s <= 8;
  r_pos : 0 <= buffer_position s <= buffer_length s;
  r_len : buffer_length s <= Z.of_nat (List.length (buffer s));
  r_u32 : buffer_length s < 2 ^ 32;
  r_bits :
    bs = low_bits (byte_buffer s) (Z.to_nat (bit_count s))
         ++ bits_of_bytes (unread s)
}.

(** The bits of the groups that [bit_stream_write_7bit_uint32] emits for
    [n]: low group first, the continuation flag on all but the last, and
    nothing at all for 0. *)
Fixpoint vlq_bits (fuel : nat) (n : Z) : list bool :=
  match fuel with
  | O => []
  | S fuel' =>
      if 127 <? n
      then low_bits (Z.lor 128 (Z.land n 127)) 8
           ++ vlq_bits fuel' (Z.shiftr n 7)
      else if 0 <? n then low_bits (Z.land n 127) 8 else []
  end.

(** [is_run input o index L]: the bytes from [o] and from [index] agree on
    exactly [L] positions, the run ending at a mismatch or at the end of the
    input. *)
Definition is_run (input : array_t) (o index L : Z) : Prop :=
  0 <= L /\ index + L <= array_length input
  /\ (forall j, 0 <= j < L ->
        load (array_bytes input) (o + j)
        = load (array_bytes input) (index + j))
  /\ (index + L < array_length input ->
        load (array_bytes input) (o + L)
        <> load (array_bytes input) (index + L)).

(** The run from the candidate [o], as the inner loop computes it. *)
Definition run_from (input : array_t) (index o : Z) : Z :=
  match_run (Z.to_nat (array_length input)) input o index 0.

(** What the outer loop has found when it is about to look at [o], the
    window starting at [start]: nothing yet, or the last candidate among
    those of the longest run. *)
Definition best_so_far (input : array_t) (index start o bo bl : Z)
  : Prop :=
  (o = start /\ bo = 0 /\ bl = 0)
  \/ (start <= bo < o /\ bl = run_from input index bo
      /\ forall c, start <= c < o ->
           run_from input index c <= bl
           /\ (bo < c -> run_from input index c < bl)).

(** The configurations of the specification: field widths that fit a 32-bit
    word together, the derived maxima, and a minimum length of at least 1
    (the fields are [uint8_t]). *)
Definition config_invariant (config : lzss_config_t) : Prop :=
  0 <= offset_bits config /\ 0 <= length_bits config
  /\ offset_bits config + length_bits config <= 31
  /\ max_offset config = 2 ^ offset_bits config - 1
  /\ max_length config = 2 ^ length_bits config - 1
  /\ 1 <= minimum_length config <= 255.

(** The window of [index]: the candidates [start <= o < index]. *)
Definition window_start (config : lzss_config_t) (index : Z) : Z :=
  Z.max 0 (index - max_offset config).

(** The entries of the token stream. *)
Inductive token : Set :=
| Literal (byte : Z)
| Pair (offset length : Z).

(** The tokens the loop of [lzss_encode] emits from [index] on: the same
    tests and the same steps, without the stream. *)
Fixpoint tokens_loop (fuel : nat) (config : lzss_config_t) (input : array_t)
    (index : Z) : list token :=
  if index <? array_length input then
    match fuel with
    | O => []
    | S fuel' =>
        let m := __get_longest_match config input index in
        if match_length m >=? minimum_length config
        then Pair (match_offset m) (match_length m)
             :: tokens_loop fuel' config input (u32 (index + match_length m))
        else Literal (load (array_bytes input) index)
             :: tokens_loop fuel' config input (u32 (index + 1))
    end
  else [].

(** The tokens of a whole input; [input.length] rounds are enough
    ([tokens_loop_fuel]). *)
Definition lzss_tokens (config : lzss_config_t) (input : array_t)
  : list token :=
  tokens_loop (Z.to_nat (array_length input)) config input 0.

(** A token on the wire: the flag bit, then the fields most significant bit
    first. *)
Definition token_bits (config : lzss_config_t) (t : token) : list bool :=
  match t with
  | Literal b => false :: low_bits b 8
  | Pair o l =>
      true :: low_bits o (Z.to_nat (offset_bits config))
           ++ low_bits l (Z.to_nat (length_bits config))
  end.

Definition tokens_bits (config : lzss_config_t) (ts : list token)
  : list bool :=
  flat_map (token_bits config) ts.

(** Everything the encoder puts on the wire for [input]: the header and the
    tokens. *)
Definition wire_bits (config : lzss_config_t) (input : array_t) : list bool :=
  vlq_bits 5 (array_length input)
  ++ tokens_bits config (lzss_tokens config input).

(** The bits a reader can still deliver. *)
Definition bits_left (s : bit_stream_t) : Z :=
  8 * (buffer_length s - buffer_position s) + bit_count s.

(** A reading stream within its buffer. *)
Definition reader_ok (s : bit_stream_t) : Prop :=
  0 <= bit_count s <= 8
  /\ 0 <= buffer_position s <= buffer_length s
  /\ buffer_length s < 2 ^ 32.

(** The demonstration configuration of the driver, and ten bytes 'A'. *)
Definition demo_config : lzss_config_t := lzss_config_init 10 6 2.
Definition ten_A : list byte := repeat x41 10.

(** A pair token whose fields fit their widths: written with
    [bit_stream_write_uint32] they read back as they are. *)
Definition pair_in_range (config : lzss_config_t) (t : token) : Prop :=
  match t with
  | Literal _ => True
  | Pair o l =>
      1 <= o <= max_offset config
      /\ minimum_length config <= l <= max_length config
      /\ bits_value 0 (low_bits o (Z.to_nat (offset_bits config))) = o
      /\ bits_value 0 (low_bits l (Z.to_nat (length_bits config))) = l
  end.


(** [longest_last config input index best L]: the candidate [best] of the
    window has run length [L], no candidate has a longer run, and every
    candidate after [best] (closer to [index]) has a shorter one. *)
Definition longest_last (config : lzss_config_t) (input : array_t)
    (index best L : Z) : Prop :=
  window_start config index <= best < index
  /\ is_run input best index L
  /\ forall c L',
       window_start config index <= c < index ->
       is_run input c index L' ->
       L' <= L /\ (best < c -> L' < L).

(** The match returned at [index] is the longest of the window, the closest
    one among the longest, as a backward distance and a capped length. *)
Definition returns_best_match (config : lzss_config_t) (input : array_t)
    (index : Z) : Prop :=
  exists best L,
    longest_last config input index best L
    /\ match_offset (__get_longest_match config input index) = index - best
    /\ match_length (__get_longest_match config input index)
       = MIN L (max_length config).

(** Ten bytes in which every second byte repeats a byte met before, so that
    with a minimum length of 1 the encoder emits pairs of length 1. *)
Definition costly_pairs_input : list byte :=
  [x41; x41; x42; x41; x43; x41; x44; x41; x45; x41].

(** Four times a literal and a pair of length 2, then 16 more literals:
    248 bits of tokens in the demonstration configuration. *)
Definition unchecked_header_input : list byte :=
  [x41; x41; x41; x42; x42; x42; x43; x43; x43; x44; x44; x44;
   x01; x02; x03; x04; x05; x06; x07; x08; x09; x0a; x0b; x0c; x0d; x0e;
   x0f; x10].

(** ** The rest of the driver *)

Fixpoint bytes_eqb (a b : list byte) : bool :=
  match a, b with
  | [], [] => true
  | x :: a', y :: b' => Byte.eqb x y && bytes_eqb a' b'
  | _, _ => false
  end.

(** [memcmp (a, b, n) != 0], on arrays that hold [n] bytes each. *)
Definition memcmp_nonzero (a b : list byte) (n : Z) : bool :=
  negb (bytes_eqb (firstn (Z.to_nat n) a) (firstn (Z.to_nat n) b)).

(** [main] from the point where [read_file] has filled [input]: the exit
    code, without the messages.  [None] when the decoder leaves the model
    ([OutOfBounds]) or a loop runs out of rounds. *)
Definition main_after_read_file (input : array_t) : option Z :=
  match do_lzss_encoding input with
  | None => None
  | Some (error, compressed) =>
      if failed error then Some (-1)
      else
        match do_lzss_decoding compressed with
        | Decoded error decompressed =>
            if failed error then Some (-1)
            else if memcmp_nonzero (array_bytes input)
                      (array_bytes decompressed)
                      (MIN (array_length input) (array_length decompressed))
            then Some 1
            else Some 0
        | OutOfBounds => None
        | OutOfFuel => None
        end
  end.

(** The input bytes a token stands for. *)
Definition token_span (t : token) : Z :=
  match t with
  | Literal _ => 1
  | Pair _ l => l
  end.

Fixpoint span_sum (ts : list token) : Z :=
  match ts with
  | [] => 0
  | t :: ts' => token_span t + span_sum ts'
  end.


(** * Properties *)

(** Inversion of an equation between results without reducing its sides. *)
Ltac pair_inv E :=
  match type of E with
  | (_, _) = (_, _) =>
      let E1 := fresh in
      let E2 := fresh in
      apply pair_equal_spec in E; destruct E as [E1 E2];
      pair_inv E1; pair_inv E2
  | _ = ?x => is_var x; subst x
  | ?x = _ => is_var x; subst x
  | _ => idtac
  end.

Ltac break_cond :=
  match goal with
  | |- context [if ?a =? ?b then _ else _] => destruct (Z.eqb_spec a b)
  | |- context [if ?a <? ?b then _ else _] => destruct (Z.ltb_spec a b)
  | |- context [if ?a >=? ?b then _ else _] => destruct (Z.geb_spec a b)
  end.

Ltac stream_fields :=
  cbn [fst snd failed buffer buffer_length buffer_position byte_buffer
       bit_count] in *.

(** ** Bytes and arrays *)

Lemma u8_small x : 0 <= x < 256 -> u8 x = x.
Proof. intros H. unfold u8. apply Z.mod_small. lia. Qed.

Lemma u32_small x : 0 <= x < 2 ^ 32 -> u32 x = x.
Proof. intros H. unfold u32. apply Z.mod_small. lia. Qed.

Lemma u8_range x : 0 <= u8 x < 256.
Proof. unfold u8. change (2 ^ 8) with 256. apply Z.mod_pos_bound. lia. Qed.

Lemma u32_range x : 0 <= u32 x < 2 ^ 32.
Proof. unfold u32. apply Z.mod_pos_bound. lia. Qed.

Lemma byte_to_Z_range b : 0 <= byte_to_Z b < 256.
Proof.
  unfold byte_to_Z. pose proof (Byte.to_N_bounded b). lia.
Qed.

Lemma byte_of_to_Z b : byte_of_Z (byte_to_Z b) = b.
Proof.
  unfold byte_of_Z. rewrite u8_small by apply byte_to_Z_range.
  unfold byte_to_Z. rewrite N2Z.id, Byte.of_to_N. reflexivity.
Qed.

Lemma byte_to_of_Z z : byte_to_Z (byte_of_Z z) = u8 z.
Proof.
  unfold byte_of_Z, byte_to_Z. pose proof (u8_range z) as Hr.
  destruct (Byte.of_N (Z.to_N (u8 z))) as [b|] eqn:E.
  - apply Byte.to_of_N in E. rewrite E. lia.
  - apply Byte.of_N_None_iff in E. lia.
Qed.

Lemma load_range l i : 0 <= load l i < 256.
Proof. apply byte_to_Z_range. Qed.

Lemma store_nat_length l i v : List.length (store_nat l i v) = List.length l.
Proof.
  revert i. induction l as [|h t IH]; intros [|i]; simpl; auto.
Qed.

Lemma store_length l i v : List.length (store l i v) = List.length l.
Proof. apply store_nat_length. Qed.



Lemma firstn_store_nat_below l i n v :
  (n <= i)%nat -> firstn n (store_nat l i v) = firstn n l.
Proof.
  revert i n. induction l as [|h t IH]; intros [|i] [|n] H; simpl; auto;
    try lia.
  f_equal. apply IH. lia.
Qed.

Lemma firstn_store_nat_at l i v :
  (i < List.length l)%nat ->
  firstn (S i) (store_nat l i v) = firstn i l ++ [v].
Proof.
  revert i. induction l as [|h t IH]; intros [|i] H; simpl in *; try lia; auto.
  f_equal. apply IH. lia.
Qed.

Lemma firstn_snoc_nth (l : list byte) n d :
  (n < List.length l)%nat -> firstn (S n) l = firstn n l ++ [nth n l d].
Proof.
  revert n. induction l as [|h t IH]; intros [|n] H; simpl in *; try lia; auto.
  f_equal. apply IH. lia.
Qed.

(** ** Bits *)

Lemma low_bits_length v n : List.length (low_bits v n) = n.
Proof. induction n; simpl; auto. Qed.

Lemma low_bits_ext v w n :
  (forall i, 0 <= i < Z.of_nat n -> Z.testbit v i = Z.testbit w i) ->
  low_bits v n = low_bits w n.
Proof.
  induction n as [|k IH]; intros H; simpl; auto.
  f_equal.
  - apply H. lia.
  - apply IH. intros i Hi. apply H. lia.
Qed.

Lemma low_bits_snoc v n b w :
  Z.testbit w 0 = b ->
  (forall i, 0 <= i < Z.of_nat n -> Z.testbit w (i + 1) = Z.testbit v i) ->
  low_bits w (S n) = low_bits v n ++ [b].
Proof.
  revert w. induction n as [|k IH]; intros w H0 H.
  - cbn [low_bits app]. change (Z.of_nat 0) with 0. rewrite H0. reflexivity.
  - change (low_bits w (S (S k)))
      with (Z.testbit w (Z.of_nat (S k)) :: low_bits w (S k)).
    cbn [low_bits]. rewrite <- app_comm_cons. f_equal.
    + replace (Z.of_nat (S k)) with (Z.of_nat k + 1) by lia. apply H. lia.
    + apply IH; auto. intros i Hi. apply H. lia.
Qed.

Lemma low_bits_shift v n k :
  low_bits (Z.shiftl v (Z.of_nat k)) (n + k) = low_bits v n ++ repeat false k.
Proof.
  induction n as [|m IH].
  - cbn [low_bits app Nat.add].
    assert (H : forall j, (j <= k)%nat ->
              low_bits (Z.shiftl v (Z.of_nat k)) j = repeat false j).
    { induction j as [|j IHj]; intros Hj; cbn [low_bits repeat]; auto.
      f_equal.
      - apply Z.shiftl_spec_low. lia.
      - apply IHj. lia. }
    apply H. lia.
  - cbn [low_bits app Nat.add]. f_equal; auto.
    rewrite Z.shiftl_spec by lia. f_equal. lia.
Qed.

Lemma low_bits_u8 v n : (n <= 8)%nat -> low_bits (u8 v) n = low_bits v n.
Proof.
  intros H. apply low_bits_ext. intros i Hi. unfold u8.
  apply Z.mod_pow2_bits_low. lia.
Qed.

Lemma low_bits_u32 v n : (n <= 32)%nat -> low_bits (u32 v) n = low_bits v n.
Proof.
  intros H. apply low_bits_ext. intros i Hi. unfold u32.
  apply Z.mod_pow2_bits_low. lia.
Qed.

Lemma land_pow2 a n :
  0 <= n -> Z.land a (2 ^ n) = if Z.testbit a n then 2 ^ n else 0.
Proof.
  intros Hn. apply Z.bits_inj'. intros m Hm.
  rewrite Z.land_spec, Z.pow2_bits_eqb by lia.
  destruct (Z.eqb_spec n m) as [->|Hne].
  - destruct (Z.testbit a m); simpl.
    + rewrite Z.pow2_bits_true; auto.
    + rewrite Z.bits_0. reflexivity.
  - rewrite andb_false_r. destruct (Z.testbit a n).
    + rewrite Z.pow2_bits_false; auto.
    + rewrite Z.bits_0. reflexivity.
Qed.

Lemma gt0_land_shiftl a n :
  0 <= n -> gt0 (Z.land a (Z.shiftl 1 n)) = Z.b2z (Z.testbit a n).
Proof.
  intros Hn. rewrite Z.shiftl_1_l, land_pow2 by lia. unfold gt0.
  destruct (Z.testbit a n); simpl; auto.
  assert (0 < 2 ^ n) by (apply Z.pow_pos_nonneg; lia).
  destruct (Z.ltb_spec 0 (2 ^ n)); auto; lia.
Qed.

Lemma land_b2z_1 b : Z.land (Z.b2z b) 1 = Z.b2z b.
Proof. destruct b; reflexivity. Qed.

Lemma testbit_b2z_0 b : Z.testbit (Z.b2z b) 0 = b.
Proof. destruct b; reflexivity. Qed.

Lemma b2z_eq0 b : (Z.b2z b =? 0) = negb b.
Proof. destruct b; reflexivity. Qed.

Lemma bits_value_app v bs cs :
  bits_value v (bs ++ cs) = bits_value (bits_value v bs) cs.
Proof. revert v. induction bs; simpl; auto. Qed.

Lemma bits_value_low_bits a v n :
  0 <= v ->
  bits_value a (low_bits v n) = a * 2 ^ Z.of_nat n + v mod 2 ^ Z.of_nat n.
Proof.
  intros Hv. revert a. induction n as [|k IH]; intros a.
  - cbn [low_bits bits_value]. change (2 ^ Z.of_nat 0) with 1.
    rewrite Z.mod_1_r. lia.
  - cbn [low_bits bits_value]. rewrite IH.
    replace (Z.of_nat (S k)) with (Z.of_nat k + 1) by lia.
    rewrite Z.pow_add_r by lia. change (2 ^ 1) with 2.
    assert (Hp : 0 < 2 ^ Z.of_nat k) by (apply Z.pow_pos_nonneg; lia).
    rewrite (Z.testbit_spec' v (Z.of_nat k)) by lia.
    rewrite Z.rem_mul_r by lia. ring.
Qed.

Lemma bits_of_bytes_app l1 l2 :
  bits_of_bytes (l1 ++ l2) = bits_of_bytes l1 ++ bits_of_bytes l2.
Proof. unfold bits_of_bytes. apply flat_map_app. Qed.

Lemma bits_of_bytes_length l :
  List.length (bits_of_bytes l) = (8 * List.length l)%nat.
Proof.
  induction l as [|h t IH]; auto.
  change (bits_of_bytes (h :: t))
    with (low_bits (byte_to_Z h) 8 ++ bits_of_bytes t).
  rewrite length_app, low_bits_length, IH. simpl List.length. lia.
Qed.

Lemma testbit_b2z_high b i : 0 < i -> Z.testbit (Z.b2z b) i = false.
Proof.
  intros Hi. destruct b; simpl Z.b2z.
  - replace 1 with (2 ^ 0) by reflexivity. apply Z.pow2_bits_false. lia.
  - apply Z.bits_0.
Qed.

(** The accumulator after [byte_buffer <<= 1; byte_buffer |= bit & 1]. *)
Lemma low_bits_push acc b n :
  (n < 8)%nat ->
  low_bits (Z.lor (u8 (Z.shiftl acc 1)) (Z.land (Z.b2z b) 1)) (S n)
  = low_bits acc n ++ [b].
Proof.
  intros Hn. rewrite land_b2z_1. apply low_bits_snoc.
  - rewrite Z.lor_spec. unfold u8.
    rewrite Z.mod_pow2_bits_low, Z.shiftl_spec_low, testbit_b2z_0 by lia.
    reflexivity.
  - intros i Hi. rewrite Z.lor_spec. unfold u8.
    rewrite Z.mod_pow2_bits_low, Z.shiftl_spec, testbit_b2z_high by lia.
    rewrite orb_false_r. f_equal. lia.
Qed.

Lemma lor_disjoint a b : Z.land a b = 0 -> Z.lor a b = a + b.
Proof. intros H. pose proof (Z.add_lor_land a b). lia. Qed.

Lemma lor_double_b2z a b : Z.lor (2 * a) (Z.b2z b) = 2 * a + Z.b2z b.
Proof.
  apply lor_disjoint.
  apply Z.bits_inj'. intros n Hn. rewrite Z.land_spec, Z.bits_0.
  destruct (Z.eq_dec n 0) as [->|Hne].
  - rewrite Z.testbit_even_0. reflexivity.
  - rewrite testbit_b2z_high by lia. apply andb_false_r.
Qed.

(** ** The writing side of the bit stream *)

Lemma writes_init out : array_ok out -> writes out (bit_stream_init out) [].
Proof.
  intros [H1 H2]. constructor; simpl; auto; lia.
Qed.

Lemma writes_length out s bs :
  array_ok out -> writes out s bs ->
  Z.of_nat (List.length bs) = 8 * buffer_position s + bit_count s.
Proof.
  intros [H1 H2] [Hl Ha Hc Hp Hb]. subst bs.
  rewrite length_app, bits_of_bytes_length, low_bits_length, length_firstn.
  lia.
Qed.

Section Writer.

Variable out : array_t.
Hypothesis out_ok : array_ok out.

Lemma write_bit_spec s bs b e s' :
  writes out s bs ->
  bit_stream_write_bit s (Z.b2z b) = (e, s') ->
  (e = ERROR_ALL_GOOD /\ writes out s' (bs ++ [b]))
  \/ (e = ERROR_BUFFER_OUT_OF_BOUNDS
      /\ 8 * array_length out < Z.of_nat (List.length bs) + 1).
Proof.
  intros W E. pose proof (writes_length out s bs out_ok W) as HL.
  destruct out_ok as [Hok1 Hok2]. destruct W as [Hl Ha Hc Hp Hb].
  unfold bit_stream_write_bit in E.
  cbn [buffer buffer_length buffer_position byte_buffer bit_count] in E.
  rewrite (u8_small (bit_count s + 1)) in E by lia.
  assert (Hacc :
    low_bits (Z.lor (u8 (Z.shiftl (byte_buffer s) 1)) (Z.land (Z.b2z b) 1))
      (S (Z.to_nat (bit_count s)))
    = low_bits (byte_buffer s) (Z.to_nat (bit_count s)) ++ [b])
    by (apply low_bits_push; lia).
  destruct (Z.eqb_spec (bit_count s + 1) 8) as [H8|H8].
  - unfold bit_stream_flush in E.
    cbn [buffer buffer_length buffer_position byte_buffer bit_count] in E.
    rewrite H8 in E. change (8 =? 0) with false in E.
    change (8 <? 8) with false in E. cbv iota in E.
    destruct (Z.geb_spec (buffer_position s) (buffer_length s)) as [Hge|Hlt];
      pair_inv E.
    + right. split; auto. lia.
    + left. split; auto.
      rewrite u32_small by lia.
      constructor;
        cbn [buffer buffer_length buffer_position byte_buffer bit_count];
        auto; try lia.
      * unfold store. rewrite store_nat_length. auto.
      * replace (Z.to_nat (buffer_position s + 1))
          with (S (Z.to_nat (buffer_position s))) by lia.
        unfold store. rewrite firstn_store_nat_at by lia.
        rewrite bits_of_bytes_app. cbn [low_bits].
        rewrite app_nil_r. subst bs. rewrite <- app_assoc. f_equal.
        unfold bits_of_bytes. cbn [flat_map]. rewrite app_nil_r.
        rewrite byte_to_of_Z, low_bits_u8 by lia.
        replace 8%nat with (S (Z.to_nat (bit_count s))) by lia.
        symmetry. exact Hacc.
  - pair_inv E. left. split; auto.
    constructor;
      cbn [buffer buffer_length buffer_position byte_buffer bit_count];
      auto; try lia.
    subst bs. rewrite <- app_assoc. f_equal.
    replace (Z.to_nat (bit_count s + 1))
      with (S (Z.to_nat (bit_count s))) by lia.
    symmetry. exact Hacc.
Qed.

Lemma write_uint32_loop_spec n : forall s bs v e s',
  (n <= 32)%nat ->
  writes out s bs ->
  write_uint32_loop n s v = (e, s') ->
  (e = ERROR_ALL_GOOD /\ writes out s' (bs ++ low_bits v n))
  \/ (e = ERROR_BUFFER_OUT_OF_BOUNDS
      /\ 8 * array_length out < Z.of_nat (List.length bs) + Z.of_nat n).
Proof.
  induction n as [|k IH]; intros s bs v e s' Hn W E.
  - cbn [write_uint32_loop] in E. pair_inv E. left. cbn [low_bits].
    rewrite app_nil_r. auto.
  - cbn [write_uint32_loop] in E.
    rewrite u32_small in E.
    2:{ rewrite Z.shiftl_1_l. split; [apply Z.pow_nonneg; lia|].
        apply Z.pow_lt_mono_r; lia. }
    rewrite gt0_land_shiftl in E by lia.
    destruct (bit_stream_write_bit s (Z.b2z (Z.testbit v (Z.of_nat k))))
      as [e1 s1] eqn:E1.
    destruct (write_bit_spec _ _ _ _ _ W E1) as [[-> W1]|[-> Hc]].
    + cbn [failed] in E.
      assert (Hk : (k <= 32)%nat) by lia.
      destruct (IH _ _ _ _ _ Hk W1 E) as [[-> W2]|[-> Hc]].
      * left. split; auto. cbn [low_bits].
        rewrite <- app_assoc in W2. exact W2.
      * right. split; auto. rewrite length_app in Hc.
        cbn [List.length] in Hc. lia.
    + cbn [failed] in E. pair_inv E. right. split; auto. lia.
Qed.

Lemma write_uint32_spec s bs v bits e s' :
  0 <= bits <= 32 ->
  writes out s bs ->
  bit_stream_write_uint32 s v bits = (e, s') ->
  (e = ERROR_ALL_GOOD /\ writes out s' (bs ++ low_bits v (Z.to_nat bits)))
  \/ (e = ERROR_BUFFER_OUT_OF_BOUNDS
      /\ 8 * array_length out < Z.of_nat (List.length bs) + bits).
Proof.
  intros Hb W E. unfold bit_stream_write_uint32 in E.
  assert (Hk : (Z.to_nat bits <= 32)%nat) by lia.
  destruct (write_uint32_loop_spec _ _ _ _ _ _ Hk W E)
    as [H|[-> Hc]]; auto.
  right. split; auto. lia.
Qed.

(** [bit_stream_flush] at the end of a pass pads the accumulator with zero
    bits up to a byte. *)
Lemma flush_spec s bs e s' :
  writes out s bs ->
  bit_stream_flush s = (e, s') ->
  (e = ERROR_ALL_GOOD /\ (exists pad, writes out s' (bs ++ repeat false pad))
   /\ bit_count s' = 0)
  \/ (e = ERROR_BUFFER_OUT_OF_BOUNDS
      /\ 8 * array_length out < Z.of_nat (List.length bs)).
Proof.
  intros W E. pose proof (writes_length out s bs out_ok W) as HL.
  destruct out_ok as [Hok1 Hok2]. destruct W as [Hl Ha Hc Hp Hb].
  unfold bit_stream_flush in E.
  destruct (Z.eqb_spec (bit_count s) 0) as [H0|H0].
  - pair_inv E. left. split; auto. split; auto.
    exists 0%nat. cbn [repeat]. rewrite app_nil_r. constructor; auto.
  - destruct (Z.ltb_spec (bit_count s) 8) as [_|]; [|lia].
    destruct (Z.geb_spec (buffer_position s) (buffer_length s)) as [Hge|Hlt];
      pair_inv E.
    + right. split; auto. lia.
    + left. split; auto. split; auto.
      exists (Z.to_nat (8 - bit_count s)).
      rewrite u32_small by lia.
      constructor;
        cbn [buffer buffer_length buffer_position byte_buffer bit_count];
        auto; try lia.
      * unfold store. rewrite store_nat_length. auto.
      * replace (Z.to_nat (buffer_position s + 1))
          with (S (Z.to_nat (buffer_position s))) by lia.
        unfold store. rewrite firstn_store_nat_at by lia.
        rewrite bits_of_bytes_app. cbn [low_bits].
        rewrite app_nil_r. subst bs. rewrite <- app_assoc. f_equal.
        unfold bits_of_bytes. cbn [flat_map]. rewrite app_nil_r.
        rewrite byte_to_of_Z.
        rewrite (u8_small (u8 _)) by apply u8_range.
        rewrite low_bits_u8 by lia. symmetry.
        replace (8 - bit_count s) with (Z.of_nat (Z.to_nat (8 - bit_count s)))
          at 1 by lia.
        replace 8%nat
          with (Z.to_nat (bit_count s) + Z.to_nat (8 - bit_count s))%nat
          by lia.
        apply low_bits_shift.
Qed.

End Writer.

(** ** The reading side of the bit stream *)

(** More rounds than five change nothing in the VLQ reader: the fifth round
    always breaks. *)
Lemma read_7bit_fuel fuel : forall k s n shift,
  (1 <= fuel <= 5)%nat ->
  shift = 7 * (5 - Z.of_nat fuel) ->
  read_7bit_loop (fuel + k) s n shift = read_7bit_loop fuel s n shift.
Proof.
  induction fuel as [|f IH]; intros k s n shift Hf Hs; [lia|].
  cbn [Nat.add read_7bit_loop].
  destruct (bit_stream_read_uint32 s 8) as [[e b] s1].
  destruct (failed e); auto.
  destruct f as [|f'].
  - assert (H28 : shift = 28) by lia. rewrite H28.
    change (32 <? u8 (28 + 7)) with true. rewrite orb_true_r. reflexivity.
  - rewrite (u8_small (shift + 7)) by lia.
    destruct ((Z.land b 128 =? 0) || (32 <? shift + 7)); auto.
    apply IH; lia.
Qed.

Lemma skipn_cons_nth (l : list byte) n d :
  (n < List.length l)%nat -> skipn n l = nth n l d :: skipn (S n) l.
Proof.
  revert n. induction l as [|h t IH]; intros [|n] H; simpl in *; try lia; auto.
  apply IH. lia.
Qed.

Lemma reads_init a :
  array_ok a ->
  reads (bit_stream_init a)
    (bits_of_bytes (firstn (Z.to_nat (array_length a)) (array_bytes a))).
Proof.
  intros [H1 H2]. constructor; simpl; auto; try lia.
  unfold unread. simpl. rewrite Z.sub_0_r. reflexivity.
Qed.

Lemma unread_cons s :
  buffer_position s < buffer_length s <= Z.of_nat (List.length (buffer s)) ->
  0 <= buffer_position s ->
  unread s
  = nth (Z.to_nat (buffer_position s)) (buffer s) x00
    :: firstn (Z.to_nat (buffer_length s - (buffer_position s + 1)))
         (skipn (Z.to_nat (buffer_position s + 1)) (buffer s)).
Proof.
  intros H H0. unfold unread.
  rewrite (skipn_cons_nth _ (Z.to_nat (buffer_position s)) x00) by lia.
  replace (Z.to_nat (buffer_length s - buffer_position s))
    with (S (Z.to_nat (buffer_length s - (buffer_position s + 1)))) by lia.
  cbn [firstn].
  replace (Z.to_nat (buffer_position s + 1))
    with (S (Z.to_nat (buffer_position s))) by lia.
  reflexivity.
Qed.

Lemma read_bit_spec s b bs :
  reads s (b :: bs) ->
  exists s',
    bit_stream_read_bit s = (ERROR_ALL_GOOD, Z.b2z b, s') /\ reads s' bs.
Proof.
  intros [Hc Hp Hl Hu Hb]. unfold bit_stream_read_bit.
  destruct (Z.eqb_spec (bit_count s) 0) as [H0|H0].
  - rewrite H0 in Hb. cbn [low_bits app Z.to_nat] in Hb.
    assert (Hlt : buffer_position s < buffer_length s).
    { destruct (Z.lt_ge_cases (buffer_position s) (buffer_length s)); auto.
      unfold unread in Hb.
      replace (Z.to_nat (buffer_length s - buffer_position s)) with O in Hb
        by lia.
      discriminate Hb. }
    unfold bit_stream_unflush.
    destruct (Z.ltb_spec (buffer_position s) (buffer_length s)); [|lia].
    cbn [failed buffer buffer_length buffer_position byte_buffer bit_count].
    rewrite (u8_small (8 - 1)) by lia. rewrite u32_small by lia.
    rewrite gt0_land_shiftl by lia.
    rewrite unread_cons in Hb by lia.
    unfold bits_of_bytes in Hb. cbn [flat_map] in Hb.
    fold (bits_of_bytes
            (firstn (Z.to_nat (buffer_length s - (buffer_position s + 1)))
               (skipn (Z.to_nat (buffer_position s + 1)) (buffer s)))) in Hb.
    change (low_bits ?v 8) with (Z.testbit v 7 :: low_bits v 7) in Hb.
    rewrite <- app_comm_cons in Hb. injection Hb as Hb1 Hb2.
    eexists. split.
    + unfold load. rewrite Hb1. reflexivity.
    + constructor;
        cbn [buffer buffer_length buffer_position byte_buffer bit_count];
        auto; try lia.
  - destruct (Z.to_nat (bit_count s)) as [|k] eqn:Ek; [lia|].
    cbn [low_bits] in Hb. rewrite <- app_comm_cons in Hb.
    injection Hb as Hb1 Hb2.
    cbn [failed].
    rewrite (u8_small (bit_count s - 1)) by lia.
    rewrite gt0_land_shiftl by lia.
    replace (bit_count s - 1) with (Z.of_nat k) by lia.
    eexists. split.
    + rewrite Hb1. reflexivity.
    + constructor;
        cbn [buffer buffer_length buffer_position byte_buffer bit_count];
        auto; try lia.
      rewrite Nat2Z.id. exact Hb2.
Qed.

Lemma read_uint32_loop_spec n : forall s cs rest a,
  List.length cs = n ->
  0 <= a -> a * 2 ^ Z.of_nat n + 2 ^ Z.of_nat n <= 2 ^ 32 ->
  reads s (cs ++ rest) ->
  exists s',
    read_uint32_loop n s a = (ERROR_ALL_GOOD, bits_value a cs, s')
    /\ reads s' rest.
Proof.
  induction n as [|k IH]; intros s cs rest a Hlen Ha Hbound R.
  - destruct cs; [|discriminate]. exists s. split; auto.
  - destruct cs as [|c cs]; [discriminate|]. injection Hlen as Hlen.
    rewrite <- app_comm_cons in R.
    destruct (read_bit_spec _ _ _ R) as [s1 [E1 R1]].
    cbn [read_uint32_loop bits_value]. rewrite E1. cbn [failed].
    rewrite land_b2z_1.
    replace (Z.of_nat (S k)) with (Z.of_nat k + 1) in Hbound by lia.
    rewrite Z.pow_add_r in Hbound by lia. change (2 ^ 1) with 2 in Hbound.
    assert (Hp : 0 < 2 ^ Z.of_nat k) by (apply Z.pow_pos_nonneg; lia).
    assert (Ha2 : 2 * a + 2 <= 2 ^ 32) by nia.
    rewrite Z.shiftl_mul_pow2 by lia. change (2 ^ 1) with 2.
    rewrite u32_small by lia.
    rewrite (Z.mul_comm a 2), lor_double_b2z.
    apply IH; auto.
    + destruct c; simpl Z.b2z; lia.
    + destruct c; simpl Z.b2z; nia.
Qed.

Lemma read_uint32_spec s v bits rest :
  0 <= bits <= 32 -> 0 <= v < 2 ^ bits ->
  reads s (low_bits v (Z.to_nat bits) ++ rest) ->
  exists s',
    bit_stream_read_uint32 s bits = (ERROR_ALL_GOOD, v, s') /\ reads s' rest.
Proof.
  intros Hb Hv R. unfold bit_stream_read_uint32.
  assert (Hp : 0 < 2 ^ bits <= 2 ^ 32).
  { split; [apply Z.pow_pos_nonneg; lia|apply Z.pow_le_mono_r; lia]. }
  destruct (read_uint32_loop_spec (Z.to_nat bits) s
              (low_bits v (Z.to_nat bits)) rest 0) as [s' [E R']]; auto.
  - apply low_bits_length.
  - lia.
  - rewrite Z2Nat.id by lia. lia.
  - exists s'. split; auto. rewrite E.
    rewrite bits_value_low_bits, Z2Nat.id by lia.
    rewrite Z.mod_small by lia. reflexivity.
Qed.

(** ** The 7-bit variable-length quantity *)

Lemma vlq_bits_length fuel : forall n,
  (List.length (vlq_bits fuel n) <= 8 * fuel)%nat.
Proof.
  induction fuel as [|f IH]; intros n; cbn [vlq_bits]; auto.
  destruct (127 <? n).
  - rewrite length_app, low_bits_length. specialize (IH (Z.shiftr n 7)). lia.
  - destruct (0 <? n); [rewrite low_bits_length|simpl]; lia.
Qed.

Lemma testbit_small a k n :
  0 <= a < 2 ^ k -> 0 <= k <= n -> Z.testbit a n = false.
Proof.
  intros Ha Hk. rewrite <- (Z.mod_small a (2 ^ k)) by lia.
  apply Z.mod_pow2_bits_high. lia.
Qed.

Lemma lor_shiftl_add a t k :
  0 <= a < 2 ^ k -> 0 <= k -> Z.lor a (Z.shiftl t k) = a + t * 2 ^ k.
Proof.
  intros Ha Hk. rewrite <- Z.shiftl_mul_pow2 by lia. apply lor_disjoint.
  apply Z.bits_inj'. intros n Hn. rewrite Z.land_spec, Z.bits_0.
  destruct (Z.lt_ge_cases n k).
  - rewrite Z.shiftl_spec_low by lia. apply andb_false_r.
  - rewrite (testbit_small a k n) by lia. reflexivity.
Qed.

Lemma land_127 n : Z.land n 127 = n mod 128.
Proof. change 127 with (Z.ones 7). rewrite Z.land_ones by lia. reflexivity. Qed.

Lemma land_128_small g : 0 <= g < 128 -> Z.land g 128 = 0.
Proof.
  intros H. change 128 with (2 ^ 7). rewrite land_pow2 by lia.
  rewrite (testbit_small g 7 7) by (change (2 ^ 7) with 128; lia).
  reflexivity.
Qed.

Lemma lor_128_small g : 0 <= g < 128 -> Z.lor 128 g = 128 + g.
Proof.
  intros H. apply lor_disjoint. rewrite Z.land_comm. apply land_128_small; auto.
Qed.

Lemma land_128_flag g : 0 <= g < 128 -> Z.land (128 + g) 128 = 128.
Proof.
  intros H.
  assert (T : Z.testbit (128 + g) 7 = true).
  { apply Z.testbit_true; [lia|]. change (2 ^ 7) with 128.
    replace ((128 + g) / 128) with 1; [reflexivity|].
    apply Z.div_unique with (r := g); lia. }
  change 128 with (2 ^ 7) at 2. rewrite land_pow2, T by lia. reflexivity.
Qed.

Section Writer_vlq.

Variable out : array_t.
Hypothesis out_ok : array_ok out.

(** The loop and the last group of the writer, on a stream in which no write
    has failed: either every group is written, or the capacity is smaller
    than the bits to write.  In the second case the error code says nothing,
    the result of the last group being dropped by the source. *)
Lemma write_7bit_spec fuel : forall s bs n r,
  0 < n < 2 ^ (7 * Z.of_nat fuel) ->
  writes out s bs ->
  (let '(error, s1, n') := write_7bit_loop fuel s n in
   if failed error then (error, s1)
   else if 0 <? n'
        then (error, snd (bit_stream_write_uint32 s1 (Z.land n' 127) 8))
        else (error, s1)) = r ->
  (fst r = ERROR_ALL_GOOD /\ writes out (snd r) (bs ++ vlq_bits fuel n))
  \/ 8 * array_length out
     < Z.of_nat (List.length bs) + Z.of_nat (List.length (vlq_bits fuel n)).
Proof.
  induction fuel as [|f IH]; intros s bs n r Hn W E.
  - change (2 ^ (7 * Z.of_nat 0)) with 1 in Hn. lia.
  - cbn [write_7bit_loop vlq_bits] in *.
    destruct (Z.ltb_spec 127 n) as [Hbig|Hsmall].
    + destruct (bit_stream_write_uint32 s (Z.lor 128 (Z.land n 127)) 8)
        as [e1 s1] eqn:E1.
      destruct (write_uint32_spec out out_ok _ _ _ 8 _ _ ltac:(lia) W E1)
        as [[-> W1]|[-> Hc]].
      * cbn [failed] in E.
        assert (Hn' : 0 < Z.shiftr n 7 < 2 ^ (7 * Z.of_nat f)).
        { rewrite Z.shiftr_div_pow2 by lia. change (2 ^ 7) with 128.
          replace (7 * Z.of_nat (S f)) with (7 + 7 * Z.of_nat f) in Hn by lia.
          rewrite Z.pow_add_r in Hn by lia. change (2 ^ 7) with 128 in Hn.
          split.
          - apply Z.div_str_pos. lia.
          - apply Z.div_lt_upper_bound; lia. }
        destruct (IH _ _ _ _ Hn' W1 E) as [[He W2]|Hc].
        -- left. split; auto. rewrite app_assoc. exact W2.
        -- right. rewrite length_app, low_bits_length in Hc.
           rewrite length_app, low_bits_length. lia.
      * cbn [failed] in E. subst r. right.
        rewrite length_app, low_bits_length. lia.
    + destruct (Z.ltb_spec 0 n) as [_|]; [|lia].
      cbn [failed] in E.
      destruct (bit_stream_write_uint32 s (Z.land n 127) 8)
        as [e1 s1] eqn:E1.
      subst r. cbn [fst snd].
      destruct (write_uint32_spec out out_ok _ _ _ 8 _ _ ltac:(lia) W E1)
        as [[-> W1]|[-> Hc]].
      * left. split; auto.
      * right. rewrite low_bits_length. lia.
Qed.

Lemma write_7bit_uint32_spec s bs n e s' :
  0 < n < 2 ^ 32 ->
  writes out s bs ->
  bit_stream_write_7bit_uint32 s n = (e, s') ->
  (e = ERROR_ALL_GOOD /\ writes out s' (bs ++ vlq_bits 5 n))
  \/ 8 * array_length out
     < Z.of_nat (List.length bs) + Z.of_nat (List.length (vlq_bits 5 n)).
Proof.
  intros Hn W E. unfold bit_stream_write_7bit_uint32 in E.
  rewrite u32_small in E by lia.
  assert (Hn' : 0 < n < 2 ^ (7 * Z.of_nat 5)).
  { change (2 ^ (7 * Z.of_nat 5)) with (2 ^ 32 * 8). lia. }
  exact (write_7bit_spec 5 s bs n (e, s') Hn' W E).
Qed.

End Writer_vlq.

(** Reading the groups back.  [acc] holds the groups read so far, below
    [2 ^ shift], and [m] is what the writer still had to emit. *)
Lemma read_7bit_loop_spec fuel : forall s m acc shift rest,
  (fuel <= 5)%nat ->
  shift = 7 * (5 - Z.of_nat fuel) ->
  0 <= acc < 2 ^ shift ->
  0 < m -> m * 2 ^ shift < 2 ^ 32 ->
  reads s (vlq_bits fuel m ++ rest) ->
  exists s',
    read_7bit_loop fuel s acc shift = (ERROR_ALL_GOOD, acc + m * 2 ^ shift, s')
    /\ reads s' rest.
Proof.
  induction fuel as [|f IH]; intros s m acc shift rest Hf Hs Hacc Hm Hms R.
  - subst shift. change (2 ^ (7 * (5 - Z.of_nat 0))) with (2 ^ 32 * 8) in Hms.
    lia.
  - assert (Hsh : 0 <= shift <= 28) by lia.
    assert (Hp : 0 < 2 ^ shift) by (apply Z.pow_pos_nonneg; lia).
    cbn [read_7bit_loop vlq_bits] in *.
    pose proof (Z.mod_pos_bound m 128 ltac:(lia)) as Hg.
    destruct (Z.ltb_spec 127 m) as [Hbig|Hsmall].
    + rewrite <- app_assoc in R.
      rewrite land_127, lor_128_small in R by lia.
      destruct (read_uint32_spec s (128 + m mod 128) 8 _ ltac:(lia)
                  ltac:(change (2 ^ 8) with 256; lia) R) as [s1 [E1 R1]].
      rewrite E1. cbn [failed].
      rewrite land_128_flag by lia. change (128 =? 0) with false.
      cbn [orb].
      assert (Hsh2 : shift <= 21).
      { destruct (Z.le_gt_cases shift 21); auto.
        assert (H28 : shift = 28) by lia. rewrite H28 in Hms.
        change (2 ^ 28) with 268435456 in Hms.
        change (2 ^ 32) with 4294967296 in Hms. lia. }
      rewrite (u8_small (shift + 7)) by lia.
      destruct (Z.ltb_spec 32 (shift + 7)); [lia|].
      rewrite land_127.
      replace ((128 + m mod 128) mod 128) with (m mod 128).
      2:{ apply Z.mod_unique with (q := 1); lia. }
      assert (Hpow : 2 ^ (shift + 7) = 128 * 2 ^ shift).
      { rewrite Z.pow_add_r by lia. change (2 ^ 7) with 128. lia. }
      assert (Hdm : m = 128 * (m / 128) + m mod 128)
        by (apply Z.div_mod; lia).
      assert (Hq : 0 < m / 128) by (apply Z.div_str_pos; lia).
      rewrite u32_small.
      2:{ rewrite Z.shiftl_mul_pow2 by lia. split; [nia|nia]. }
      rewrite lor_shiftl_add by lia.
      rewrite Z.shiftr_div_pow2 in R1 by lia. change (2 ^ 7) with 128 in R1.
      assert (Hacc' : 0 <= acc + m mod 128 * 2 ^ shift < 2 ^ (shift + 7))
        by (rewrite Hpow; nia).
      assert (Hms' : m / 128 * 2 ^ (shift + 7) < 2 ^ 32)
        by (rewrite Hpow; nia).
      destruct (IH s1 (m / 128) (acc + m mod 128 * 2 ^ shift) (shift + 7) rest
                  ltac:(lia) ltac:(lia) Hacc' Hq Hms' R1)
        as [s2 [E2 R2]].
      exists s2. split; auto. rewrite E2. rewrite Hpow.
      f_equal. f_equal. nia.
    + destruct (Z.ltb_spec 0 m) as [_|]; [|lia].
      rewrite land_127 in R. rewrite (Z.mod_small m 128) in R by lia.
      destruct (read_uint32_spec s m 8 _ ltac:(lia)
                  ltac:(change (2 ^ 8) with 256; lia) R) as [s1 [E1 R1]].
      rewrite E1. cbn [failed].
      rewrite land_128_small by lia. change (0 =? 0) with true. cbn [orb].
      rewrite land_127, (Z.mod_small m 128) by lia.
      rewrite u32_small by (rewrite Z.shiftl_mul_pow2 by lia; nia).
      rewrite lor_shiftl_add by lia.
      exists s1. split; auto.
Qed.

Lemma read_7bit_uint32_spec s n rest :
  0 < n < 2 ^ 32 ->
  reads s (vlq_bits 5 n ++ rest) ->
  exists s',
    bit_stream_read_7bit_uint32 s = (ERROR_ALL_GOOD, n, s') /\ reads s' rest.
Proof.
  intros Hn R. unfold bit_stream_read_7bit_uint32.
  destruct (read_7bit_loop_spec 5 s n 0 0 rest) as [s' [E R']]; auto;
    try (change (2 ^ 0) with 1; lia).
  exists s'. split; auto. rewrite E. change (2 ^ 0) with 1.
  f_equal. f_equal. lia.
Qed.

(** ** Match finder *)

Lemma byte_to_Z_inj a b : byte_to_Z a = byte_to_Z b -> a = b.
Proof.
  intros H. rewrite <- (byte_of_to_Z a), <- (byte_of_to_Z b), H. reflexivity.
Qed.

Lemma is_run_unique input o index L1 L2 :
  is_run input o index L1 -> is_run input o index L2 -> L1 = L2.
Proof.
  intros (H1 & H2 & H3 & H4) (G1 & G2 & G3 & G4).
  destruct (Z.lt_trichotomy L1 L2) as [Hlt|[Heq|Hgt]]; auto.
  - exfalso. apply H4; [lia|]. apply G3. lia.
  - exfalso. apply G4; [lia|]. apply H3. lia.
Qed.

Section Match.

Variable input : array_t.
Variable index : Z.
Hypothesis input_u32 : array_length input < 2 ^ 32.
Hypothesis index_ok : 0 <= index < array_length input.

Lemma match_run_spec fuel : forall o length,
  0 <= o < index -> 0 <= length ->
  index + length <= array_length input ->
  array_length input - (index + length) < Z.of_nat fuel ->
  (forall j, 0 <= j < length ->
     load (array_bytes input) (o + j) = load (array_bytes input) (index + j)) ->
  is_run input o index (match_run fuel input o index length).
Proof.
  induction fuel as [|f IH]; intros o length Ho Hl Hb Hf Heq; [lia|].
  cbn [match_run].
  rewrite (u32_small (o + length)), (u32_small (index + length)) by lia.
  destruct (Z.ltb_spec (o + length) (array_length input)) as [_|]; [|lia].
  cbn [andb].
  destruct (Z.ltb_spec (index + length) (array_length input)) as [Hin|Hend];
    cbn [andb].
  - destruct (Z.eqb_spec (load (array_bytes input) (o + length))
                (load (array_bytes input) (index + length))) as [Hsame|Hdiff].
    + rewrite u32_small by lia. apply IH; try lia.
      intros j Hj. destruct (Z.eq_dec j length) as [->|]; auto.
      apply Heq. lia.
    + repeat split; auto; lia.
  - repeat split; auto; lia.
Qed.

Lemma run_from_spec o :
  0 <= o < index -> is_run input o index (run_from input index o).
Proof.
  intros Ho. apply match_run_spec; try lia.
Qed.

Lemma match_scan_spec start fuel : forall o bo bl,
  0 <= start <= o -> o <= index ->
  index - o <= Z.of_nat fuel ->
  best_so_far input index start o bo bl ->
  best_so_far input index start index
    (fst (match_scan fuel input index o bo bl))
    (snd (match_scan fuel input index o bo bl)).
Proof.
  induction fuel as [|f IH]; intros o bo bl Hs Ho Hf Hinv.
  - cbn [match_scan fst snd]. replace o with index in Hinv by lia.
    exact Hinv.
  - cbn [match_scan].
    destruct (Z.ltb_spec o index) as [Hlt|Hge]; cbn [andb].
    2:{ cbn [fst snd]. replace o with index in Hinv by lia. exact Hinv. }
    destruct (Z.ltb_spec o (array_length input)) as [_|]; [|lia].
    fold (run_from input index o).
    pose proof (run_from_spec o ltac:(lia)) as (Hr0 & _).
    rewrite (u32_small (o + 1)) by lia.
    destruct (Z.geb_spec (run_from input index o) bl) as [Hbetter|Hworse].
    + apply IH; try lia. right. split; [lia|]. split; auto.
      intros c Hc. destruct (Z.eq_dec c o) as [->|Hne]; [lia|].
      destruct Hinv as [(-> & _ & _)|(Hbo & Hbl & Hall)]; [lia|].
      destruct (Hall c ltac:(lia)). lia.
    + destruct Hinv as [(_ & _ & ->)|(Hbo & Hbl & Hall)]; [lia|].
      apply IH; try lia. right. split; [lia|]. split; auto.
      intros c Hc. destruct (Z.eq_dec c o) as [->|Hne]; [lia|].
      apply Hall. lia.
Qed.

End Match.

Lemma config_init_invariant ob lb ml :
  0 <= ob -> 0 <= lb -> ob + lb <= 31 -> 1 <= ml <= 255 ->
  config_invariant (lzss_config_init ob lb ml).
Proof.
  intros Hob Hlb Hsum Hml. unfold config_invariant, lzss_config_init.
  cbn [offset_bits length_bits max_offset max_length minimum_length].
  rewrite !u8_small by lia. rewrite !Z.shiftl_1_l.
  assert (Hpo : 0 < 2 ^ ob <= 2 ^ 31)
    by (split; [apply Z.pow_pos_nonneg|apply Z.pow_le_mono_r]; lia).
  assert (Hpl : 0 < 2 ^ lb <= 2 ^ 31)
    by (split; [apply Z.pow_pos_nonneg|apply Z.pow_le_mono_r]; lia).
  change (2 ^ 31) with 2147483648 in *.
  rewrite !u32_small by (change (2 ^ 32) with 4294967296; lia).
  repeat split; lia.
Qed.

Lemma config_pow config :
  config_invariant config ->
  0 < 2 ^ offset_bits config <= 2 ^ 31
  /\ 0 < 2 ^ length_bits config <= 2 ^ 31.
Proof.
  intros (Hob & Hlb & Hsum & _).
  split; (split; [apply Z.pow_pos_nonneg|apply Z.pow_le_mono_r]; lia).
Qed.

(** What [__get_longest_match] returns past its guard. *)
Lemma get_longest_match_scan config input index :
  config_invariant config ->
  array_length input < 2 ^ 32 ->
  0 <= index < array_length input ->
  u32 (index + minimum_length config) < array_length input ->
  exists bo bl,
    best_so_far input index (window_start config index) index bo bl
    /\ __get_longest_match config input index
       = {| match_offset := u32 (index - bo);
            match_length := MIN bl (max_length config) |}.
Proof.
  intros Hc Hu Hi Hg. pose proof (config_pow config Hc) as [Hpo Hpl].
  destruct Hc as (Hob & Hlb & Hsum & Hmo & Hml & Hmin).
  unfold __get_longest_match.
  destruct (Z.geb_spec (u32 (index + minimum_length config))
              (array_length input)) as [|_]; [lia|].
  set (start := if max_offset config >? index then 0
                else u32 (index - max_offset config)).
  assert (Hstart : start = window_start config index).
  { unfold start, window_start.
    destruct (Z.gtb_spec (max_offset config) index); [lia|].
    rewrite u32_small by lia. lia. }
  rewrite Hstart.
  pose proof (match_scan_spec input index Hu Hi (window_start config index)
                (Z.to_nat index) (window_start config index) 0 0) as H.
  destruct (match_scan (Z.to_nat index) input index
              (window_start config index) 0 0) as [bo bl].
  exists bo, bl. split; auto. apply H; unfold window_start; try lia.
  left. auto.
Qed.

(** The part of it the encoder and the decoder rely on: a match of positive
    length points into the window and repeats the bytes at [index]. *)
Lemma get_longest_match_sound config input index :
  config_invariant config ->
  array_length input < 2 ^ 32 ->
  0 <= index < array_length input ->
  let m := __get_longest_match config input index in
  0 <= match_length m <= max_length config
  /\ (1 <= match_length m ->
      1 <= match_offset m <= index
      /\ match_offset m <= max_offset config
      /\ index + match_length m <= array_length input
      /\ forall j, 0 <= j < match_length m ->
           load (array_bytes input) (index - match_offset m + j)
           = load (array_bytes input) (index + j)).
Proof.
  intros Hc Hu Hi m. pose proof (config_pow config Hc) as [Hpo Hpl].
  destruct (Z.lt_ge_cases (u32 (index + minimum_length config))
              (array_length input)) as [Hg|Hg].
  - destruct (get_longest_match_scan config input index Hc Hu Hi Hg)
      as (bo & bl & Hbest & Hm).
    destruct Hc as (Hob & Hlb & Hsum & Hmo & Hml & Hmin).
    subst m. rewrite Hm. cbn [match_offset match_length]. unfold MIN.
    destruct Hbest as [(_ & -> & ->)|(Hbo & Hbl & _)].
    + destruct (Z.ltb_spec 0 (max_length config)); lia.
    + unfold window_start in Hbo.
      destruct (run_from_spec input index Hu Hi bo ltac:(lia))
        as (Hr0 & Hr1 & Hr2 & _).
      rewrite <- Hbl in *. rewrite u32_small by lia.
      replace (index - (index - bo)) with bo by lia.
      destruct (Z.ltb_spec bl (max_length config)).
      * split; [lia|]. intros _. repeat split; try lia. exact Hr2.
      * split; [lia|]. intros _. repeat split; try lia.
        intros j Hj. apply Hr2. lia.
  - subst m. unfold __get_longest_match.
    destruct (Z.geb_spec (u32 (index + minimum_length config))
                (array_length input)); [|lia].
    cbn [match_offset match_length].
    destruct Hc as (Hob & Hlb & Hsum & Hmo & Hml & Hmin). lia.
Qed.

(** ** The token stream *)

Section Encoder.

Variable config : lzss_config_t.
Variable input : array_t.
Hypothesis config_ok : config_invariant config.
Hypothesis input_u32 : array_length input < 2 ^ 32.

(** One round of the loop advances [index] and stays inside the input. *)
Lemma encode_step_index index :
  0 <= index < array_length input ->
  let m := __get_longest_match config input index in
  (minimum_length config <= match_length m ->
   index < u32 (index + match_length m) <= array_length input
   /\ u32 (index + match_length m) = index + match_length m)
  /\ u32 (index + 1) = index + 1.
Proof.
  intros Hi m.
  pose proof (get_longest_match_sound config input index config_ok
                input_u32 Hi) as [Hm0 Hm1].
  fold m in Hm0. fold m in Hm1.
  destruct config_ok as (_ & _ & _ & _ & _ & Hmin).
  split.
  - intros Hge. destruct (Hm1 ltac:(lia)) as (_ & _ & Hend & _).
    rewrite u32_small by lia. lia.
  - apply u32_small. lia.
Qed.

Lemma tokens_loop_fuel fuel1 : forall fuel2 index,
  0 <= index ->
  array_length input - index <= Z.of_nat fuel1 ->
  array_length input - index <= Z.of_nat fuel2 ->
  tokens_loop fuel1 config input index = tokens_loop fuel2 config input index.
Proof.
  induction fuel1 as [|f1 IH]; intros fuel2 index Hi H1 H2.
  - destruct fuel2; cbn [tokens_loop];
      destruct (Z.ltb_spec index (array_length input)); auto; lia.
  - destruct fuel2 as [|f2]; cbn [tokens_loop];
      destruct (Z.ltb_spec index (array_length input)) as [Hlt|]; auto;
      try lia.
    destruct (encode_step_index index ltac:(lia)) as [Hp Hl].
    destruct (Z.geb_spec (match_length (__get_longest_match config input index))
                (minimum_length config)) as [Hge|Hlt'].
    + destruct (Hp Hge) as [Hr Heq]. f_equal. apply IH; lia.
    + f_equal. rewrite Hl. apply IH; lia.
Qed.

Variable out : array_t.
Hypothesis out_ok : array_ok out.

(** The loop of the encoder on a stream in which no write has failed: it
    ends, and either every token is written or the capacity is smaller than
    the bits to write and the error is [ERROR_BUFFER_OUT_OF_BOUNDS]. *)
Lemma encode_loop_spec fuel : forall s bs index,
  0 <= index <= array_length input ->
  array_length input - index <= Z.of_nat fuel ->
  writes out s bs ->
  exists e s',
    encode_loop fuel config input s index = Some (e, s')
    /\ ((e = ERROR_ALL_GOOD
         /\ writes out s'
              (bs ++ tokens_bits config
                       (tokens_loop fuel config input index)))
        \/ (e = ERROR_BUFFER_OUT_OF_BOUNDS
            /\ 8 * array_length out
               < Z.of_nat (List.length bs)
                 + Z.of_nat (List.length
                     (tokens_bits config
                        (tokens_loop fuel config input index))))).
Proof.
  pose proof (config_pow config config_ok) as [Hpo Hpl].
  induction fuel as [|f IH]; intros s bs index Hi Hf W.
  - cbn [encode_loop tokens_loop].
    destruct (Z.ltb_spec index (array_length input)); [lia|].
    exists ERROR_ALL_GOOD, s. split; auto. left. split; auto.
    cbn. rewrite app_nil_r. exact W.
  - cbn [encode_loop tokens_loop].
    destruct (Z.ltb_spec index (array_length input)) as [Hlt|Hge].
    2:{ exists ERROR_ALL_GOOD, s. split; auto. left. split; auto.
        cbn. rewrite app_nil_r. exact W. }
    destruct (encode_step_index index ltac:(lia)) as [Hp Hl].
    set (m := __get_longest_match config input index) in *.
    destruct config_ok as (Hob & Hlb & Hsum & Hmo & Hml & Hmin).
    unfold tokens_bits. cbn [flat_map].
    fold (tokens_bits config).
    destruct (Z.geb_spec (match_length m) (minimum_length config))
      as [Hpair|Hlit].
    + destruct (Hp Hpair) as [Hr Heq].
      change (bit_stream_write_bit s 1)
        with (bit_stream_write_bit s (Z.b2z true)).
      destruct (bit_stream_write_bit s (Z.b2z true)) as [e1 s1] eqn:E1.
      cbn [flat_map token_bits]. rewrite !length_app. cbn [List.length].
      rewrite !length_app, !low_bits_length.
      destruct (write_bit_spec out out_ok _ _ _ _ _ W E1) as [[-> W1]|[-> Hc]];
        cbn [failed].
      2:{ exists ERROR_BUFFER_OUT_OF_BOUNDS, s1. split; auto. right.
          split; auto. lia. }
      destruct (bit_stream_write_uint32 s1 (match_offset m)
                  (offset_bits config)) as [e2 s2] eqn:E2.
      destruct (write_uint32_spec out out_ok _ _ _ (offset_bits config) _ _
                  ltac:(lia) W1 E2) as [[-> W2]|[-> Hc]]; cbn [failed].
      2:{ exists ERROR_BUFFER_OUT_OF_BOUNDS, s2. split; auto. right.
          split; auto. rewrite length_app in Hc. cbn [List.length] in Hc.
          lia. }
      destruct (bit_stream_write_uint32 s2 (match_length m)
                  (length_bits config)) as [e3 s3] eqn:E3.
      destruct (write_uint32_spec out out_ok _ _ _ (length_bits config) _ _
                  ltac:(lia) W2 E3) as [[-> W3]|[-> Hc]]; cbn [failed].
      2:{ exists ERROR_BUFFER_OUT_OF_BOUNDS, s3. split; auto. right.
          split; auto.
          rewrite !length_app, low_bits_length in Hc.
          cbn [List.length] in Hc. lia. }
      destruct (IH s3 _ (u32 (index + match_length m)) ltac:(lia) ltac:(lia)
                  W3) as (e & s' & E & Hres).
      exists e, s'. split; auto.
      destruct Hres as [[-> W4]|[-> Hc]].
      * left. split; auto.
        rewrite <- !app_assoc in W4. cbn [app] in W4.
        rewrite <- app_comm_cons, <- app_assoc. exact W4.
      * right. split; auto. unfold tokens_bits in *.
        rewrite !length_app, !low_bits_length in Hc.
        cbn [List.length] in Hc. lia.
    + change (bit_stream_write_bit s 0)
        with (bit_stream_write_bit s (Z.b2z false)).
      destruct (bit_stream_write_bit s (Z.b2z false)) as [e1 s1] eqn:E1.
      cbn [flat_map token_bits]. rewrite !length_app. cbn [List.length].
      rewrite !low_bits_length.
      destruct (write_bit_spec out out_ok _ _ _ _ _ W E1) as [[-> W1]|[-> Hc]];
        cbn [failed].
      2:{ exists ERROR_BUFFER_OUT_OF_BOUNDS, s1. split; auto. right.
          split; auto. lia. }
      destruct (bit_stream_write_uint32 s1 (load (array_bytes input) index) 8)
        as [e2 s2] eqn:E2.
      destruct (write_uint32_spec out out_ok _ _ _ 8 _ _
                  ltac:(lia) W1 E2) as [[-> W2]|[-> Hc]]; cbn [failed].
      2:{ exists ERROR_BUFFER_OUT_OF_BOUNDS, s2. split; auto. right.
          split; auto. rewrite length_app in Hc. cbn [List.length] in Hc.
          lia. }
      destruct (IH s2 _ (u32 (index + 1)) ltac:(lia) ltac:(lia) W2)
        as (e & s' & E & Hres).
      exists e, s'. split; auto.
      destruct Hres as [[-> W4]|[-> Hc]].
      * left. split; auto.
        rewrite <- !app_assoc in W4. exact W4.
      * right. split; auto. unfold tokens_bits in *.
        rewrite !length_app, !low_bits_length in Hc.
        cbn [List.length] in Hc. lia.
Qed.

End Encoder.

(** ** Decoding what the encoder wrote *)

Lemma firstn_nth_eq (l1 l2 : list byte) k : forall n d,
  firstn k l1 = firstn k l2 -> (n < k)%nat -> nth n l1 d = nth n l2 d.
Proof.
  revert l1 l2. induction k as [|k IH]; intros l1 l2 n d H Hn; [lia|].
  destruct l1 as [|a l1], l2 as [|b l2]; simpl in H; try discriminate; auto.
  injection H as -> H. destruct n as [|n]; simpl; auto.
  apply IH; auto. lia.
Qed.

Lemma land_255 v : Z.land v 255 = v mod 256.
Proof. change 255 with (Z.ones 8). rewrite Z.land_ones by lia. reflexivity. Qed.

Lemma allocated_true l i :
  0 <= i < Z.of_nat (List.length l) -> allocated l i = true.
Proof.
  intros H. unfold allocated.
  destruct (Z.leb_spec 0 i); [|lia].
  destruct (Z.ltb_spec i (Z.of_nat (List.length l))); [|lia]. reflexivity.
Qed.

Section Decoder.

Variable config : lzss_config_t.
Variable input : array_t.
Hypothesis config_ok : config_invariant config.
Hypothesis input_ok : array_ok input.

(** The copy of a pair token whose source repeats the input at [index]:
    byte [i] is copied after the bytes before it, so a source that overlaps
    the destination reads bytes this very loop has written. *)
Lemma copy_loop_spec index offset L todo : forall bytes i,
  1 <= offset <= index ->
  index + L <= array_length input ->
  array_length input <= Z.of_nat (List.length bytes) ->
  (forall j, 0 <= j < L ->
     load (array_bytes input) (index - offset + j)
     = load (array_bytes input) (index + j)) ->
  0 <= i -> i + Z.of_nat todo = L ->
  firstn (Z.to_nat (index + i)) bytes
  = firstn (Z.to_nat (index + i)) (array_bytes input) ->
  exists bytes',
    copy_loop todo bytes index offset i = Some bytes'
    /\ List.length bytes' = List.length bytes
    /\ firstn (Z.to_nat (index + L)) bytes'
       = firstn (Z.to_nat (index + L)) (array_bytes input).
Proof.
  destruct input_ok as [Hin1 Hin2].
  induction todo as [|t IH]; intros bytes i Ho HL Hal Hrun Hi Ht Hpre.
  - exists bytes. cbn [copy_loop]. replace L with i by lia. auto.
  - cbn [copy_loop].
    rewrite (u32_small (index + i)), (u32_small (index - offset)),
      (u32_small (index - offset + i)), (u32_small (i + 1)) by lia.
    rewrite !allocated_true by lia. cbn [andb].
    assert (Hsrc : load bytes (index - offset + i)
                   = load (array_bytes input) (index + i)).
    { rewrite <- Hrun by lia. unfold load. f_equal.
      apply firstn_nth_eq with (k := Z.to_nat (index + i)); auto. lia. }
    rewrite Hsrc.
    destruct (IH (store bytes (index + i)
                    (load (array_bytes input) (index + i))) (i + 1))
      as (bytes' & C1 & C2 & C3); auto; try lia.
    + rewrite store_length. exact Hal.
    + replace (Z.to_nat (index + (i + 1))) with (S (Z.to_nat (index + i)))
        by lia.
      unfold store, load. rewrite byte_of_to_Z.
      rewrite firstn_store_nat_at by lia.
      rewrite (firstn_snoc_nth (array_bytes input) _ x00) by lia.
      rewrite Hpre. reflexivity.
    + exists bytes'. split; auto. split; auto.
      rewrite C2. apply store_length.
Qed.

(** The decoder loop over the bits of the encoder's tokens rebuilds the
    input. *)
Lemma decode_loop_tokens fuel : forall index s output dfuel rest,
  0 <= index <= array_length input ->
  array_length input - index <= Z.of_nat fuel ->
  reads s (tokens_bits config (tokens_loop fuel config input index) ++ rest) ->
  array_length output = array_length input ->
  array_length input <= Z.of_nat (List.length (array_bytes output)) ->
  firstn (Z.to_nat index) (array_bytes output)
  = firstn (Z.to_nat index) (array_bytes input) ->
  (List.length (tokens_loop fuel config input index) <= dfuel)%nat ->
  exists bytes',
    decode_loop dfuel config s output index
    = Decoded ERROR_ALL_GOOD
        {| array_bytes := bytes'; array_length := array_length input |}
    /\ List.length bytes' = List.length (array_bytes output)
    /\ firstn (Z.to_nat (array_length input)) bytes'
       = firstn (Z.to_nat (array_length input)) (array_bytes input).
Proof.
  pose proof (config_pow config config_ok) as [Hpo Hpl].
  destruct input_ok as [Hin1 Hin2].
  induction fuel as [|f IH];
    intros index s output dfuel rest Hi Hf R Hlen Hal Hpre Hdf.
  - assert (index = array_length input) by lia. subst index.
    destruct dfuel; cbn [decode_loop]; rewrite Hlen;
      rewrite Z.ltb_irrefl; exists (array_bytes output);
      (split; [destruct output; cbn in *; subst; reflexivity|auto]).
  - cbn [tokens_loop] in R, Hdf.
    destruct (Z.ltb_spec index (array_length input)) as [Hlt|Hge].
    2:{ assert (index = array_length input) by lia. subst index.
        destruct dfuel; cbn [decode_loop]; rewrite Hlen;
          rewrite Z.ltb_irrefl; exists (array_bytes output);
          (split; [destruct output; cbn in *; subst; reflexivity|auto]). }
    destruct (encode_step_index config input config_ok Hin2 index
                ltac:(lia)) as [Hp Hl].
    pose proof (get_longest_match_sound config input index config_ok Hin2
                  ltac:(lia)) as [Hm0 Hm1].
    set (m := __get_longest_match config input index) in *.
    destruct config_ok as (Hob & Hlb & Hsum & Hmo & Hml & Hmin).
    destruct (Z.geb_spec (match_length m) (minimum_length config))
      as [Hpair|Hlit].
    + destruct (Hp Hpair) as [Hr Heq].
      destruct (Hm1 ltac:(lia)) as (Hoff & Hoffmax & Hend & Hrun).
      destruct dfuel as [|df]; [cbn [List.length] in Hdf; lia|].
      cbn [List.length] in Hdf.
      unfold tokens_bits in R. cbn [flat_map token_bits] in R.
      fold (tokens_bits config) in R.
      rewrite <- !app_assoc in R. rewrite <- app_comm_cons in R.
      rewrite <- !app_assoc in R.
      destruct (read_bit_spec _ _ _ R) as (s1 & E1 & R1).
      destruct (read_uint32_spec s1 (match_offset m) (offset_bits config) _
                  ltac:(lia) ltac:(lia) R1) as (s2 & E2 & R2).
      destruct (read_uint32_spec s2 (match_length m) (length_bits config) _
                  ltac:(lia) ltac:(lia) R2) as (s3 & E3 & R3).
      destruct (copy_loop_spec index (match_offset m) (match_length m)
                  (Z.to_nat (match_length m)) (array_bytes output) 0
                  ltac:(lia) Hend Hal Hrun ltac:(lia) ltac:(lia))
        as (bytes1 & C1 & C2 & C3).
      { rewrite Z.add_0_r. exact Hpre. }
      cbn [decode_loop]. rewrite Hlen.
      destruct (Z.ltb_spec index (array_length input)); [|lia].
      rewrite E1. cbn [failed Z.b2z]. change (negb (1 =? 0)) with true.
      cbv iota. rewrite E2. cbn [failed]. rewrite E3. cbn [failed].
      rewrite C1.
      destruct (IH (u32 (index + match_length m)) s3
                  {| array_bytes := bytes1;
                     array_length := array_length input |} df rest)
        as (bytes' & D1 & D2 & D3);
        cbn [array_bytes array_length]; auto; try lia.
      * rewrite Heq. exact C3.
      * exists bytes'. split; auto. split; auto.
        cbn [array_bytes] in D2. lia.
    + destruct dfuel as [|df]; [cbn [List.length] in Hdf; lia|].
      cbn [List.length] in Hdf.
      unfold tokens_bits in R. cbn [flat_map token_bits] in R.
      fold (tokens_bits config) in R.
      rewrite <- !app_assoc in R. rewrite <- app_comm_cons in R.
      rewrite <- ?app_assoc in R.
      destruct (read_bit_spec _ _ _ R) as (s1 & E1 & R1).
      pose proof (load_range (array_bytes input) index) as Hb.
      destruct (read_uint32_spec s1 (load (array_bytes input) index) 8 _
                  ltac:(lia) ltac:(change (2 ^ 8) with 256; lia) R1)
        as (s2 & E2 & R2).
      cbn [decode_loop]. rewrite Hlen.
      destruct (Z.ltb_spec index (array_length input)); [|lia].
      rewrite E1. cbn [failed Z.b2z]. change (negb (0 =? 0)) with false.
      cbv iota. rewrite E2. cbn [failed].
      rewrite allocated_true by lia.
      rewrite land_255, Z.mod_small by lia.
      destruct (IH (u32 (index + 1)) s2
                  {| array_bytes :=
                       store (array_bytes output) index
                         (load (array_bytes input) index);
                     array_length := array_length input |} df rest)
        as (bytes' & D1 & D2 & D3);
        cbn [array_bytes array_length]; auto; try lia.
      * rewrite store_length. exact Hal.
      * rewrite Hl.
        replace (Z.to_nat (index + 1)) with (S (Z.to_nat index)) by lia.
        unfold store, load. rewrite byte_of_to_Z.
        rewrite firstn_store_nat_at by lia.
        rewrite (firstn_snoc_nth (array_bytes input) _ x00) by lia.
        rewrite Hpre. reflexivity.
      * exists bytes'. split; auto. split; auto.
        cbn [array_bytes] in D2. rewrite store_length in D2. exact D2.
Qed.

End Decoder.

(** ** Encoder and decoder as a whole *)

Lemma vlq_bits_nonempty fuel n :
  0 < n -> (8 <= List.length (vlq_bits (S fuel) n))%nat.
Proof.
  intros Hn. cbn [vlq_bits]. destruct (127 <? n).
  - rewrite length_app, low_bits_length. lia.
  - destruct (Z.ltb_spec 0 n); [|lia]. rewrite low_bits_length. lia.
Qed.

Lemma tokens_bits_length config ts :
  (List.length ts <= List.length (tokens_bits config ts))%nat.
Proof.
  induction ts as [|t ts IH]; auto. unfold tokens_bits in *.
  cbn [flat_map List.length]. rewrite length_app.
  destruct t; cbn [token_bits List.length]; lia.
Qed.

(** The outcomes of [lzss_encode] on an output that can hold the header
    (5 bytes hold any): the call returns; it succeeds when the capacity holds
    the wire bits, and then the logical length of the output is the stream
    position and its bytes are the wire bits padded with zeros; otherwise it
    fails with [ERROR_BUFFER_OUT_OF_BOUNDS] and length 0. *)
Lemma lzss_encode_spec config input out :
  config_invariant config ->
  array_length input < 2 ^ 32 -> 0 < array_length input ->
  array_ok out -> 5 <= array_length out ->
  exists e enc,
    lzss_encode config input out = Some (e, enc)
    /\ ((e = ERROR_ALL_GOOD
         /\ List.length (array_bytes enc) = List.length (array_bytes out)
         /\ 0 < array_length enc <= array_length out
         /\ Z.of_nat (List.length (wire_bits config input))
            <= 8 * array_length enc
         /\ exists pad,
              bits_of_bytes
                (firstn (Z.to_nat (array_length enc)) (array_bytes enc))
              = wire_bits config input ++ repeat false pad)
        \/ (e = ERROR_BUFFER_OUT_OF_BOUNDS
            /\ array_length enc = 0
            /\ 8 * array_length out
               < Z.of_nat (List.length (wire_bits config input)))).
Proof.
  intros Hc Hu Hn Hout Hcap. unfold lzss_encode, wire_bits, lzss_tokens.
  destruct (Z.eqb_spec (array_length input) 0); [lia|].
  destruct (bit_stream_write_7bit_uint32 (bit_stream_init out)
              (array_length input)) as [e1 s1] eqn:E1.
  pose proof (vlq_bits_length 5 (array_length input)) as Hvl.
  pose proof (vlq_bits_nonempty 4 (array_length input) Hn) as Hvn.
  assert (Hn' : 0 < array_length input < 2 ^ 32) by lia.
  destruct (write_7bit_uint32_spec out Hout _ _ _ _ _ Hn'
              (writes_init out Hout) E1) as [[-> W1]|Hbad].
  2:{ cbn [List.length] in Hbad. lia. }
  cbn [failed app] in *.
  assert (Hfuel : array_length input - 0
                  <= Z.of_nat (encode_fuel input out)).
  { unfold encode_fuel. lia. }
  destruct (encode_loop_spec config input Hc Hu out Hout
              (encode_fuel input out) s1 _ 0 ltac:(lia) Hfuel W1)
    as (e2 & s2 & E2 & Hres).
  rewrite E2.
  rewrite (tokens_loop_fuel config input Hc Hu (encode_fuel input out)
             (Z.to_nat (array_length input)) 0) in Hres by lia.
  destruct Hres as [[-> W2]|[-> Hc2]]; cbn [failed].
  2:{ do 2 eexists. split; [reflexivity|]. cbn [array_bytes array_length].
      right. rewrite length_app. repeat split; auto. lia. }
  destruct (bit_stream_flush s2) as [e3 s3] eqn:E3.
  destruct (flush_spec out Hout _ _ _ _ W2 E3)
    as [(-> & (pad & W3) & Hz)|[-> Hc3]]; cbn [failed].
  - do 2 eexists. split; [reflexivity|]. cbn [array_bytes array_length].
    pose proof (writes_length out s3 _ Hout W3) as HL.
    destruct W3 as [Wl Wa Wc Wp Wb]. rewrite Hz in *.
    cbn [low_bits Z.to_nat] in Wb. rewrite app_nil_r in Wb.
    rewrite !length_app, repeat_length in HL.
    left. split; auto. split; auto. rewrite length_app.
    split; [lia|]. split; [lia|]. exists pad. auto.
  - do 2 eexists. split; [reflexivity|]. cbn [array_bytes array_length].
    right. auto.
Qed.

(** Decoding what [lzss_encode] produced gives the input back, in an output
    of the input's length. *)
Lemma roundtrip_core config input out enc output :
  config_invariant config ->
  array_ok input -> 0 < array_length input ->
  array_ok out -> 5 <= array_length out ->
  lzss_encode config input out = Some (ERROR_ALL_GOOD, enc) ->
  array_length output = array_length input ->
  array_length input <= Z.of_nat (List.length (array_bytes output)) ->
  exists bytes',
    lzss_decode config enc output
    = Decoded ERROR_ALL_GOOD
        {| array_bytes := bytes'; array_length := array_length input |}
    /\ List.length bytes' = List.length (array_bytes output)
    /\ firstn (Z.to_nat (array_length input)) bytes'
       = firstn (Z.to_nat (array_length input)) (array_bytes input).
Proof.
  intros Hc Hin Hn Hout Hcap E Hlen Hal.
  pose proof Hin as [Hin1 Hin2]. pose proof Hout as [Hout1 Hout2].
  destruct (lzss_encode_spec config input out Hc Hin2 Hn Hout Hcap)
    as (e & enc0 & E0 & Hres).
  rewrite E in E0. injection E0 as <- <-.
  destruct Hres as [(_ & Ha & Hpos & Hfit & pad & Hbits)|(Hbad & _)];
    [|discriminate].
  assert (Henc : array_ok enc) by (unfold array_ok; lia).
  pose proof (reads_init enc Henc) as R. rewrite Hbits in R.
  unfold wire_bits in R. rewrite <- app_assoc in R.
  assert (Hn' : 0 < array_length input < 2 ^ 32) by lia.
  destruct (read_7bit_uint32_spec _ _ _ Hn' R) as (s1 & E1 & R1).
  unfold lzss_decode.
  destruct (Z.eqb_spec (array_length enc) 0); [lia|].
  destruct (Z.eqb_spec (array_length output) 0); [lia|].
  cbn [orb]. rewrite E1. cbn [failed].
  rewrite Hlen, Z.eqb_refl. cbn [negb].
  unfold lzss_tokens in R1.
  apply (decode_loop_tokens config input Hc Hin
           (Z.to_nat (array_length input)) 0 s1 output (decode_fuel enc)
           (repeat false pad)); auto; try lia.
  pose proof (tokens_bits_length config
                (tokens_loop (Z.to_nat (array_length input)) config input 0)).
  unfold wire_bits, lzss_tokens in Hfit. rewrite length_app in Hfit.
  unfold decode_fuel. lia.
Qed.

(** ** The loops end *)



Lemma read_bit_bits_left s :
  reader_ok s ->
  reader_ok (snd (bit_stream_read_bit s))
  /\ (if failed (fst (fst (bit_stream_read_bit s)))
      then bits_left (snd (bit_stream_read_bit s)) = bits_left s
      else bits_left (snd (bit_stream_read_bit s)) = bits_left s - 1).
Proof.
  intros (Hc & Hp & Hu). unfold bit_stream_read_bit, bit_stream_unflush.
  destruct (Z.eqb_spec (bit_count s) 0) as [H0|H0].
  - destruct (Z.ltb_spec (buffer_position s) (buffer_length s));
      unfold reader_ok, bits_left; stream_fields.
    + rewrite u8_small, u32_small by lia. lia.
    + lia.
  - unfold reader_ok, bits_left; stream_fields.
    rewrite u8_small by lia. lia.
Qed.

Lemma read_uint32_loop_bits_left n : forall s value,
  reader_ok s ->
  reader_ok (snd (read_uint32_loop n s value))
  /\ bits_left (snd (read_uint32_loop n s value)) <= bits_left s.
Proof.
  induction n as [|k IH]; intros s value H; cbn [read_uint32_loop].
  - stream_fields. split; auto. lia.
  - pose proof (read_bit_bits_left s H) as [R1 R2].
    destruct (bit_stream_read_bit s) as [[e1 b1] s1]. stream_fields.
    destruct (failed e1); [stream_fields; split; auto; lia|].
    destruct (IH s1 (Z.lor (u32 (Z.shiftl value 1)) (Z.land b1 1)) R1).
    split; auto. lia.
Qed.




(** ** Where the departures end *)

(** The 7-bit quantity of a positive value takes one byte per 7 bits of the
    value. *)
Lemma vlq_bits_count fuel : forall v,
  0 < v < 2 ^ (7 * Z.of_nat fuel) ->
  Z.of_nat (List.length (vlq_bits fuel v)) = 8 * (Z.log2 v / 7 + 1).
Proof.
  induction fuel as [|f IH]; intros v Hv.
  - change (2 ^ (7 * Z.of_nat 0)) with 1 in Hv. lia.
  - cbn [vlq_bits]. pose proof (Z.log2_nonneg v) as Hl0.
    destruct (Z.ltb_spec 127 v) as [Hbig|Hsmall].
    + rewrite length_app, low_bits_length.
      assert (Hn' : 0 < Z.shiftr v 7 < 2 ^ (7 * Z.of_nat f)).
      { rewrite Z.shiftr_div_pow2 by lia. change (2 ^ 7) with 128.
        replace (7 * Z.of_nat (S f)) with (7 + 7 * Z.of_nat f) in Hv by lia.
        rewrite Z.pow_add_r in Hv by lia. change (2 ^ 7) with 128 in Hv.
        split.
        - apply Z.div_str_pos. lia.
        - apply Z.div_lt_upper_bound; lia. }
      rewrite Nat2Z.inj_add, (IH _ Hn').
      rewrite Z.log2_shiftr by lia.
      assert (H7 : 7 <= Z.log2 v).
      { apply Z.log2_le_pow2; [lia|]. change (2 ^ 7) with 128. lia. }
      rewrite Z.max_r by lia.
      replace (Z.log2 v) with (Z.log2 v - 7 + 1 * 7) at 2 by lia.
      rewrite Z.div_add by lia. lia.
    + destruct (Z.ltb_spec 0 v); [|lia]. rewrite low_bits_length.
      assert (H7 : Z.log2 v < 7).
      { apply Z.log2_lt_pow2; [lia|]. change (2 ^ 7) with 128. lia. }
      rewrite Z.div_small by lia. lia.
Qed.

(** For every value from 1 to [2 ^ 32 - 1], on a fresh stream over a buffer
    of at least 5 bytes: the writer emits [ceil (bit_length v / 7)] bytes
    and ends byte-aligned, and a reader over those bytes returns [v]. *)
Lemma vlq_round_trip out v :
  array_ok out -> 5 <= array_length out ->
  0 < v < 2 ^ 32 ->
  exists s,
    bit_stream_write_7bit_uint32 (bit_stream_init out) v
    = (ERROR_ALL_GOOD, s)
    /\ bit_count s = 0
    /\ buffer_position s = (Z.log2 v + 1 + 6) / 7
    /\ exists s',
         bit_stream_read_7bit_uint32
           (bit_stream_init
              {| array_bytes := buffer s;
                 array_length := buffer_position s |})
         = (ERROR_ALL_GOOD, v, s').
Proof.
  intros Hout Hcap Hv.
  destruct (bit_stream_write_7bit_uint32 (bit_stream_init out) v)
    as [e s] eqn:E.
  pose proof (vlq_bits_length 5 v) as Hvl.
  assert (Hv' : 0 < v < 2 ^ (7 * Z.of_nat 5)).
  { change (2 ^ (7 * Z.of_nat 5)) with (2 ^ 32 * 8). lia. }
  pose proof (vlq_bits_count 5 v Hv') as Hcount.
  destruct (write_7bit_uint32_spec out Hout _ _ _ _ _ Hv
              (writes_init out Hout) E) as [[-> W]|Hbad].
  2:{ cbn [List.length] in Hbad. lia. }
  cbn [app] in W.
  pose proof (writes_length out s _ Hout W) as HL.
  pose proof W as [Wl Wa Wc Wp Wb]. destruct Hout as [Ho1 Ho2].
  assert (Hbc : bit_count s = 0) by lia.
  assert (Hpos : buffer_position s = Z.log2 v / 7 + 1) by lia.
  exists s. split; auto. split; auto. split.
  - rewrite Hpos. replace (Z.log2 v + 1 + 6) with (Z.log2 v + 1 * 7) by lia.
    rewrite Z.div_add by lia. reflexivity.
  - rewrite Hbc in Wb. cbn [Z.to_nat low_bits] in Wb.
    rewrite app_nil_r in Wb.
    assert (Hok : array_ok {| array_bytes := buffer s;
                              array_length := buffer_position s |})
      by (unfold array_ok; cbn [array_bytes array_length]; lia).
    pose proof (reads_init _ Hok) as R.
    cbn [array_bytes array_length] in R. rewrite <- Wb in R.
    rewrite <- (app_nil_r (vlq_bits 5 v)) in R.
    destruct (read_7bit_uint32_spec _ _ _ Hv R) as (s' & E' & _).
    exists s'. exact E'.
Qed.

(** The tokens cost at most 9 bits per input byte when a pair costs no more
    than the literals of [minimum_length] bytes. *)
Lemma tokens_bits_bound config input fuel : forall index,
  config_invariant config ->
  array_length input < 2 ^ 32 ->
  1 + offset_bits config + length_bits config <= 9 * minimum_length config ->
  0 <= index <= array_length input ->
  Z.of_nat (List.length (tokens_bits config
                           (tokens_loop fuel config input index)))
  <= 9 * (array_length input - index).
Proof.
  induction fuel as [|f IH]; intros index Hc Hu Hcost Hi; cbn [tokens_loop].
  - destruct (index <? array_length input);
      unfold tokens_bits; cbn [flat_map List.length]; lia.
  - destruct (Z.ltb_spec index (array_length input)) as [Hlt|];
      [|unfold tokens_bits; cbn [flat_map List.length]; lia].
    destruct (encode_step_index config input Hc Hu index ltac:(lia))
      as [Hp Hl].
    set (m := __get_longest_match config input index) in *.
    pose proof Hc as (Hob & Hlb & Hsum & Hmo & Hml & Hmin).
    destruct (Z.geb_spec (match_length m) (minimum_length config))
      as [Hpair|Hlit];
      unfold tokens_bits; cbn [flat_map]; fold (tokens_bits config);
      rewrite length_app.
    + destruct (Hp Hpair) as [Hr Heq].
      specialize (IH (u32 (index + match_length m)) Hc Hu Hcost ltac:(lia)).
      cbn [token_bits List.length]. unfold tokens_bits in *.
      rewrite length_app, !low_bits_length. lia.
    + specialize (IH (u32 (index + 1)) Hc Hu Hcost ltac:(lia)).
      cbn [token_bits List.length]. unfold tokens_bits in *.
      rewrite low_bits_length. lia.
Qed.

Lemma upper_bound_bits n :
  0 <= n -> 32 + n * 9 < 2 ^ 32 ->
  32 + n * 9 <= 8 * lzss_get_upper_bound n
  /\ lzss_get_upper_bound n < 2 ^ 32.
Proof.
  intros Hn Hb. unfold lzss_get_upper_bound.
  rewrite (u32_small (32 + n * 9)) by lia.
  pose proof (Z.div_mod (32 + n * 9) 8 ltac:(lia)) as Hdm.
  pose proof (Z.mod_pos_bound (32 + n * 9) 8 ltac:(lia)) as Hm.
  change (2 ^ 32) with 4294967296 in *.
  assert (Hq : 0 <= (32 + n * 9) / 8 < 536870912).
  { split; [apply Z.div_pos; lia|apply Z.div_lt_upper_bound; lia]. }
  destruct (Z.ltb_spec 0 ((32 + n * 9) mod 8));
    rewrite u32_small by (change (2 ^ 32) with 4294967296; lia); lia.
Qed.

(** The upper bound suffices for inputs shorter than [2 ^ 28]
    bytes (a header of at most four groups) and configurations in which a
    pair costs no more than the literals it replaces, the demonstration
    configuration among them. *)
Lemma upper_bound_sufficient config input :
  config_invariant config ->
  1 + offset_bits config + length_bits config <= 9 * minimum_length config ->
  0 < array_length input < 2 ^ 28 ->
  exists enc,
    encode_in_upper_bound config input = Some (ERROR_ALL_GOOD, enc)
    /\ 0 < array_length enc <= lzss_get_upper_bound (array_length input).
Proof.
  intros Hc Hcost Hn. unfold encode_in_upper_bound.
  change (2 ^ 28) with 268435456 in Hn.
  assert (Hu : array_length input < 2 ^ 32)
    by (change (2 ^ 32) with 4294967296; lia).
  destruct (upper_bound_bits (array_length input)) as [Hub1 Hub2];
    try (change (2 ^ 32) with 4294967296; lia).
  set (ub := lzss_get_upper_bound (array_length input)) in *.
  assert (Hzo : array_ok (zeroed ub)).
  { unfold array_ok, zeroed. cbn [array_bytes array_length].
    rewrite repeat_length. lia. }
  destruct (lzss_encode_spec config input (zeroed ub) Hc Hu ltac:(lia) Hzo
              ltac:(cbn [zeroed array_length]; lia))
    as (e & enc & E & [(-> & _ & Hpos & _)|(_ & _ & Hbad)]).
  - exists enc. split; auto.
  - exfalso. cbn [zeroed array_length] in Hbad.
    unfold wire_bits, lzss_tokens in Hbad. rewrite length_app in Hbad.
    pose proof (tokens_bits_bound config input
                  (Z.to_nat (array_length input)) 0 Hc Hu Hcost
                  ltac:(lia)) as Ht.
    assert (Hv' : 0 < array_length input < 2 ^ (7 * Z.of_nat 5)).
    { change (2 ^ (7 * Z.of_nat 5)) with 34359738368. lia. }
    pose proof (vlq_bits_count 5 (array_length input) Hv') as Hcount.
    assert (Hlog : Z.log2 (array_length input) < 28).
    { apply Z.log2_lt_pow2; [lia|]. change (2 ^ 28) with 268435456. lia. }
    pose proof (Z.log2_nonneg (array_length input)) as Hl0.
    assert (Hd : Z.log2 (array_length input) / 7 <= 3).
    { apply Z.lt_succ_r. apply Z.div_lt_upper_bound; lia. }
    lia.
Qed.

(** * The claims *)

Lemma array_of_ok l :
  Z.of_nat (List.length l) < 2 ^ 32 -> array_ok (array_of l).
Proof. intros H. unfold array_ok, array_of. cbn. lia. Qed.

Lemma firstn_all_eq (l1 l2 : list byte) :
  List.length l1 = List.length l2 ->
  firstn (List.length l2) l1 = firstn (List.length l2) l2 -> l1 = l2.
Proof.
  intros H E. rewrite firstn_all in E. rewrite <- H in E.
  rewrite firstn_all in E. exact E.
Qed.

(** C1 (round trip).  For a configuration satisfying the invariant and a
    byte buffer [B] (its length a [uint32_t]), with an output that can hold
    the length header (5 bytes hold any; the driver allocates
    [lzss_get_upper_bound]): an empty [B] makes [lzss_encode] return
    [ERROR_NO_OP] with the output untouched; for a non-empty [B], whatever
    [lzss_encode] produced decodes, with the same configuration and into an
    output of [B]'s length, to exactly [B]; and [lzss_encode] does produce it
    whenever the capacity holds the wire bits. *)
Theorem lzss_round_trip config (B out dst : list byte) :
  config_invariant config ->
  Z.of_nat (List.length B) < 2 ^ 32 ->
  5 <= Z.of_nat (List.length out) < 2 ^ 32 ->
  List.length dst = List.length B ->
  (B = [] ->
   lzss_encode config (array_of B) (array_of out)
   = Some (ERROR_NO_OP, array_of out))
  /\ (B <> [] ->
      forall enc,
        lzss_encode config (array_of B) (array_of out)
        = Some (ERROR_ALL_GOOD, enc) ->
        lzss_decode config enc (array_of dst)
        = Decoded ERROR_ALL_GOOD (array_of B))
  /\ (B <> [] ->
      Z.of_nat (List.length (wire_bits config (array_of B)))
      <= 8 * Z.of_nat (List.length out) ->
      exists enc,
        lzss_encode config (array_of B) (array_of out)
        = Some (ERROR_ALL_GOOD, enc)).
Proof.
  intros Hc HB Hout Hdst.
  assert (Hne : B <> [] -> 0 < array_length (array_of B)).
  { intros H. destruct B; [congruence|]. cbn. lia. }
  split; [|split].
  - intros ->. reflexivity.
  - intros HB0 enc E.
    destruct (roundtrip_core config (array_of B) (array_of out) enc
                (array_of dst) Hc (array_of_ok B HB) (Hne HB0)
                (array_of_ok out ltac:(lia)) ltac:(cbn; lia) E)
      as (bytes' & D1 & D2 & D3).
    + cbn. lia.
    + cbn. lia.
    + rewrite D1. cbn [array_of array_bytes array_length] in *.
      rewrite Nat2Z.id in D3.
      assert (bytes' = B) by (apply firstn_all_eq; auto; lia).
      subst bytes'. reflexivity.
  - intros HB0 Hfit.
    destruct (lzss_encode_spec config (array_of B) (array_of out) Hc
                ltac:(cbn; lia) (Hne HB0) (array_of_ok out ltac:(lia))
                ltac:(cbn; lia))
      as (e & enc & E & [(-> & _)|(_ & _ & Hbad)]).
    + exists enc. exact E.
    + cbn [array_of array_length] in Hbad. lia.
Qed.

Lemma demo_config_invariant : config_invariant demo_config.
Proof. apply config_init_invariant; lia. Qed.

Lemma lzss_round_trip_witness :
  lzss_decode demo_config
    {| array_bytes := [x0a; x20; xc0; x12; x40] ++ repeat x00 11;
       array_length := 5 |}
    (array_of (repeat x00 10))
  = Decoded ERROR_ALL_GOOD (array_of ten_A).
Proof.
  apply (proj1 (proj2 (lzss_round_trip demo_config ten_A (repeat x00 16)
                         (repeat x00 10) demo_config_invariant
                         ltac:(vm_compute; reflexivity)
                         ltac:(vm_compute; split; [discriminate|reflexivity])
                         ltac:(reflexivity)))).
  - discriminate.
  - vm_compute. reflexivity.
Defined.

(** C6 (early failures of the decoder).  [lzss_decode] returns
    [ERROR_NO_OP] when the input is empty or the output has length 0, and
    [ERROR_WRONG_OUTPUT_SIZE] when the header was read and the length it
    declares is not the length of the output; in both cases the output comes
    back as it was passed, no byte written. *)
Theorem lzss_decode_early_failures config input output :
  (array_length input = 0 \/ array_length output = 0 ->
   lzss_decode config input output = Decoded ERROR_NO_OP output)
  /\ (array_length input <> 0 -> array_length output <> 0 ->
      forall declared s,
        bit_stream_read_7bit_uint32 (bit_stream_init input)
        = (ERROR_ALL_GOOD, declared, s) ->
        declared <> array_length output ->
        lzss_decode config input output
        = Decoded ERROR_WRONG_OUTPUT_SIZE output).
Proof.
  unfold lzss_decode. split.
  - intros [H|H]; rewrite H; cbn [Z.eqb orb]; auto.
    rewrite orb_true_r. reflexivity.
  - intros Hi Ho declared s E Hd.
    destruct (Z.eqb_spec (array_length input) 0); [contradiction|].
    destruct (Z.eqb_spec (array_length output) 0); [contradiction|].
    cbn [orb]. rewrite E. cbn [failed].
    destruct (Z.eqb_spec declared (array_length output)); [contradiction|].
    reflexivity.
Qed.

Lemma lzss_decode_early_failures_witness :
  lzss_decode demo_config (array_of []) (array_of ten_A)
  = Decoded ERROR_NO_OP (array_of ten_A)
  /\ lzss_decode demo_config (array_of [x03; x00]) (array_of ten_A)
     = Decoded ERROR_WRONG_OUTPUT_SIZE (array_of ten_A).
Proof.
  split.
  - apply (proj1 (lzss_decode_early_failures demo_config (array_of [])
                    (array_of ten_A))).
    left. reflexivity.
  - apply (proj2 (lzss_decode_early_failures demo_config
                    (array_of [x03; x00]) (array_of ten_A)))
      with (declared := 3)
           (s := mk_stream [x03; x00] 2 1 3 0).
    + vm_compute. discriminate.
    + vm_compute. discriminate.
    + vm_compute. reflexivity.
    + vm_compute. discriminate.
Defined.

(** C8 (the scenario of the specification).  For ten bytes 'A' and the
    configuration (10, 6, 2) the encoder emits the tokens Literal 'A' and
    Pair (offset 1, length 9) after the header 10; the five bytes it produces
    in the driver's allocation are those bits padded with zeros, and the
    driver's decoding of them gives the ten bytes back. *)
Theorem ten_A_scenario :
  lzss_tokens demo_config (array_of ten_A) = [Literal 65; Pair 1 9]
  /\ vlq_bits 5 10 = low_bits 10 8
  /\ do_lzss_encoding (array_of ten_A)
     = Some (ERROR_ALL_GOOD,
             {| array_bytes := [x0a; x20; xc0; x12; x40] ++ repeat x00 11;
                array_length := 5 |})
  /\ bits_of_bytes [x0a; x20; xc0; x12; x40]
     = low_bits 10 8
       ++ token_bits demo_config (Literal 65)
       ++ token_bits demo_config (Pair 1 9)
       ++ repeat false 6
  /\ do_lzss_decoding
       {| array_bytes := [x0a; x20; xc0; x12; x40] ++ repeat x00 11;
          array_length := 5 |}
     = Decoded ERROR_ALL_GOOD (array_of ten_A).
Proof.
  repeat split; vm_compute; reflexivity.
Qed.

Lemma bits_value_fits v bits :
  0 <= bits -> 0 <= v < 2 ^ bits ->
  bits_value 0 (low_bits v (Z.to_nat bits)) = v.
Proof.
  intros Hb Hv. rewrite bits_value_low_bits, Z2Nat.id by lia.
  rewrite Z.mod_small by lia. lia.
Qed.

Lemma tokens_loop_in_range config input fuel : forall index,
  config_invariant config ->
  array_length input < 2 ^ 32 ->
  0 <= index ->
  Forall (pair_in_range config) (tokens_loop fuel config input index).
Proof.
  induction fuel as [|f IH]; intros index Hc Hu Hi; cbn [tokens_loop].
  - destruct (index <? array_length input); constructor.
  - destruct (Z.ltb_spec index (array_length input)) as [Hlt|]; [|constructor].
    pose proof (get_longest_match_sound config input index Hc Hu
                  ltac:(lia)) as [Hm0 Hm1].
    set (m := __get_longest_match config input index) in *.
    destruct (Z.geb_spec (match_length m) (minimum_length config))
      as [Hpair|Hlit].
    + constructor; [|apply IH; auto; apply u32_range].
      pose proof (config_pow config Hc) as [Hpo Hpl].
      destruct Hc as (Hob & Hlb & Hsum & Hmo & Hml & Hmin).
      destruct (Hm1 ltac:(lia)) as (Hoff & Hoffmax & _).
      cbn [pair_in_range]. repeat split; try lia;
        apply bits_value_fits; lia.
    + constructor; [exact I|apply IH; auto; apply u32_range].
Qed.

(** C10 (pair fields in range).  For a configuration built by
    [lzss_config_init] from widths with [offset_bits + length_bits <= 31] and
    a minimum length of at least 1, the maxima are [2 ^ offset_bits - 1] and
    [2 ^ length_bits - 1], and every pair token the encoder emits has
    [1 <= offset <= max_offset] and
    [minimum_length <= length <= max_length]; written in [offset_bits] and
    [length_bits] bits, both fields read back unchanged. *)
Theorem emitted_pairs_in_range ob lb ml input :
  0 <= ob -> 0 <= lb -> ob + lb <= 31 -> 1 <= ml <= 255 ->
  array_length input < 2 ^ 32 ->
  let config := lzss_config_init ob lb ml in
  max_offset config = 2 ^ ob - 1
  /\ max_length config = 2 ^ lb - 1
  /\ Forall (pair_in_range config) (lzss_tokens config input).
Proof.
  intros Hob Hlb Hsum Hml Hu config.
  pose proof (config_init_invariant ob lb ml Hob Hlb Hsum Hml) as Hc.
  fold config in Hc.
  assert (Hw : offset_bits config = ob /\ length_bits config = lb).
  { unfold config, lzss_config_init. cbn [offset_bits length_bits].
    rewrite !u8_small by lia. auto. }
  destruct Hw as [Hw1 Hw2].
  pose proof Hc as (_ & _ & _ & Hmo & Hmlen & _).
  rewrite Hw1 in Hmo. rewrite Hw2 in Hmlen.
  split; auto. split; auto.
  apply tokens_loop_in_range; auto. lia.
Qed.

Lemma emitted_pairs_in_range_witness :
  Forall (pair_in_range demo_config) (lzss_tokens demo_config (array_of ten_A)).
Proof.
  apply (emitted_pairs_in_range 10 6 2 (array_of ten_A)).
  - lia.
  - lia.
  - lia.
  - lia.
  - vm_compute. reflexivity.
Defined.

(** ** Self-overlapping copies *)









(** ** The best match *)

(** C4 as stated fails near the end of the buffer: at index 2 of "AAAA" the
    window holds the candidates 0 and 1 with runs of length 2, and the guard
    on [index + minimum_length] returns offset 0 and length 0. *)
Lemma best_match_counterexample :
  ~ returns_best_match demo_config (array_of [x41; x41; x41; x41]) 2.
Proof.
  intros (best & L & (Hb & _) & Hoff & _).
  change (match_offset
            (__get_longest_match demo_config
               (array_of [x41; x41; x41; x41]) 2)) with 0 in Hoff.
  lia.
Qed.

(** C4, amended.  For a buffer shorter than [2 ^ 32] and a configuration
    satisfying the invariant: when [index + minimum_length] reaches the
    length of the buffer the match has offset 0 and length 0, whatever the
    window holds; otherwise, with a window that is not empty, the match is
    the longest run of the window, among the longest the candidate scanned
    last (the smallest backward distance), its offset the backward distance
    and its length capped at [max_length]; with an empty window its length
    is 0. *)
Theorem get_longest_match_best config input index :
  config_invariant config ->
  array_length input < 2 ^ 32 ->
  0 <= index < array_length input ->
  (array_length input <= index + minimum_length config < 2 ^ 32 ->
   __get_longest_match config input index
   = {| match_offset := 0; match_length := 0 |})
  /\ (index + minimum_length config < array_length input ->
      window_start config index < index ->
      returns_best_match config input index)
  /\ (index + minimum_length config < array_length input ->
      window_start config index = index ->
      match_length (__get_longest_match config input index) = 0).
Proof.
  intros Hc Hu Hi. pose proof (config_pow config Hc) as [Hpo Hpl].
  pose proof Hc as (Hob & Hlb & Hsum & Hmo & Hml & Hmin).
  split; [|split].
  - intros Hg. unfold __get_longest_match. rewrite u32_small by lia.
    destruct (Z.geb_spec (index + minimum_length config)
                (array_length input)); [reflexivity|lia].
  - intros Hg Hw.
    destruct (get_longest_match_scan config input index Hc Hu Hi)
      as (bo & bl & Hbest & Hm).
    { rewrite u32_small by lia. lia. }
    destruct Hbest as [(? & _)|(Hbo & Hbl & Hall)]; [lia|].
    exists bo, bl. rewrite Hm. cbn [match_offset match_length].
    unfold window_start in Hbo.
    split; [|split; auto; apply u32_small; lia].
    split; [exact Hbo|]. split.
    + rewrite Hbl. apply run_from_spec; auto. lia.
    + intros c L' Hcw Hrun. unfold window_start in Hcw.
      pose proof (run_from_spec input index Hu Hi c ltac:(lia)) as Hrun'.
      pose proof (is_run_unique _ _ _ _ _ Hrun Hrun') as ->.
      apply Hall. exact Hcw.
  - intros Hg Hw.
    destruct (get_longest_match_scan config input index Hc Hu Hi)
      as (bo & bl & Hbest & Hm).
    { rewrite u32_small by lia. lia. }
    rewrite Hm. cbn [match_length].
    destruct Hbest as [(_ & _ & ->)|(Hbo & _)]; [|lia].
    unfold MIN. destruct (Z.ltb_spec 0 (max_length config)); lia.
Qed.

Lemma get_longest_match_best_witness :
  returns_best_match demo_config (array_of ten_A) 1.
Proof.
  apply (get_longest_match_best demo_config (array_of ten_A) 1).
  - exact demo_config_invariant.
  - vm_compute. reflexivity.
  - vm_compute. split; [discriminate|reflexivity].
  - vm_compute. reflexivity.
  - vm_compute. reflexivity.
Defined.

(** ** The bit count *)

Lemma failed_false e : failed e = false -> e = ERROR_ALL_GOOD.
Proof. destruct e; simpl; congruence. Qed.

Lemma flush_bit_count s :
  0 <= bit_count s <= 8 ->
  0 <= bit_count (snd (bit_stream_flush s)) <= bit_count s
  /\ (fst (bit_stream_flush s) = ERROR_ALL_GOOD ->
      bit_count (snd (bit_stream_flush s)) = 0).
Proof.
  intros H. unfold bit_stream_flush.
  repeat break_cond; stream_fields; split; try lia; try discriminate.
Qed.

Lemma write_bit_bit_count s bit :
  0 <= bit_count s <= 7 ->
  0 <= bit_count (snd (bit_stream_write_bit s bit)) <= 8
  /\ (fst (bit_stream_write_bit s bit) = ERROR_ALL_GOOD ->
      bit_count (snd (bit_stream_write_bit s bit)) <= 7).
Proof.
  intros H. unfold bit_stream_write_bit. stream_fields.
  rewrite (u8_small (bit_count s + 1)) by lia.
  destruct (Z.eqb_spec (bit_count s + 1) 8) as [H8|H8].
  - match goal with
    | |- context [bit_stream_flush ?t] =>
        pose proof (flush_bit_count t) as F
    end.
    stream_fields. destruct F as [F1 F2]; [lia|]. split; [lia|].
    intros E. rewrite F2 by exact E. lia.
  - stream_fields. lia.
Qed.

Lemma write_uint32_loop_bit_count n : forall s number,
  0 <= bit_count s <= 7 ->
  0 <= bit_count (snd (write_uint32_loop n s number)) <= 8
  /\ (fst (write_uint32_loop n s number) = ERROR_ALL_GOOD ->
      bit_count (snd (write_uint32_loop n s number)) <= 7).
Proof.
  induction n as [|k IH]; intros s number H; cbn [write_uint32_loop].
  - stream_fields. lia.
  - match goal with
    | |- context [bit_stream_write_bit s ?b] =>
        pose proof (write_bit_bit_count s b H) as [W1 W2];
        destruct (bit_stream_write_bit s b) as [e1 s1]
    end.
    stream_fields. destruct (failed e1) eqn:Ef.
    + stream_fields. split; [lia|]. intros ->. discriminate.
    + apply IH. apply failed_false in Ef. split; [lia|]. apply W2, Ef.
Qed.

Lemma write_7bit_loop_bit_count fuel : forall s n,
  0 <= bit_count s <= 7 ->
  0 <= bit_count (snd (fst (write_7bit_loop fuel s n))) <= 8
  /\ (fst (fst (write_7bit_loop fuel s n)) = ERROR_ALL_GOOD ->
      bit_count (snd (fst (write_7bit_loop fuel s n))) <= 7).
Proof.
  induction fuel as [|f IH]; intros s n H; cbn [write_7bit_loop].
  - stream_fields. lia.
  - destruct (127 <? n); [|stream_fields; lia].
    unfold bit_stream_write_uint32.
    match goal with
    | |- context [write_uint32_loop ?k s ?b] =>
        pose proof (write_uint32_loop_bit_count k s b H) as [W1 W2];
        destruct (write_uint32_loop k s b) as [e1 s1]
    end.
    stream_fields. destruct (failed e1) eqn:Ef.
    + stream_fields. split; [lia|]. intros ->. discriminate.
    + apply IH. apply failed_false in Ef. split; [lia|]. apply W2, Ef.
Qed.

Lemma write_7bit_uint32_bit_count s number :
  0 <= bit_count s <= 7 ->
  0 <= bit_count (snd (bit_stream_write_7bit_uint32 s number)) <= 8.
Proof.
  intros H. unfold bit_stream_write_7bit_uint32.
  pose proof (write_7bit_loop_bit_count 5 s (u32 number) H) as [W1 W2].
  destruct (write_7bit_loop 5 s (u32 number)) as [[e1 s1] n1].
  stream_fields. destruct (failed e1) eqn:Ef; [stream_fields; lia|].
  apply failed_false in Ef.
  destruct (0 <? n1); [|stream_fields; lia].
  stream_fields. unfold bit_stream_write_uint32.
  apply write_uint32_loop_bit_count. split; [lia|]. apply W2, Ef.
Qed.

Lemma read_bit_bit_count s :
  0 <= bit_count s <= 8 ->
  0 <= bit_count (snd (bit_stream_read_bit s)) <= 7.
Proof.
  intros H. unfold bit_stream_read_bit, bit_stream_unflush.
  destruct (Z.eqb_spec (bit_count s) 0) as [H0|H0].
  - destruct (Z.ltb_spec (buffer_position s) (buffer_length s));
      stream_fields; [|lia].
    rewrite u8_small; lia.
  - stream_fields. rewrite u8_small; lia.
Qed.

Lemma read_uint32_loop_bit_count n : forall s value,
  0 <= bit_count s <= 7 ->
  0 <= bit_count (snd (read_uint32_loop n s value)) <= 7.
Proof.
  induction n as [|k IH]; intros s value H; cbn [read_uint32_loop].
  - stream_fields. lia.
  - pose proof (read_bit_bit_count s ltac:(lia)) as R.
    destruct (bit_stream_read_bit s) as [[e1 b1] s1]. stream_fields.
    destruct (failed e1); [stream_fields; lia|]. apply IH. lia.
Qed.

Lemma read_7bit_loop_bit_count fuel : forall s n shift,
  0 <= bit_count s <= 7 ->
  0 <= bit_count (snd (read_7bit_loop fuel s n shift)) <= 7.
Proof.
  induction fuel as [|f IH]; intros s n shift H; cbn [read_7bit_loop].
  - stream_fields. lia.
  - unfold bit_stream_read_uint32.
    pose proof (read_uint32_loop_bit_count (Z.to_nat 8) s 0 H) as R.
    destruct (read_uint32_loop (Z.to_nat 8) s 0) as [[e1 b1] s1].
    stream_fields. destruct (failed e1); [stream_fields; lia|].
    match goal with
    | |- context [if ?c then _ else _] => destruct c
    end; [stream_fields; lia|]. apply IH. lia.
Qed.

(** C9 as stated fails on a stream in which a write has failed: over an
    empty buffer the eighth bit of a field cannot be flushed and leaves
    [bit_count] at 8, and the next [bit_stream_write_bit] returns
    [ERROR_ALL_GOOD] with [bit_count] at 9. *)
Lemma bit_count_counterexample :
  let s := snd (bit_stream_write_uint32 (bit_stream_init (zeroed 0)) 0 8) in
  fst (bit_stream_write_uint32 (bit_stream_init (zeroed 0)) 0 8)
  = ERROR_BUFFER_OUT_OF_BOUNDS
  /\ bit_count s = 8
  /\ fst (bit_stream_write_bit s 0) = ERROR_ALL_GOOD
  /\ ~ (0 <= bit_count (snd (bit_stream_write_bit s 0)) <= 8).
Proof.
  vm_compute. repeat split; auto. intros [_ H]. apply H. reflexivity.
Qed.

(** C9, amended.  On a stream whose [bit_count] is at most 7 on entry (it is
    0 initially, and at most 7 after every read and after every
    [bit_stream_write_bit], [bit_stream_write_uint32] and [bit_stream_flush]
    that returned [ERROR_ALL_GOOD]), every public operation leaves
    [bit_count] in [[0,8]], failing or not.  [bit_stream_write_bit]
    flushes exactly when the count reaches 8: the flush stores the
    accumulator, advances the position and resets the count to 0 when the
    position is inside the buffer, and fails leaving the count at 8
    otherwise.  [bit_stream_read_bit] pulls the next byte exactly when the
    count is 0 on entry. *)
Theorem bit_count_invariant s :
  0 <= bit_count s <= 7 ->
  (forall bit, 0 <= bit_count (snd (bit_stream_write_bit s bit)) <= 8)
  /\ (forall number bits,
        0 <= bit_count (snd (bit_stream_write_uint32 s number bits)) <= 8)
  /\ (forall number,
        0 <= bit_count (snd (bit_stream_write_7bit_uint32 s number)) <= 8)
  /\ 0 <= bit_count (snd (bit_stream_flush s)) <= 8
  /\ 0 <= bit_count (snd (bit_stream_read_bit s)) <= 8
  /\ (forall bits,
        0 <= bit_count (snd (bit_stream_read_uint32 s bits)) <= 8)
  /\ 0 <= bit_count (snd (bit_stream_read_7bit_uint32 s)) <= 8
  /\ (forall bit,
        fst (bit_stream_write_bit s bit) = ERROR_ALL_GOOD ->
        bit_count (snd (bit_stream_write_bit s bit)) <= 7)
  /\ (forall number bits,
        fst (bit_stream_write_uint32 s number bits) = ERROR_ALL_GOOD ->
        bit_count (snd (bit_stream_write_uint32 s number bits)) <= 7)
  /\ (fst (bit_stream_flush s) = ERROR_ALL_GOOD ->
      bit_count (snd (bit_stream_flush s)) = 0)
  /\ (forall bit,
        let acc := Z.lor (u8 (Z.shiftl (byte_buffer s) 1)) (Z.land bit 1) in
        (bit_count s < 7 ->
         bit_stream_write_bit s bit
         = (ERROR_ALL_GOOD,
            mk_stream (buffer s) (buffer_length s) (buffer_position s)
              acc (bit_count s + 1)))
        /\ (bit_count s = 7 -> buffer_position s < buffer_length s ->
            bit_stream_write_bit s bit
            = (ERROR_ALL_GOOD,
               mk_stream (store (buffer s) (buffer_position s) acc)
                 (buffer_length s) (u32 (buffer_position s + 1)) 0 0))
        /\ (bit_count s = 7 -> buffer_length s <= buffer_position s ->
            bit_stream_write_bit s bit
            = (ERROR_BUFFER_OUT_OF_BOUNDS,
               mk_stream (buffer s) (buffer_length s) (buffer_position s)
                 acc 8)))
  /\ (0 < bit_count s ->
      snd (bit_stream_read_bit s)
      = mk_stream (buffer s) (buffer_length s) (buffer_position s)
          (byte_buffer s) (bit_count s - 1))
  /\ (bit_count s = 0 -> buffer_position s < buffer_length s ->
      snd (bit_stream_read_bit s)
      = mk_stream (buffer s) (buffer_length s) (u32 (buffer_position s + 1))
          (load (buffer s) (buffer_position s)) 7)
  /\ (bit_count s = 0 -> buffer_length s <= buffer_position s ->
      bit_stream_read_bit s = (ERROR_BUFFER_OUT_OF_BOUNDS, 0, s)).
Proof.
  intros H.
  split; [intros; apply write_bit_bit_count; auto|].
  split; [intros; apply write_uint32_loop_bit_count; auto|].
  split; [intros; apply write_7bit_uint32_bit_count; auto|].
  split; [pose proof (flush_bit_count s ltac:(lia)); lia|].
  split; [pose proof (read_bit_bit_count s ltac:(lia)); lia|].
  split; [intros bits;
          pose proof (read_uint32_loop_bit_count (Z.to_nat bits) s 0 H);
          unfold bit_stream_read_uint32; lia|].
  split; [pose proof (read_7bit_loop_bit_count 5 s 0 0 H);
          unfold bit_stream_read_7bit_uint32; lia|].
  split; [intros; apply write_bit_bit_count; auto|].
  split; [intros number bits; apply write_uint32_loop_bit_count; auto|].
  split; [apply flush_bit_count; lia|].
  split.
  - intros bit acc. unfold bit_stream_write_bit. stream_fields. fold acc.
    rewrite (u8_small (bit_count s + 1)) by lia.
    split; [|split].
    + intros Hlt. destruct (Z.eqb_spec (bit_count s + 1) 8); [lia|].
      reflexivity.
    + intros H7 Hpos. rewrite H7. change (7 + 1 =? 8) with true. cbv iota.
      unfold bit_stream_flush. stream_fields.
      change (7 + 1 =? 0) with false. change (7 + 1 <? 8) with false.
      cbv iota.
      destruct (Z.geb_spec (buffer_position s) (buffer_length s)); [lia|].
      reflexivity.
    + intros H7 Hpos. rewrite H7. change (7 + 1 =? 8) with true. cbv iota.
      unfold bit_stream_flush. stream_fields.
      change (7 + 1 =? 0) with false. change (7 + 1 <? 8) with false.
      cbv iota.
      destruct (Z.geb_spec (buffer_position s) (buffer_length s)); [|lia].
      reflexivity.
  - unfold bit_stream_read_bit, bit_stream_unflush.
    split; [|split].
    + intros Hpos. destruct (Z.eqb_spec (bit_count s) 0); [lia|].
      stream_fields. rewrite u8_small by lia. reflexivity.
    + intros H0 Hpos. rewrite H0. change (0 =? 0) with true. cbv iota.
      destruct (Z.ltb_spec (buffer_position s) (buffer_length s)); [|lia].
      stream_fields. reflexivity.
    + intros H0 Hpos. rewrite H0. change (0 =? 0) with true. cbv iota.
      destruct (Z.ltb_spec (buffer_position s) (buffer_length s)); [lia|].
      stream_fields. reflexivity.
Qed.

Lemma bit_count_invariant_witness :
  0 <= bit_count
         (snd (bit_stream_write_bit (bit_stream_init (zeroed 0)) 1)) <= 8.
Proof.
  apply (proj1 (bit_count_invariant (bit_stream_init (zeroed 0))
                  ltac:(vm_compute; split; discriminate))).
Defined.

(** ** Where the code departs from the specification *)

(** C2 (the 7-bit quantity of the value 0).  [bit_stream_write_7bit_uint32]
    writes nothing for 0, on any stream: its loop does not run and the last
    group is guarded by [n > 0].  No zero byte is emitted, and reading back
    returns whatever the buffer holds next (5 below) or fails at its end. *)
Theorem write_7bit_zero_emits_nothing :
  (forall s, bit_stream_write_7bit_uint32 s 0 = (ERROR_ALL_GOOD, s))
  /\ (let s := snd (bit_stream_write_7bit_uint32
                      (bit_stream_init (array_of [x05])) 0) in
      buffer_position s = 0 /\ buffer s = [x05]
      /\ fst (bit_stream_read_7bit_uint32 (bit_stream_init (array_of [x05])))
         = (ERROR_ALL_GOOD, 5))
  /\ fst (bit_stream_read_7bit_uint32
            (bit_stream_init
               {| array_bytes :=
                    buffer (snd (bit_stream_write_7bit_uint32
                                   (bit_stream_init (zeroed 1)) 0));
                  array_length :=
                    buffer_position
                      (snd (bit_stream_write_7bit_uint32
                              (bit_stream_init (zeroed 1)) 0)) |}))
     = (ERROR_BUFFER_OUT_OF_BOUNDS, 0).
Proof.
  split; [|split].
  - intros s. reflexivity.
  - vm_compute. auto.
  - vm_compute. reflexivity.
Qed.

(** C3 (sufficiency of the upper bound).  With the widths of the
    demonstration and a minimum length of 1 a pair costs 17 bits and may
    cover one byte: for [costly_pairs_input] the wire bits are 130, the
    output is allocated with [lzss_get_upper_bound 10 = 16] bytes, and
    [lzss_encode] fails with [ERROR_BUFFER_OUT_OF_BOUNDS]. *)
Theorem upper_bound_insufficient :
  let config := lzss_config_init 10 6 1 in
  let input := array_of costly_pairs_input in
  config_invariant config
  /\ lzss_get_upper_bound (array_length input) = 16
  /\ Z.of_nat (List.length (wire_bits config input)) = 130
  /\ lzss_tokens config input
     = [Literal 65; Pair 1 1; Literal 66; Pair 2 1; Literal 67; Pair 2 1;
        Literal 68; Pair 2 1; Literal 69; Literal 65]
  /\ exists bytes,
       encode_in_upper_bound config input
       = Some (ERROR_BUFFER_OUT_OF_BOUNDS,
               {| array_bytes := bytes; array_length := 0 |}).
Proof.
  split; [apply config_init_invariant; lia|].
  repeat split; try (vm_compute; reflexivity).
  eexists. vm_compute. reflexivity.
Qed.

(** C7 (propagation of a failed write).  The last group of the header is
    written with the result of [bit_stream_write_uint32] dropped.  On an
    output of capacity 0 that write fails, [bit_stream_write_7bit_uint32]
    returns [ERROR_ALL_GOOD] all the same, and the encoder goes on with
    [bit_count] at 8; after 248 more bits the [uint8_t] count is back at 0,
    the final flush has nothing to do, and [lzss_encode] returns
    [ERROR_ALL_GOOD] with a logical length of 0 for an input of 28 bytes. *)
Theorem unchecked_header_write :
  let config := demo_config in
  let input := array_of unchecked_header_input in
  let stream := bit_stream_init (zeroed 0) in
  Z.of_nat (List.length (tokens_bits config (lzss_tokens config input))) = 248
  /\ fst (bit_stream_write_uint32 stream (Z.land (array_length input) 127) 8)
  = ERROR_BUFFER_OUT_OF_BOUNDS
  /\ fst (bit_stream_write_7bit_uint32 stream (array_length input))
     = ERROR_ALL_GOOD
  /\ bit_count (snd (bit_stream_write_7bit_uint32 stream
                       (array_length input))) = 8
  /\ lzss_encode config input (zeroed 0)
     = Some (ERROR_ALL_GOOD, {| array_bytes := []; array_length := 0 |}).
Proof.
  repeat split; vm_compute; reflexivity.
Qed.

(** * Further properties of the code *)

(** ** Bit fields *)

(** A successful flush advances the position by at most one byte: fewer
    than 8 padding bits. *)
Lemma flush_position out s bs s' :
  array_ok out ->
  writes out s bs ->
  bit_stream_flush s = (ERROR_ALL_GOOD, s') ->
  8 * buffer_position s' < Z.of_nat (List.length bs) + 8.
Proof.
  intros Hout W E. pose proof (writes_length out s bs Hout W) as HL.
  destruct Hout as [Ho1 Ho2]. destruct W as [Hl Ha Hc Hp Hb].
  unfold bit_stream_flush in E.
  destruct (Z.eqb_spec (bit_count s) 0) as [H0|H0].
  - pair_inv E. lia.
  - destruct (Z.geb_spec (buffer_position s) (buffer_length s)).
    + apply pair_equal_spec in E. destruct E as [E _]. discriminate.
    + apply pair_equal_spec in E. destruct E as [_ E]. subst s'.
      stream_fields. rewrite u32_small by lia. lia.
Qed.

Lemma div8_ceil n L : n <= 8 * L < n + 8 -> L = (n + 7) / 8.
Proof.
  intros H. apply Z.div_unique with (r := n + 7 - 8 * L); lia.
Qed.

(** X1 (bit-field round trip).  On a fresh stream over a buffer of at least
    4 bytes, writing the [bits] low bits of a [uint32_t] ([bits] up to 32)
    and flushing succeeds and takes [ceil (bits / 8)] bytes; reading [bits]
    bits from those bytes returns the number reduced modulo [2 ^ bits], the
    number itself when it fits the field. *)
Theorem bit_field_round_trip out number bits :
  array_ok out -> 4 <= array_length out ->
  0 <= bits <= 32 -> 0 <= number < 2 ^ 32 ->
  exists s1 s2 s3,
    bit_stream_write_uint32 (bit_stream_init out) number bits
    = (ERROR_ALL_GOOD, s1)
    /\ bit_stream_flush s1 = (ERROR_ALL_GOOD, s2)
    /\ buffer_position s2 = (bits + 7) / 8
    /\ bit_stream_read_uint32
         (bit_stream_init
            {| array_bytes := buffer s2; array_length := buffer_position s2 |})
         bits
       = (ERROR_ALL_GOOD, number mod 2 ^ bits, s3).
Proof.
  intros Hout Hcap Hbits Hnum.
  destruct (bit_stream_write_uint32 (bit_stream_init out) number bits)
    as [e1 s1] eqn:E1.
  destruct (write_uint32_spec out Hout _ _ _ bits _ _ Hbits
              (writes_init out Hout) E1) as [[-> W1]|[_ Hbad]].
  2:{ cbn [List.length] in Hbad. lia. }
  cbn [app] in W1.
  destruct (bit_stream_flush s1) as [e2 s2] eqn:E2.
  destruct (flush_spec out Hout _ _ _ _ W1 E2)
    as [(-> & (pad & W2) & Hz)|[_ Hbad]].
  2:{ rewrite low_bits_length in Hbad. lia. }
  pose proof (flush_position out s1 _ s2 Hout W1 E2) as Hpos.
  pose proof (writes_length out s2 _ Hout W2) as HL.
  rewrite low_bits_length in Hpos.
  rewrite length_app, low_bits_length, repeat_length in HL.
  pose proof W2 as [Wl Wa Wc Wp Wb]. destruct Hout as [Ho1 Ho2].
  rewrite Hz in Wb. cbn [Z.to_nat low_bits] in Wb. rewrite app_nil_r in Wb.
  assert (Hok : array_ok {| array_bytes := buffer s2;
                            array_length := buffer_position s2 |})
    by (unfold array_ok; cbn [array_bytes array_length]; lia).
  pose proof (reads_init _ Hok) as R.
  cbn [array_bytes array_length] in R. rewrite <- Wb in R.
  assert (Hp : 0 < 2 ^ bits <= 2 ^ 32).
  { split; [apply Z.pow_pos_nonneg; lia|apply Z.pow_le_mono_r; lia]. }
  destruct (read_uint32_loop_spec (Z.to_nat bits)
              (bit_stream_init
                 {| array_bytes := buffer s2;
                    array_length := buffer_position s2 |})
              (low_bits number (Z.to_nat bits)) (repeat false pad) 0)
    as (s3 & E3 & _); auto.
  - apply low_bits_length.
  - lia.
  - rewrite Z2Nat.id by lia. lia.
  - exists s1, s2, s3. split; auto. split; auto. split.
    + apply div8_ceil. lia.
    + unfold bit_stream_read_uint32. rewrite E3.
      rewrite bits_value_low_bits, Z2Nat.id by lia.
      replace (0 * 2 ^ bits + number mod 2 ^ bits)
        with (number mod 2 ^ bits) by lia.
      reflexivity.
Qed.

Lemma bit_field_round_trip_witness :
  exists s1 s2 s3,
    bit_stream_write_uint32 (bit_stream_init (zeroed 4)) 1023 10
    = (ERROR_ALL_GOOD, s1)
    /\ bit_stream_flush s1 = (ERROR_ALL_GOOD, s2)
    /\ buffer_position s2 = (10 + 7) / 8
    /\ bit_stream_read_uint32
         (bit_stream_init
            {| array_bytes := buffer s2; array_length := buffer_position s2 |})
         10
       = (ERROR_ALL_GOOD, 1023 mod 2 ^ 10, s3).
Proof.
  apply (bit_field_round_trip (zeroed 4) 1023 10).
  - vm_compute. repeat split; discriminate.
  - vm_compute. discriminate.
  - lia.
  - vm_compute. split; [discriminate|reflexivity].
Defined.

(** X2 (the 7-bit quantity of a positive value).  For every value from 1
    to [2 ^ 32 - 1], on a fresh stream over a buffer of at least 5 bytes,
    [bit_stream_write_7bit_uint32] succeeds, leaves the stream
    byte-aligned after [ceil (bit_length v / 7)] bytes, and
    [bit_stream_read_7bit_uint32] over those bytes returns the value. *)
Theorem vlq_positive_round_trip out v :
  array_ok out -> 5 <= array_length out ->
  0 < v < 2 ^ 32 ->
  exists s s',
    bit_stream_write_7bit_uint32 (bit_stream_init out) v
    = (ERROR_ALL_GOOD, s)
    /\ bit_count s = 0
    /\ buffer_position s = (Z.log2 v + 1 + 6) / 7
    /\ bit_stream_read_7bit_uint32
         (bit_stream_init
            {| array_bytes := buffer s; array_length := buffer_position s |})
       = (ERROR_ALL_GOOD, v, s').
Proof.
  intros Hout Hcap Hv.
  destruct (vlq_round_trip out v Hout Hcap Hv) as (s & E & Hb & Hp & s' & R).
  exists s, s'. auto.
Qed.

Lemma vlq_positive_round_trip_witness :
  exists s s',
    bit_stream_write_7bit_uint32 (bit_stream_init (zeroed 5)) 300
    = (ERROR_ALL_GOOD, s)
    /\ bit_count s = 0
    /\ buffer_position s = (Z.log2 300 + 1 + 6) / 7
    /\ bit_stream_read_7bit_uint32
         (bit_stream_init
            {| array_bytes := buffer s; array_length := buffer_position s |})
       = (ERROR_ALL_GOOD, 300, s').
Proof.
  apply (vlq_positive_round_trip (zeroed 5) 300).
  - vm_compute. repeat split; discriminate.
  - vm_compute. discriminate.
  - vm_compute. split; reflexivity.
Defined.

(** ** The reader of the 7-bit quantity on any input *)

Lemma lor_u32_range a b :
  0 <= a < 2 ^ 32 -> 0 <= b < 2 ^ 32 -> 0 <= Z.lor a b < 2 ^ 32.
Proof.
  intros Ha Hb.
  assert (H0 : 0 <= Z.lor a b) by (apply Z.lor_nonneg; lia).
  split; auto.
  destruct (Z.eq_dec (Z.lor a b) 0) as [->|Hne]; [reflexivity|].
  apply Z.log2_lt_pow2; [lia|].
  rewrite Z.log2_lor by lia.
  destruct (Z.eq_dec a 0) as [->|Ha0];
    destruct (Z.eq_dec b 0) as [->|Hb0]; cbn [Z.log2 Z.max];
    try (apply Z.max_lub_lt); try (apply Z.log2_lt_pow2; lia); try lia.
Qed.

Lemma read_bit_consumes s :
  reader_ok s ->
  (fst (fst (bit_stream_read_bit s)) = ERROR_ALL_GOOD ->
   bits_left (snd (bit_stream_read_bit s)) = bits_left s - 1)
  /\ (fst (fst (bit_stream_read_bit s)) <> ERROR_ALL_GOOD ->
      fst (fst (bit_stream_read_bit s)) = ERROR_BUFFER_OUT_OF_BOUNDS
      /\ bits_left s = 0).
Proof.
  intros (Hc & Hp & Hu). unfold bit_stream_read_bit, bit_stream_unflush.
  destruct (Z.eqb_spec (bit_count s) 0) as [H0|H0].
  - destruct (Z.ltb_spec (buffer_position s) (buffer_length s));
      unfold bits_left; stream_fields.
    + rewrite u8_small, u32_small by lia. split; [lia|congruence].
    + split; [discriminate|]. intros _. split; auto. lia.
  - unfold bits_left; stream_fields.
    rewrite u8_small by lia. split; [lia|congruence].
Qed.

Lemma read_uint32_loop_consumes n : forall s value,
  reader_ok s ->
  (fst (fst (read_uint32_loop n s value)) = ERROR_ALL_GOOD ->
   bits_left (snd (read_uint32_loop n s value)) = bits_left s - Z.of_nat n)
  /\ (fst (fst (read_uint32_loop n s value)) <> ERROR_ALL_GOOD ->
      fst (fst (read_uint32_loop n s value)) = ERROR_BUFFER_OUT_OF_BOUNDS
      /\ bits_left s < Z.of_nat n).
Proof.
  induction n as [|k IH]; intros s value H; cbn [read_uint32_loop].
  - stream_fields. split; [lia|congruence].
  - pose proof (read_bit_bits_left s H) as [R1 _].
    pose proof (read_bit_consumes s H) as [C1 C2].
    destruct (bit_stream_read_bit s) as [[e1 b1] s1]. stream_fields.
    destruct (failed e1) eqn:Ef.
    + stream_fields.
      assert (He : e1 <> ERROR_ALL_GOOD) by (intros ->; discriminate).
      destruct (C2 He) as [-> Hz]. split; [discriminate|].
      intros _. split; auto. lia.
    + apply failed_false in Ef.
      destruct (IH s1 (Z.lor (u32 (Z.shiftl value 1)) (Z.land b1 1)) R1)
        as [I1 I2].
      specialize (C1 Ef). split.
      * intros E. rewrite (I1 E). lia.
      * intros E. destruct (I2 E) as [-> Hlt]. split; auto. lia.
Qed.

Lemma read_7bit_loop_shape fuel : forall s n shift,
  reader_ok s -> 0 <= n < 2 ^ 32 ->
  let r := read_7bit_loop fuel s n shift in
  0 <= snd (fst r) < 2 ^ 32
  /\ bits_left s - 8 * Z.of_nat fuel <= bits_left (snd r) <= bits_left s
  /\ (fst (fst r) = ERROR_ALL_GOOD \/ fst (fst r) = ERROR_BUFFER_OUT_OF_BOUNDS).
Proof.
  induction fuel as [|f IH]; intros s n shift H Hn; cbn [read_7bit_loop].
  - stream_fields. repeat split; auto; lia.
  - unfold bit_stream_read_uint32.
    pose proof (read_uint32_loop_bits_left (Z.to_nat 8) s 0 H) as [R1 R2].
    pose proof (read_uint32_loop_consumes (Z.to_nat 8) s 0 H) as [C1 C2].
    destruct (read_uint32_loop (Z.to_nat 8) s 0) as [[e1 b1] s1].
    stream_fields. destruct (failed e1) eqn:Ef.
    + stream_fields.
      assert (He : e1 <> ERROR_ALL_GOOD) by (intros ->; discriminate).
      destruct (C2 He) as [-> Hlt].
      destruct H as (Hc & Hp & Hu). destruct R1 as (Hc1 & Hp1 & Hu1).
      unfold bits_left in *.
      repeat split; auto; try lia; change (2 ^ 32) with 4294967296; lia.
    + apply failed_false in Ef. specialize (C1 Ef).
      change (Z.of_nat (Z.to_nat 8)) with 8 in C1.
      assert (Hn1 : 0 <= Z.lor n (u32 (Z.shiftl (Z.land b1 127) shift))
                    < 2 ^ 32)
        by (apply lor_u32_range; auto; apply u32_range).
      match goal with
      | |- context [if ?c then _ else _] => destruct c
      end.
      * stream_fields. repeat split; auto; lia.
      * specialize (IH s1 _ (u8 (shift + 7)) R1 Hn1).
        cbv zeta in IH. destruct IH as (I1 & I2 & I3).
        repeat split; auto; lia.
Qed.

(** X3 (the reader of the 7-bit quantity is bounded).  On any stream that
    is within its buffer, whatever the bytes, [bit_stream_read_7bit_uint32]
    consumes at most 5 bytes (40 bits), returns a value below [2 ^ 32], and
    returns [ERROR_ALL_GOOD] or [ERROR_BUFFER_OUT_OF_BOUNDS]. *)
Theorem read_7bit_bounded s :
  reader_ok s ->
  let r := bit_stream_read_7bit_uint32 s in
  0 <= snd (fst r) < 2 ^ 32
  /\ bits_left s - 40 <= bits_left (snd r) <= bits_left s
  /\ (fst (fst r) = ERROR_ALL_GOOD \/ fst (fst r) = ERROR_BUFFER_OUT_OF_BOUNDS).
Proof.
  intros H. unfold bit_stream_read_7bit_uint32.
  pose proof (read_7bit_loop_shape 5 s 0 0 H) as R.
  cbv zeta in *. destruct R as (R1 & R2 & R3).
  - change (2 ^ 32) with 4294967296. lia.
  - repeat split; auto; lia.
Qed.

Lemma read_7bit_bounded_witness :
  let r := bit_stream_read_7bit_uint32
             (bit_stream_init
                (array_of [xff; xff; xff; xff; xff; xff; xff])) in
  0 <= snd (fst r) < 2 ^ 32
  /\ bits_left
       (bit_stream_init (array_of [xff; xff; xff; xff; xff; xff; xff])) - 40
     <= bits_left (snd r)
     <= bits_left
          (bit_stream_init (array_of [xff; xff; xff; xff; xff; xff; xff]))
  /\ (fst (fst r) = ERROR_ALL_GOOD \/ fst (fst r) = ERROR_BUFFER_OUT_OF_BOUNDS).
Proof.
  apply (read_7bit_bounded
           (bit_stream_init (array_of [xff; xff; xff; xff; xff; xff; xff]))).
  vm_compute. repeat split; discriminate.
Defined.

(** ** Sizing *)

(** X4 (what [lzss_get_upper_bound] computes).  While [32 + 9 * n] fits
    32 bits the result is [ceil ((32 + 9 * n) / 8)], more than [n] itself;
    the sum wraps beyond that, the result never exceeds [2 ^ 29], and for an
    input longer than [2 ^ 29] bytes the bound is smaller than the input. *)
Theorem upper_bound_exact n :
  0 <= n < 2 ^ 32 ->
  (32 + n * 9 < 2 ^ 32 ->
   32 + n * 9 <= 8 * lzss_get_upper_bound n < 32 + n * 9 + 8
   /\ n < lzss_get_upper_bound n)
  /\ lzss_get_upper_bound n <= 2 ^ 29
  /\ (2 ^ 29 < n -> lzss_get_upper_bound n < n).
Proof.
  intros Hn. unfold lzss_get_upper_bound.
  pose proof (u32_range (32 + n * 9)) as Hr.
  set (t := u32 (32 + n * 9)) in *.
  pose proof (Z.div_mod t 8 ltac:(lia)) as Hdm.
  pose proof (Z.mod_pos_bound t 8 ltac:(lia)) as Hm.
  change (2 ^ 32) with 4294967296 in *. change (2 ^ 29) with 536870912.
  assert (Hq : 0 <= t / 8 < 536870912).
  { split; [apply Z.div_pos; lia|apply Z.div_lt_upper_bound; lia]. }
  assert (Hub : u32 (t / 8 + (if 0 <? t mod 8 then 1 else 0))
                = t / 8 + (if 0 <? t mod 8 then 1 else 0)).
  { apply u32_small. change (2 ^ 32) with 4294967296.
    destruct (0 <? t mod 8); lia. }
  rewrite Hub. split; [|split].
  - intros Hfit.
    assert (Ht : t = 32 + n * 9).
    { unfold t. apply u32_small. change (2 ^ 32) with 4294967296. lia. }
    destruct (Z.ltb_spec 0 (t mod 8)); lia.
  - destruct (Z.ltb_spec 0 (t mod 8)); lia.
  - destruct (Z.ltb_spec 0 (t mod 8)); lia.
Qed.

Lemma upper_bound_exact_witness :
  32 + 10 * 9 <= 8 * lzss_get_upper_bound 10 < 32 + 10 * 9 + 8
  /\ 10 < lzss_get_upper_bound 10.
Proof.
  apply (proj1 (upper_bound_exact 10
                  ltac:(vm_compute; split; [discriminate|reflexivity]))).
  vm_compute. reflexivity.
Defined.

(** X5 (where the upper bound suffices).  For a configuration satisfying
    the invariant in which a pair costs no more bits than the literals of
    [minimum_length] bytes (as with 10, 6 and 2), and an input of 1 to
    [2 ^ 28 - 1] bytes, [lzss_encode] into an output of
    [lzss_get_upper_bound (input.length)] bytes succeeds. *)
Theorem encode_in_upper_bound_succeeds config input :
  config_invariant config ->
  1 + offset_bits config + length_bits config <= 9 * minimum_length config ->
  0 < array_length input < 2 ^ 28 ->
  exists enc,
    encode_in_upper_bound config input = Some (ERROR_ALL_GOOD, enc)
    /\ 0 < array_length enc <= lzss_get_upper_bound (array_length input).
Proof.
  intros Hc Hcost Hn. exact (upper_bound_sufficient config input Hc Hcost Hn).
Qed.

Lemma encode_in_upper_bound_succeeds_witness :
  exists enc,
    encode_in_upper_bound demo_config (array_of ten_A)
    = Some (ERROR_ALL_GOOD, enc)
    /\ 0 < array_length enc
       <= lzss_get_upper_bound (array_length (array_of ten_A)).
Proof.
  apply (encode_in_upper_bound_succeeds demo_config (array_of ten_A)).
  - exact demo_config_invariant.
  - vm_compute. discriminate.
  - vm_compute. split; reflexivity.
Defined.

(** ** The encoder's output *)

(** The bytes a successful [lzss_encode] produces hold the wire bits and
    fewer than 8 bits of padding. *)
Lemma lzss_encode_length config input out enc :
  config_invariant config ->
  array_length input < 2 ^ 32 -> 0 < array_length input ->
  array_ok out -> 5 <= array_length out ->
  lzss_encode config input out = Some (ERROR_ALL_GOOD, enc) ->
  8 * array_length enc < Z.of_nat (List.length (wire_bits config input)) + 8.
Proof.
  intros Hc Hu Hn Hout Hcap E. unfold lzss_encode, wire_bits, lzss_tokens in *.
  destruct (Z.eqb_spec (array_length input) 0); [lia|].
  destruct (bit_stream_write_7bit_uint32 (bit_stream_init out)
              (array_length input)) as [e1 s1] eqn:E1.
  pose proof (vlq_bits_length 5 (array_length input)) as Hvl.
  assert (Hn' : 0 < array_length input < 2 ^ 32) by lia.
  destruct (write_7bit_uint32_spec out Hout _ _ _ _ _ Hn'
              (writes_init out Hout) E1) as [[-> W1]|Hbad].
  2:{ cbn [List.length] in Hbad. lia. }
  cbn [failed app] in *.
  assert (Hfuel : array_length input - 0
                  <= Z.of_nat (encode_fuel input out)).
  { unfold encode_fuel. lia. }
  destruct (encode_loop_spec config input Hc Hu out Hout
              (encode_fuel input out) s1 _ 0 ltac:(lia) Hfuel W1)
    as (e2 & s2 & E2 & Hres).
  rewrite E2 in E.
  rewrite (tokens_loop_fuel config input Hc Hu (encode_fuel input out)
             (Z.to_nat (array_length input)) 0) in Hres by lia.
  destruct Hres as [[-> W2]|[-> Hc2]]; cbn [failed] in E; [|discriminate].
  destruct (bit_stream_flush s2) as [e3 s3] eqn:E3.
  destruct e3; cbn [failed] in E; try discriminate.
  injection E as <-. cbn [array_length].
  exact (flush_position out s2 _ s3 Hout W2 E3).
Qed.

(** X6 (the outcomes of the encoder).  For a configuration satisfying the
    invariant, a non-empty input and an output of at least 5 bytes:
    [lzss_encode] succeeds exactly when the capacity holds the header and
    the tokens, and then the logical length of the output is the number of
    wire bits rounded up to bytes; otherwise it returns
    [ERROR_BUFFER_OUT_OF_BOUNDS] with a logical length of 0. *)
Theorem lzss_encode_outcomes config input out :
  config_invariant config ->
  array_length input < 2 ^ 32 -> 0 < array_length input ->
  array_ok out -> 5 <= array_length out ->
  let W := Z.of_nat (List.length (wire_bits config input)) in
  (W <= 8 * array_length out ->
   exists enc,
     lzss_encode config input out = Some (ERROR_ALL_GOOD, enc)
     /\ array_length enc = (W + 7) / 8
     /\ List.length (array_bytes enc) = List.length (array_bytes out))
  /\ (8 * array_length out < W ->
      exists enc,
        lzss_encode config input out
        = Some (ERROR_BUFFER_OUT_OF_BOUNDS, enc)
        /\ array_length enc = 0).
Proof.
  intros Hc Hu Hn Hout Hcap W.
  destruct (lzss_encode_spec config input out Hc Hu Hn Hout Hcap)
    as (e & enc & E & Hres).
  split.
  - intros Hfit.
    destruct Hres as [(-> & Ha & Hpos & Hw & _)|(_ & _ & Hbad)];
      [|unfold W in Hfit; lia].
    exists enc. split; auto. split; auto.
    pose proof (lzss_encode_length config input out enc Hc Hu Hn Hout Hcap E).
    apply div8_ceil. unfold W. lia.
  - intros Hsmall.
    destruct Hres as [(_ & _ & Hpos & Hw & _)|(-> & Hz & _)];
      [unfold W in Hsmall; lia|].
    exists enc. split; auto.
Qed.

Lemma lzss_encode_outcomes_witness :
  exists enc,
    lzss_encode demo_config (array_of costly_pairs_input) (zeroed 5)
    = Some (ERROR_BUFFER_OUT_OF_BOUNDS, enc)
    /\ array_length enc = 0.
Proof.
  apply (proj2 (lzss_encode_outcomes demo_config
                  (array_of costly_pairs_input)
                  (zeroed 5) demo_config_invariant
                  ltac:(vm_compute; reflexivity)
                  ltac:(vm_compute; reflexivity)
                  ltac:(vm_compute; repeat split; discriminate)
                  ltac:(vm_compute; discriminate))).
  vm_compute. reflexivity.
Defined.

Lemma app_eq_length {A} (l1 l1' l2 l2' : list A) :
  List.length l1 = List.length l1' ->
  l1 ++ l2 = l1' ++ l2' -> l1 = l1' /\ l2 = l2'.
Proof.
  revert l1'. induction l1 as [|a l1 IH]; intros [|b l1'] Hl E;
    try discriminate Hl.
  - auto.
  - cbn [app] in E. injection E as -> E. injection Hl as Hl.
    destruct (IH l1' Hl E) as [-> ->]. auto.
Qed.

Lemma bits_of_bytes_inj l1 : forall l2,
  bits_of_bytes l1 = bits_of_bytes l2 -> l1 = l2.
Proof.
  induction l1 as [|a l1 IH]; intros [|b l2] E; auto.
  - apply (f_equal (@List.length bool)) in E.
    rewrite !bits_of_bytes_length in E. cbn [List.length] in E. lia.
  - apply (f_equal (@List.length bool)) in E.
    rewrite !bits_of_bytes_length in E. cbn [List.length] in E. lia.
  - change (bits_of_bytes (a :: l1))
      with (low_bits (byte_to_Z a) 8 ++ bits_of_bytes l1) in E.
    change (bits_of_bytes (b :: l2))
      with (low_bits (byte_to_Z b) 8 ++ bits_of_bytes l2) in E.
    apply app_eq_length in E; [|rewrite !low_bits_length; reflexivity].
    destruct E as [E1 E2]. f_equal; [|apply IH; exact E2].
    apply byte_to_Z_inj.
    rewrite <- (bits_value_fits (byte_to_Z a) 8),
      <- (bits_value_fits (byte_to_Z b) 8);
      try lia; try (change (2 ^ 8) with 256; apply byte_to_Z_range).
    change (Z.to_nat 8) with 8%nat. rewrite E1. reflexivity.
Qed.

(** X7 (the output buffer's content does not matter).  The encoder only
    writes its output: into two outputs of the same capacity (at least
    5 bytes), whatever they hold, [lzss_encode] returns the same error code,
    the same logical length and the same bytes up to that length. *)
Theorem lzss_encode_ignores_output_content config input out1 out2 e1 enc1 :
  config_invariant config ->
  array_length input < 2 ^ 32 -> 0 < array_length input ->
  array_ok out1 -> array_ok out2 ->
  array_length out2 = array_length out1 -> 5 <= array_length out1 ->
  lzss_encode config input out1 = Some (e1, enc1) ->
  exists enc2,
    lzss_encode config input out2 = Some (e1, enc2)
    /\ array_length enc2 = array_length enc1
    /\ firstn (Z.to_nat (array_length enc2)) (array_bytes enc2)
       = firstn (Z.to_nat (array_length enc1)) (array_bytes enc1).
Proof.
  intros Hc Hu Hn Ho1 Ho2 Hlen Hcap E1.
  destruct (lzss_encode_spec config input out1 Hc Hu Hn Ho1 Hcap)
    as (e & enc & E & Hres1).
  rewrite E1 in E. injection E as <- <-.
  destruct (lzss_encode_spec config input out2 Hc Hu Hn Ho2 ltac:(lia))
    as (e2 & enc2 & E2 & Hres2).
  exists enc2.
  destruct Hres1 as [(-> & Ha1 & Hp1 & Hw1 & pad1 & Hb1)|(-> & Hz1 & Hbad1)];
    destruct Hres2 as [(-> & Ha2 & Hp2 & Hw2 & pad2 & Hb2)|(-> & Hz2 & Hbad2)];
    try lia.
  - pose proof (lzss_encode_length config input out1 enc1 Hc Hu Hn Ho1 Hcap
                  E1) as L1.
    pose proof (lzss_encode_length config input out2 enc2 Hc Hu Hn Ho2
                  ltac:(lia) E2) as L2.
    assert (HL : array_length enc2 = array_length enc1) by lia.
    split; auto. split; auto.
    apply bits_of_bytes_inj. rewrite Hb1, Hb2. f_equal.
    assert (Hlen1 : Z.of_nat (List.length (wire_bits config input))
                    + Z.of_nat pad1 = 8 * array_length enc1).
    { apply (f_equal (@List.length bool)) in Hb1.
      rewrite bits_of_bytes_length, length_firstn, length_app,
        repeat_length in Hb1.
      destruct Ho1 as [Ho1 _]. lia. }
    assert (Hlen2 : Z.of_nat (List.length (wire_bits config input))
                    + Z.of_nat pad2 = 8 * array_length enc2).
    { apply (f_equal (@List.length bool)) in Hb2.
      rewrite bits_of_bytes_length, length_firstn, length_app,
        repeat_length in Hb2.
      destruct Ho2 as [Ho2 _]. lia. }
    f_equal. lia.
  - split; auto. split; [lia|]. rewrite Hz1, Hz2. reflexivity.
Qed.

Lemma lzss_encode_ignores_output_content_witness :
  exists enc2,
    lzss_encode demo_config (array_of ten_A) (array_of (repeat xff 8))
    = Some (ERROR_ALL_GOOD, enc2)
    /\ array_length enc2 = 5
    /\ firstn (Z.to_nat (array_length enc2)) (array_bytes enc2)
       = firstn (Z.to_nat 5) ([x0a; x20; xc0; x12; x40] ++ repeat x00 3).
Proof.
  apply (lzss_encode_ignores_output_content demo_config (array_of ten_A)
           (zeroed 8) (array_of (repeat xff 8)) ERROR_ALL_GOOD
           {| array_bytes := [x0a; x20; xc0; x12; x40] ++ repeat x00 3;
              array_length := 5 |}).
  - exact demo_config_invariant.
  - vm_compute. reflexivity.
  - vm_compute. reflexivity.
  - vm_compute. repeat split; discriminate.
  - vm_compute. repeat split; discriminate.
  - reflexivity.
  - vm_compute. discriminate.
  - vm_compute. reflexivity.
Defined.

(** ** Peeking at the header, and the driver *)

Lemma original_length_of_encoded config input out enc :
  config_invariant config ->
  array_length input < 2 ^ 32 -> 0 < array_length input ->
  array_ok out -> 5 <= array_length out ->
  lzss_encode config input out = Some (ERROR_ALL_GOOD, enc) ->
  lzss_get_original_length enc = (ERROR_ALL_GOOD, array_length input).
Proof.
  intros Hc Hu Hn Hout Hcap E. pose proof Hout as [Ho1 Ho2].
  destruct (lzss_encode_spec config input out Hc Hu Hn Hout Hcap)
    as (e & enc0 & E0 & Hres).
  rewrite E in E0. injection E0 as <- <-.
  destruct Hres as [(_ & Ha & Hpos & Hfit & pad & Hbits)|(Hbad & _)];
    [|discriminate].
  assert (Henc : array_ok enc) by (unfold array_ok; lia).
  pose proof (reads_init enc Henc) as R. rewrite Hbits in R.
  unfold wire_bits in R. rewrite <- app_assoc in R.
  assert (Hn' : 0 < array_length input < 2 ^ 32) by lia.
  destruct (read_7bit_uint32_spec _ _ _ Hn' R) as (s1 & E1 & R1).
  unfold lzss_get_original_length. rewrite E1. reflexivity.
Qed.

(** X8 (peeking at the original length).  On what [lzss_encode] produced
    for a non-empty input (output of at least 5 bytes),
    [lzss_get_original_length] returns the length of that input; on an
    array of length 0 it returns [ERROR_BUFFER_OUT_OF_BOUNDS] and the
    length 0. *)
Theorem lzss_get_original_length_spec config input out enc :
  config_invariant config ->
  array_length input < 2 ^ 32 -> 0 < array_length input ->
  array_ok out -> 5 <= array_length out ->
  lzss_encode config input out = Some (ERROR_ALL_GOOD, enc) ->
  lzss_get_original_length enc = (ERROR_ALL_GOOD, array_length input)
  /\ forall bytes,
       lzss_get_original_length {| array_bytes := bytes; array_length := 0 |}
       = (ERROR_BUFFER_OUT_OF_BOUNDS, 0).
Proof.
  intros Hc Hu Hn Hout Hcap E. split.
  - exact (original_length_of_encoded config input out enc Hc Hu Hn Hout
             Hcap E).
  - intros bytes. reflexivity.
Qed.

Lemma lzss_get_original_length_spec_witness :
  lzss_get_original_length
    {| array_bytes := [x0a; x20; xc0; x12; x40] ++ repeat x00 11;
       array_length := 5 |}
  = (ERROR_ALL_GOOD, array_length (array_of ten_A)).
Proof.
  apply (proj1 (lzss_get_original_length_spec demo_config (array_of ten_A)
                  (zeroed 16)
                  {| array_bytes := [x0a; x20; xc0; x12; x40] ++ repeat x00 11;
                     array_length := 5 |}
                  demo_config_invariant
                  ltac:(vm_compute; reflexivity)
                  ltac:(vm_compute; reflexivity)
                  ltac:(vm_compute; repeat split; discriminate)
                  ltac:(vm_compute; discriminate)
                  ltac:(vm_compute; reflexivity))).
Defined.

Lemma bytes_eqb_refl l : bytes_eqb l l = true.
Proof.
  induction l as [|b l IH]; cbn [bytes_eqb]; auto.
  assert (H : Byte.eqb b b = true) by (apply Byte.byte_dec_lb; reflexivity).
  rewrite H, IH. reflexivity.
Qed.

(** X9 (the driver on a file).  For a file of 1 to [2 ^ 28 - 1] bytes,
    [do_lzss_encoding] succeeds, [do_lzss_decoding] of its result returns
    the bytes of the file, and [main] ends with exit code 0; for an empty
    file the encoder's [ERROR_NO_OP] is reported as an encoding error and
    [main] ends with -1. *)
Theorem driver_round_trip (B : list byte) :
  Z.of_nat (List.length B) < 2 ^ 28 ->
  (B = [] -> main_after_read_file (array_of B) = Some (-1))
  /\ (B <> [] ->
      exists enc,
        do_lzss_encoding (array_of B) = Some (ERROR_ALL_GOOD, enc)
        /\ do_lzss_decoding enc = Decoded ERROR_ALL_GOOD (array_of B)
        /\ main_after_read_file (array_of B) = Some 0).
Proof.
  intros HB. split; [intros ->; reflexivity|]. intros Hne.
  assert (Hn : 0 < array_length (array_of B) < 2 ^ 28).
  { cbn [array_of array_length]. destruct B; [congruence|].
    cbn [List.length] in *. lia. }
  assert (Hu : array_length (array_of B) < 2 ^ 32).
  { change (2 ^ 28) with 268435456 in Hn.
    change (2 ^ 32) with 4294967296. lia. }
  pose proof demo_config_invariant as Hc.
  change demo_config with (lzss_config_init 10 6 2) in Hc.
  destruct (upper_bound_sufficient (lzss_config_init 10 6 2) (array_of B) Hc
              ltac:(vm_compute; discriminate) Hn) as (enc & E & Hpos).
  exists enc.
  assert (E' : do_lzss_encoding (array_of B) = Some (ERROR_ALL_GOOD, enc))
    by exact E.
  unfold encode_in_upper_bound in E.
  set (ub := lzss_get_upper_bound (array_length (array_of B))) in *.
  destruct (upper_bound_bits (array_length (array_of B))) as [Hub1 Hub2];
    try (change (2 ^ 28) with 268435456 in Hn;
         change (2 ^ 32) with 4294967296; lia).
  fold ub in Hub1, Hub2.
  assert (Hzo : array_ok (zeroed ub)).
  { unfold array_ok, zeroed. cbn [array_bytes array_length].
    rewrite repeat_length. lia. }
  assert (Hcap : 5 <= array_length (zeroed ub))
    by (cbn [zeroed array_length]; lia).
  assert (Hin : array_ok (array_of B)) by (apply array_of_ok; exact Hu).
  pose proof (original_length_of_encoded _ _ _ _ Hc Hu ltac:(lia) Hzo Hcap E)
    as Hpeek.
  destruct (roundtrip_core (lzss_config_init 10 6 2) (array_of B) (zeroed ub)
              enc (zeroed (array_length (array_of B))) Hc Hin ltac:(lia)
              Hzo Hcap E)
    as (bytes' & D1 & D2 & D3).
  { reflexivity. }
  { cbn [zeroed array_bytes array_length]. rewrite repeat_length. lia. }
  assert (Hb : bytes' = B).
  { cbn [array_of zeroed array_bytes array_length] in D2, D3.
    rewrite repeat_length in D2. rewrite Nat2Z.id in *.
    apply firstn_all_eq; auto. }
  subst bytes'.
  assert (Hdec : do_lzss_decoding enc
                 = Decoded ERROR_ALL_GOOD (array_of B)).
  { unfold do_lzss_decoding. rewrite Hpeek. cbn [failed]. exact D1. }
  split; auto. split; auto.
  unfold main_after_read_file. rewrite E'. cbn [failed]. rewrite Hdec.
  cbn [failed array_of array_bytes array_length]. unfold memcmp_nonzero.
  rewrite bytes_eqb_refl. reflexivity.
Qed.

Lemma driver_round_trip_witness :
  main_after_read_file (array_of []) = Some (-1)
  /\ exists enc,
       do_lzss_encoding (array_of ten_A) = Some (ERROR_ALL_GOOD, enc)
       /\ do_lzss_decoding enc = Decoded ERROR_ALL_GOOD (array_of ten_A)
       /\ main_after_read_file (array_of ten_A) = Some 0.
Proof.
  split.
  - apply (proj1 (driver_round_trip []
                    ltac:(vm_compute; reflexivity))).
    reflexivity.
  - apply (proj2 (driver_round_trip ten_A
                    ltac:(vm_compute; reflexivity))).
    discriminate.
Defined.

(** ** The decoder on any input *)












(** X12 (a pair running past the output).  The copy loop does not check
    the length of a pair against the room left in the output: from a valid
    position and with a valid offset, a length that exceeds the rest of the
    buffer makes it store outside the buffer ([None], undefined behaviour in
    C) instead of failing with an error code. *)
Theorem copy_loop_past_the_end bytes index offset length :
  0 <= offset <= index ->
  index <= Z.of_nat (List.length bytes) < index + length ->
  Z.of_nat (List.length bytes) < 2 ^ 32 ->
  copy_loop (Z.to_nat length) bytes index offset 0 = None.
Proof.
  intros Ho Hb Hu.
  assert (H : forall todo bytes i,
            0 <= i -> index + i <= Z.of_nat (List.length bytes) ->
            Z.of_nat (List.length bytes) < index + i + Z.of_nat todo ->
            Z.of_nat (List.length bytes) < 2 ^ 32 ->
            copy_loop todo bytes index offset i = None).
  { clear bytes Hb Hu. induction todo as [|t IH]; intros bytes i Hi Hle Hlt Hu;
      [lia|].
    cbn [copy_loop]. rewrite (u32_small (index + i)) by lia.
    destruct (Z.eq_dec (index + i) (Z.of_nat (List.length bytes))) as [He|Hne].
    - unfold allocated at 1.
      destruct (Z.ltb_spec (index + i) (Z.of_nat (List.length bytes)));
        [lia|].
      rewrite andb_false_r. reflexivity.
    - rewrite (u32_small (index - offset)), (u32_small (index - offset + i)),
        (u32_small (i + 1)) by lia.
      rewrite !allocated_true by lia. cbn [andb].
      apply IH; rewrite ?store_length; lia. }
  apply H; lia.
Qed.

Lemma copy_loop_past_the_end_witness :
  copy_loop (Z.to_nat 5) [x41; x42; x43] 2 1 0 = None.
Proof.
  apply (copy_loop_past_the_end [x41; x42; x43] 2 1 5).
  - lia.
  - vm_compute. split; [discriminate|reflexivity].
  - vm_compute. reflexivity.
Defined.

(** ** The encoder on any capacity *)

Section Any_capacity.

Variable cap : Z.
Variable alloc : nat.
Hypothesis cap_u32 : cap < 2 ^ 32.







End Any_capacity.



(** ** The tokens of the encoder *)

(** X14 (the first token).  For a configuration satisfying the invariant
    and a non-empty input, the first token the encoder emits is the literal
    of the first byte: at index 0 the window is empty.  A decoder therefore
    never meets a pair before it has written a byte. *)
Theorem first_token_is_literal config input :
  config_invariant config ->
  array_length input < 2 ^ 32 -> 0 < array_length input ->
  exists rest,
    lzss_tokens config input = Literal (load (array_bytes input) 0) :: rest.
Proof.
  intros Hc Hu Hn. unfold lzss_tokens.
  destruct (Z.to_nat (array_length input)) as [|f] eqn:Ef; [lia|].
  cbn [tokens_loop].
  destruct (Z.ltb_spec 0 (array_length input)); [|lia].
  pose proof (get_longest_match_sound config input 0 Hc Hu ltac:(lia))
    as [Hm0 Hm1].
  destruct Hc as (_ & _ & _ & _ & _ & Hmin).
  destruct (Z.geb_spec (match_length (__get_longest_match config input 0))
              (minimum_length config)) as [Hpair|Hlit].
  - destruct (Hm1 ltac:(lia)) as (Hoff & _). lia.
  - eexists. reflexivity.
Qed.

Lemma first_token_is_literal_witness :
  exists rest,
    lzss_tokens demo_config (array_of ten_A)
    = Literal (load (array_bytes (array_of ten_A)) 0) :: rest.
Proof.
  apply (first_token_is_literal demo_config (array_of ten_A)).
  - exact demo_config_invariant.
  - vm_compute. reflexivity.
  - vm_compute. reflexivity.
Defined.

(** X15 (a match repeats bytes already seen).  For a configuration
    satisfying the invariant and any index of the input, a match of positive
    length returned by [__get_longest_match] starts at least one byte and at
    most [index] bytes back, ends inside the input, and every byte it covers
    equals the byte [offset] places before it: what the decoder's copy
    reproduces. *)
Theorem match_repeats_earlier_bytes config input index :
  config_invariant config ->
  array_length input < 2 ^ 32 ->
  0 <= index < array_length input ->
  1 <= match_length (__get_longest_match config input index) ->
  let m := __get_longest_match config input index in
  1 <= match_offset m <= index
  /\ index + match_length m <= array_length input
  /\ forall j, 0 <= j < match_length m ->
       load (array_bytes input) (index + j - match_offset m)
       = load (array_bytes input) (index + j).
Proof.
  intros Hc Hu Hi Hpos m.
  pose proof (get_longest_match_sound config input index Hc Hu Hi)
    as [_ Hm1].
  destruct (Hm1 Hpos) as (Hoff & _ & Hend & Hrun).
  fold m in Hoff, Hend, Hrun.
  split; auto. split; auto. intros j Hj.
  replace (index + j - match_offset m) with (index - match_offset m + j)
    by lia.
  apply Hrun. exact Hj.
Qed.

Lemma match_repeats_earlier_bytes_witness :
  let m := __get_longest_match demo_config (array_of ten_A) 1 in
  1 <= match_offset m <= 1
  /\ 1 + match_length m <= array_length (array_of ten_A)
  /\ forall j, 0 <= j < match_length m ->
       load (array_bytes (array_of ten_A)) (1 + j - match_offset m)
       = load (array_bytes (array_of ten_A)) (1 + j).
Proof.
  apply (match_repeats_earlier_bytes demo_config (array_of ten_A) 1).
  - exact demo_config_invariant.
  - vm_compute. reflexivity.
  - vm_compute. split; [discriminate|reflexivity].
  - vm_compute. discriminate.
Defined.

Lemma tokens_loop_span config input fuel : forall index,
  config_invariant config ->
  array_length input < 2 ^ 32 ->
  0 <= index <= array_length input ->
  array_length input - index <= Z.of_nat fuel ->
  span_sum (tokens_loop fuel config input index) = array_length input - index.
Proof.
  induction fuel as [|f IH]; intros index Hc Hu Hi Hf; cbn [tokens_loop].
  - destruct (Z.ltb_spec index (array_length input)); cbn [span_sum]; lia.
  - destruct (Z.ltb_spec index (array_length input)) as [Hlt|];
      [|cbn [span_sum]; lia].
    destruct (encode_step_index config input Hc Hu index ltac:(lia))
      as [Hp Hl].
    destruct (Z.geb_spec (match_length (__get_longest_match config input index))
                (minimum_length config)) as [Hpair|Hlit];
      cbn [span_sum token_span].
    + destruct (Hp Hpair) as [Hr Heq]. rewrite IH; auto; lia.
    + rewrite IH; auto; lia.
Qed.

(** X16 (the tokens cover the input).  For a configuration satisfying the
    invariant, the tokens the encoder emits stand for exactly
    [input.length] bytes, one per literal and [length] per pair: the loop
    ends with [index] equal to the length, never beyond it. *)
Theorem tokens_cover_input config input :
  config_invariant config ->
  0 <= array_length input < 2 ^ 32 ->
  span_sum (lzss_tokens config input) = array_length input.
Proof.
  intros Hc Hu. unfold lzss_tokens.
  rewrite tokens_loop_span; auto; lia.
Qed.

Lemma tokens_cover_input_witness :
  span_sum (lzss_tokens demo_config (array_of ten_A))
  = array_length (array_of ten_A).
Proof.
  apply (tokens_cover_input demo_config (array_of ten_A)).
  - exact demo_config_invariant.
  - vm_compute. split; [discriminate|reflexivity].
Defined.

(** ** Bytes after the stream *)

(** X17 (bytes after the stream are ignored).  The decoder stops once the
    declared number of bytes is rebuilt: whatever bytes follow what
    [lzss_encode] produced (padding bits included), decoding gives the
    input back. *)
Theorem decode_ignores_trailing_bytes config (B out dst extra : list byte)
    enc :
  config_invariant config ->
  B <> [] -> Z.of_nat (List.length B) < 2 ^ 32 ->
  5 <= Z.of_nat (List.length out) < 2 ^ 32 ->
  List.length dst = List.length B ->
  lzss_encode config (array_of B) (array_of out)
  = Some (ERROR_ALL_GOOD, enc) ->
  Z.of_nat (List.length extra) + array_length enc < 2 ^ 32 ->
  lzss_decode config
    (array_of (firstn (Z.to_nat (array_length enc)) (array_bytes enc)
               ++ extra))
    (array_of dst)
  = Decoded ERROR_ALL_GOOD (array_of B).
Proof.
  intros Hc HB0 HB Hout Hdst E Hextra.
  assert (Hn : 0 < array_length (array_of B)).
  { destruct B; [congruence|]. cbn. lia. }
  pose proof (array_of_ok B HB) as Hin.
  assert (Hoo : array_ok (array_of out)) by (apply array_of_ok; lia).
  destruct (lzss_encode_spec config (array_of B) (array_of out) Hc
              ltac:(cbn; lia) Hn Hoo ltac:(cbn; lia))
    as (e & enc0 & E0 & Hres).
  rewrite E in E0. injection E0 as <- <-.
  destruct Hres as [(_ & Ha & Hpos & Hfit & pad & Hbits)|(Hbad & _)];
    [|discriminate].
  set (head := firstn (Z.to_nat (array_length enc)) (array_bytes enc)) in *.
  assert (Hhead : Z.of_nat (List.length head) = array_length enc).
  { unfold head. rewrite length_firstn.
    cbn [array_of array_bytes array_length] in *. lia. }
  assert (Hlen : Z.of_nat (List.length (head ++ extra)) < 2 ^ 32)
    by (rewrite length_app; lia).
  pose proof (reads_init _ (array_of_ok _ Hlen)) as R.
  cbn [array_of array_bytes array_length] in R.
  rewrite Nat2Z.id, firstn_all, bits_of_bytes_app, Hbits in R.
  unfold wire_bits in R. rewrite <- !app_assoc in R.
  assert (Hn' : 0 < array_length (array_of B) < 2 ^ 32)
    by (cbn [array_of array_length] in *; lia).
  destruct (read_7bit_uint32_spec _ _ _ Hn' R) as (s1 & E1 & R1).
  unfold lzss_decode.
  assert (Hne : array_length (array_of (head ++ extra)) <> 0).
  { cbn [array_of array_length]. rewrite length_app. lia. }
  destruct (Z.eqb_spec (array_length (array_of (head ++ extra))) 0);
    [contradiction|].
  destruct (Z.eqb_spec (array_length (array_of dst)) 0);
    [cbn [array_of array_length] in *; lia|].
  cbn [orb]. rewrite E1. cbn [failed].
  replace (array_length (array_of dst)) with (array_length (array_of B))
    by (cbn [array_of array_length]; lia).
  rewrite Z.eqb_refl. cbn [negb].
  unfold lzss_tokens in R1.
  destruct (decode_loop_tokens config (array_of B) Hc Hin
              (Z.to_nat (array_length (array_of B))) 0 s1 (array_of dst)
              (decode_fuel (array_of (head ++ extra)))
              (repeat false pad ++ bits_of_bytes extra))
    as (bytes' & D1 & D2 & D3); auto;
    try (cbn [array_of array_length array_bytes]; lia).
  - pose proof (tokens_bits_length config
                  (tokens_loop (Z.to_nat (array_length (array_of B))) config
                     (array_of B) 0)).
    unfold wire_bits, lzss_tokens in Hfit. rewrite length_app in Hfit.
    unfold decode_fuel. cbn [array_of array_length] in *.
    rewrite length_app. lia.
  - replace (array_length (array_of dst)) with (array_length (array_of B))
      in D1 by (cbn [array_of array_length]; lia).
    rewrite D1. cbn [array_of array_bytes array_length] in *.
    rewrite Nat2Z.id in D3.
    assert (bytes' = B) by (apply firstn_all_eq; auto; lia).
    subst bytes'. reflexivity.
Qed.

Lemma decode_ignores_trailing_bytes_witness :
  lzss_decode demo_config
    (array_of
       (firstn (Z.to_nat 5) ([x0a; x20; xc0; x12; x40] ++ repeat x00 11)
        ++ [xde; xad]))
    (array_of (repeat x00 10))
  = Decoded ERROR_ALL_GOOD (array_of ten_A).
Proof.
  apply (decode_ignores_trailing_bytes demo_config ten_A (repeat x00 16)
           (repeat x00 10) [xde; xad]
           {| array_bytes := [x0a; x20; xc0; x12; x40] ++ repeat x00 11;
              array_length := 5 |}).
  - exact demo_config_invariant.
  - discriminate.
  - vm_compute. reflexivity.
  - vm_compute. split; [discriminate|reflexivity].
  - reflexivity.
  - vm_compute. reflexivity.
  - vm_compute. reflexivity.
Defined.

(** ** A stream cut short *)

Lemma cons_eq_inv (x y : bool) (l m : list bool) :
  x :: l = y :: m -> x = y /\ l = m.
Proof. intros H. injection H as H1 H2. split; assumption. Qed.

Lemma prefix_cases (bs more a b : list bool) :
  bs ++ more = a ++ b ->
  (exists c, bs = a ++ c /\ c ++ more = b)
  \/ (List.length bs < List.length a)%nat.
Proof.
  intros H. apply app_eq_app in H.
  destruct H as [l [[H1 H2]|[H1 H2]]].
  - left. exists l. split; auto.
  - destruct l as [|x l].
    + left. exists []. rewrite app_nil_r in H1. subst a.
      rewrite app_nil_r. split; auto.
    + right. subst a. rewrite length_app. cbn [List.length]. lia.
Qed.

Lemma read_bit_empty s :
  reads s [] ->
  bit_stream_read_bit s = (ERROR_BUFFER_OUT_OF_BOUNDS, 0, s).
Proof.
  intros [Hc Hp Hl Hu Hb]. symmetry in Hb.
  apply app_eq_nil in Hb. destruct Hb as [Hb1 Hb2].
  apply (f_equal (@List.length bool)) in Hb1.
  rewrite low_bits_length in Hb1. cbn [List.length] in Hb1.
  assert (H0 : bit_count s = 0) by lia.
  assert (Hge : buffer_length s <= buffer_position s).
  { destruct (Z.le_gt_cases (buffer_length s) (buffer_position s)); auto.
    rewrite unread_cons in Hb2 by lia. discriminate Hb2. }
  unfold bit_stream_read_bit, bit_stream_unflush.
  rewrite H0. change (0 =? 0) with true. cbv iota.
  destruct (Z.ltb_spec (buffer_position s) (buffer_length s)); [lia|].
  reflexivity.
Qed.

Lemma read_uint32_loop_short n : forall s cs a,
  (List.length cs < n)%nat ->
  reads s cs ->
  exists s', read_uint32_loop n s a = (ERROR_BUFFER_OUT_OF_BOUNDS, 0, s').
Proof.
  induction n as [|k IH]; intros s cs a Hlen R; [lia|].
  cbn [read_uint32_loop].
  destruct cs as [|c cs].
  - rewrite (read_bit_empty s R). cbn [failed]. eauto.
  - destruct (read_bit_spec _ _ _ R) as [s1 [E1 R1]].
    rewrite E1. cbn [failed]. cbn [List.length] in Hlen.
    apply (IH s1 cs); auto. lia.
Qed.

(** The header cut inside its groups. *)
Lemma read_7bit_loop_short fuel : forall s m acc shift bs more rest,
  (fuel <= 5)%nat ->
  shift = 7 * (5 - Z.of_nat fuel) ->
  0 < m -> m * 2 ^ shift < 2 ^ 32 ->
  reads s bs ->
  bs ++ more = vlq_bits fuel m ++ rest ->
  (List.length bs < List.length (vlq_bits fuel m))%nat ->
  exists s',
    read_7bit_loop fuel s acc shift = (ERROR_BUFFER_OUT_OF_BOUNDS, 0, s').
Proof.
  induction fuel as [|f IH];
    intros s m acc shift bs more rest Hf Hs Hm Hms R Hpre Hlen.
  - cbn [vlq_bits List.length] in Hlen. lia.
  - assert (Hsh : 0 <= shift <= 28) by lia.
    assert (Hp : 0 < 2 ^ shift) by (apply Z.pow_pos_nonneg; lia).
    cbn [read_7bit_loop vlq_bits] in *.
    pose proof (Z.mod_pos_bound m 128 ltac:(lia)) as Hg.
    destruct (Z.ltb_spec 127 m) as [Hbig|Hsmall].
    + rewrite <- app_assoc in Hpre.
      destruct (prefix_cases _ _ _ _ Hpre) as [(c & Hc1 & Hc2)|Hshort].
      * rewrite Hc1 in R.
        rewrite land_127, lor_128_small in R by lia.
        destruct (read_uint32_spec s (128 + m mod 128) 8 _ ltac:(lia)
                    ltac:(change (2 ^ 8) with 256; lia) R) as [s1 [E1 R1]].
        rewrite E1. cbn [failed].
        rewrite land_128_flag by lia. change (128 =? 0) with false.
        cbn [orb].
        assert (Hsh2 : shift <= 21).
        { destruct (Z.le_gt_cases shift 21); auto.
          assert (H28 : shift = 28) by lia. rewrite H28 in Hms.
          change (2 ^ 28) with 268435456 in Hms.
          change (2 ^ 32) with 4294967296 in Hms. lia. }
        rewrite (u8_small (shift + 7)) by lia.
        destruct (Z.ltb_spec 32 (shift + 7)); [lia|].
        assert (Hpow : 2 ^ (shift + 7) = 128 * 2 ^ shift).
        { rewrite Z.pow_add_r by lia. change (2 ^ 7) with 128. lia. }
        assert (Hdm : m = 128 * (m / 128) + m mod 128)
          by (apply Z.div_mod; lia).
        assert (Hq : 0 < m / 128) by (apply Z.div_str_pos; lia).
        rewrite Z.shiftr_div_pow2 in Hc2, Hlen by lia.
        change (2 ^ 7) with 128 in Hc2, Hlen.
        assert (Hms' : m / 128 * 2 ^ (shift + 7) < 2 ^ 32)
          by (rewrite Hpow; nia).
        apply (IH s1 (m / 128) _ (shift + 7) c more rest); auto; try lia.
        rewrite Hc1 in Hlen. rewrite !length_app in Hlen. lia.
      * rewrite low_bits_length in Hshort.
        unfold bit_stream_read_uint32.
        destruct (read_uint32_loop_short (Z.to_nat 8) s bs 0) as [s1 E1];
          auto.
        rewrite E1. cbn [failed]. eauto.
    + destruct (Z.ltb_spec 0 m) as [_|]; [|lia].
      rewrite low_bits_length in Hlen.
      unfold bit_stream_read_uint32.
      destruct (read_uint32_loop_short (Z.to_nat 8) s bs 0) as [s1 E1];
        auto.
      rewrite E1. cbn [failed]. eauto.
Qed.

Section Truncated.

Variable config : lzss_config_t.
Variable input : array_t.
Hypothesis config_ok : config_invariant config.
Hypothesis input_ok : array_ok input.

(** The decoder loop over a strict prefix of the bits of the encoder's
    tokens: the tokens that are whole are decoded, and the read that meets
    the end of the buffer fails. *)
Lemma decode_loop_truncated fuel : forall index s output dfuel bs more,
  0 <= index <= array_length input ->
  array_length input - index <= Z.of_nat fuel ->
  reads s bs ->
  bs ++ more = tokens_bits config (tokens_loop fuel config input index) ->
  more <> [] ->
  array_length output = array_length input ->
  array_length input <= Z.of_nat (List.length (array_bytes output)) ->
  firstn (Z.to_nat index) (array_bytes output)
  = firstn (Z.to_nat index) (array_bytes input) ->
  (List.length bs < dfuel)%nat ->
  exists out',
    decode_loop dfuel config s output index
    = Decoded ERROR_BUFFER_OUT_OF_BOUNDS out'.
Proof.
  pose proof (config_pow config config_ok) as [Hpo Hpl].
  destruct input_ok as [Hin1 Hin2].
  induction fuel as [|f IH];
    intros index s output dfuel bs more Hi Hf R Hpre Hmore Hlen Hal Hfst Hdf.
  - cbn [tokens_loop] in Hpre.
    destruct (index <? array_length input) in Hpre;
      cbn [tokens_bits flat_map] in Hpre;
      apply app_eq_nil in Hpre; destruct Hpre; contradiction.
  - cbn [tokens_loop] in Hpre.
    destruct (Z.ltb_spec index (array_length input)) as [Hlt|Hge].
    2:{ cbn [tokens_bits flat_map] in Hpre.
        apply app_eq_nil in Hpre. destruct Hpre; contradiction. }
    destruct (encode_step_index config input config_ok Hin2 index
                ltac:(lia)) as [Hp Hl].
    pose proof (get_longest_match_sound config input index config_ok Hin2
                  ltac:(lia)) as [Hm0 Hm1].
    set (m := __get_longest_match config input index) in *.
    destruct config_ok as (Hob & Hlb & Hsum & Hmo & Hml & Hmin).
    destruct dfuel as [|df]; [lia|].
    cbn [decode_loop]. rewrite Hlen.
    destruct (Z.ltb_spec index (array_length input)); [|lia].
    destruct (Z.geb_spec (match_length m) (minimum_length config))
      as [Hpair|Hlit].
    + destruct (Hp Hpair) as [Hr Heq].
      destruct (Hm1 ltac:(lia)) as (Hoff & Hoffmax & Hend & Hrun).
      unfold tokens_bits in Hpre. cbn [flat_map token_bits] in Hpre.
      fold (tokens_bits config) in Hpre.
      destruct bs as [|b bs1].
      { rewrite (read_bit_empty s R). cbn [failed]. eauto. }
      cbn [app] in Hpre. rewrite <- ?app_assoc in Hpre.
      apply cons_eq_inv in Hpre. destruct Hpre as [Hb Hpre].
      subst b. cbn [List.length] in Hdf.
      destruct (read_bit_spec _ _ _ R) as (s1 & E1 & R1).
      rewrite E1. cbn [failed Z.b2z]. change (negb (1 =? 0)) with true.
      cbv iota.
      destruct (prefix_cases _ _ _ _ Hpre) as [(c & Hc1 & Hc2)|Hshort].
      2:{ rewrite low_bits_length in Hshort.
          unfold bit_stream_read_uint32.
          destruct (read_uint32_loop_short
                      (Z.to_nat (offset_bits config)) s1 bs1 0) as [s2 E2];
            auto.
          rewrite E2. cbn [failed]. eauto. }
      rewrite Hc1 in R1.
      destruct (read_uint32_spec s1 (match_offset m) (offset_bits config) _
                  ltac:(lia) ltac:(lia) R1) as (s2 & E2 & R2).
      rewrite E2. cbn [failed].
      destruct (prefix_cases _ _ _ _ Hc2) as [(d & Hd1 & Hd2)|Hshort].
      2:{ rewrite low_bits_length in Hshort.
          unfold bit_stream_read_uint32.
          destruct (read_uint32_loop_short
                      (Z.to_nat (length_bits config)) s2 c 0) as [s3 E3];
            auto.
          rewrite E3. cbn [failed]. eauto. }
      rewrite Hd1 in R2.
      destruct (read_uint32_spec s2 (match_length m) (length_bits config) _
                  ltac:(lia) ltac:(lia) R2) as (s3 & E3 & R3).
      rewrite E3. cbn [failed].
      destruct (copy_loop_spec input input_ok
                  index (match_offset m) (match_length m)
                  (Z.to_nat (match_length m)) (array_bytes output) 0
                  ltac:(lia) Hend Hal Hrun ltac:(lia) ltac:(lia))
        as (bytes1 & C1 & C2 & C3).
      { rewrite Z.add_0_r. exact Hfst. }
      rewrite C1.
      apply (IH (u32 (index + match_length m)) s3
               {| array_bytes := bytes1;
                  array_length := array_length input |} df d more);
        cbn [array_bytes array_length]; auto; try lia.
      * rewrite Heq. exact C3.
      * rewrite Hc1, Hd1 in Hdf. rewrite !length_app in Hdf. lia.
    + unfold tokens_bits in Hpre. cbn [flat_map token_bits] in Hpre.
      fold (tokens_bits config) in Hpre.
      destruct bs as [|b bs1].
      { rewrite (read_bit_empty s R). cbn [failed]. eauto. }
      cbn [app] in Hpre. rewrite <- ?app_assoc in Hpre.
      apply cons_eq_inv in Hpre. destruct Hpre as [Hb Hpre].
      subst b. cbn [List.length] in Hdf.
      destruct (read_bit_spec _ _ _ R) as (s1 & E1 & R1).
      rewrite E1. cbn [failed Z.b2z]. change (negb (0 =? 0)) with false.
      cbv iota.
      destruct (prefix_cases _ _ _ _ Hpre) as [(c & Hc1 & Hc2)|Hshort].
      2:{ rewrite low_bits_length in Hshort.
          unfold bit_stream_read_uint32.
          destruct (read_uint32_loop_short (Z.to_nat 8) s1 bs1 0)
            as [s2 E2]; auto.
          rewrite E2. cbn [failed]. eauto. }
      rewrite Hc1 in R1.
      pose proof (load_range (array_bytes input) index) as Hb.
      destruct (read_uint32_spec s1 (load (array_bytes input) index) 8 _
                  ltac:(lia) ltac:(change (2 ^ 8) with 256; lia) R1)
        as (s2 & E2 & R2).
      rewrite E2. cbn [failed].
      rewrite allocated_true by lia.
      rewrite land_255, Z.mod_small by lia.
      apply (IH (u32 (index + 1)) s2
               {| array_bytes :=
                    store (array_bytes output) index
                      (load (array_bytes input) index);
                  array_length := array_length input |} df c more);
        cbn [array_bytes array_length]; auto; try lia.
      * rewrite store_length. exact Hal.
      * rewrite Hl.
        replace (Z.to_nat (index + 1)) with (S (Z.to_nat index)) by lia.
        unfold store, load. rewrite byte_of_to_Z.
        rewrite firstn_store_nat_at by lia.
        rewrite (firstn_snoc_nth (array_bytes input) _ x00) by lia.
        rewrite Hfst. reflexivity.
      * rewrite Hc1 in Hdf. rewrite !length_app in Hdf. lia.
Qed.

End Truncated.

(** X18 (a stream cut short).  The decoder notices a truncated stream:
    given only the first [k] bytes of what [lzss_encode] produced, with
    [0 < k] and [k] less than the encoded length, [lzss_decode] returns
    [ERROR_BUFFER_OUT_OF_BOUNDS], from the header when the cut is inside it
    and from the first token that is not whole otherwise. *)
Theorem decode_truncated_stream config (B out dst : list byte) enc k :
  config_invariant config ->
  B <> [] -> Z.of_nat (List.length B) < 2 ^ 32 ->
  5 <= Z.of_nat (List.length out) < 2 ^ 32 ->
  List.length dst = List.length B ->
  lzss_encode config (array_of B) (array_of out)
  = Some (ERROR_ALL_GOOD, enc) ->
  0 < k < array_length enc ->
  exists out',
    lzss_decode config
      {| array_bytes := array_bytes enc; array_length := k |} (array_of dst)
    = Decoded ERROR_BUFFER_OUT_OF_BOUNDS out'.
Proof.
  intros Hc HB0 HB Hout Hdst E Hk.
  assert (Hn : 0 < array_length (array_of B)).
  { destruct B; [congruence|]. cbn. lia. }
  pose proof (array_of_ok B HB) as Hin.
  assert (Hoo : array_ok (array_of out)) by (apply array_of_ok; lia).
  assert (Hu : array_length (array_of B) < 2 ^ 32) by (cbn; lia).
  assert (Hcap : 5 <= array_length (array_of out)) by (cbn; lia).
  pose proof (lzss_encode_length config (array_of B) (array_of out) enc
                Hc Hu Hn Hoo Hcap E) as HW.
  destruct (lzss_encode_spec config (array_of B) (array_of out) Hc Hu Hn
              Hoo Hcap) as (e & enc0 & E0 & Hres).
  rewrite E in E0. apply (f_equal (fun o => match o with
                                            | Some p => snd p
                                            | None => enc
                                            end)) in E0.
  cbn [snd] in E0. subst enc0.
  destruct Hres as [(_ & Ha & Hpos & Hfit & pad & Hbits)|(_ & H0 & _)];
    [|lia].
  set (cut := {| array_bytes := array_bytes enc; array_length := k |}).
  assert (Hcut : array_ok cut).
  { unfold array_ok, cut. cbn [array_of array_bytes array_length] in *.
    lia. }
  pose proof (reads_init cut Hcut) as R.
  cbn [cut array_bytes array_length] in R.
  set (bs := bits_of_bytes (firstn (Z.to_nat k) (array_bytes enc))) in *.
  assert (Hbs : Z.of_nat (List.length bs) = 8 * k).
  { unfold bs. rewrite bits_of_bytes_length, length_firstn.
    cbn [array_of array_bytes array_length] in *. lia. }
  assert (Hsplit :
    bs ++ bits_of_bytes
            (skipn (Z.to_nat k)
               (firstn (Z.to_nat (array_length enc)) (array_bytes enc)))
    = wire_bits config (array_of B) ++ repeat false pad).
  { rewrite <- Hbits. unfold bs. rewrite <- bits_of_bytes_app.
    f_equal.
    replace (firstn (Z.to_nat k) (array_bytes enc))
      with (firstn (Z.to_nat k)
              (firstn (Z.to_nat (array_length enc)) (array_bytes enc))).
    - apply firstn_skipn.
    - rewrite firstn_firstn. f_equal. lia. }
  apply app_eq_app in Hsplit.
  destruct Hsplit as [l [[H1 _]|[H1 _]]].
  { apply (f_equal (@List.length bool)) in H1.
    rewrite length_app in H1. lia. }
  assert (Hl : l <> []).
  { intros ->. rewrite app_nil_r in H1.
    apply (f_equal (@List.length bool)) in H1. lia. }
  unfold wire_bits, lzss_tokens in H1. symmetry in H1.
  unfold lzss_decode.
  destruct (Z.eqb_spec (array_length cut) 0);
    [cbn [cut array_length] in *; lia|].
  destruct (Z.eqb_spec (array_length (array_of dst)) 0);
    [cbn [array_of array_length] in *; lia|].
  cbn [orb].
  destruct (prefix_cases _ _ _ _ H1) as [(c & Hc1 & Hc2)|Hshort].
  - rewrite Hc1 in R.
    destruct (read_7bit_uint32_spec _ _ _ (conj Hn Hu) R) as (s1 & E1 & R1).
    rewrite E1. cbn [failed].
    replace (array_length (array_of dst)) with (array_length (array_of B))
      by (cbn [array_of array_length]; lia).
    rewrite Z.eqb_refl. cbn [negb].
    apply (decode_loop_truncated config (array_of B) Hc Hin
             (Z.to_nat (array_length (array_of B))) 0 s1 (array_of dst)
             (decode_fuel cut) c l); auto;
      try (cbn [array_of array_length array_bytes]; lia).
    unfold decode_fuel. cbn [cut array_length].
    rewrite Hc1, length_app in Hbs. lia.
  - unfold bit_stream_read_7bit_uint32.
    destruct (read_7bit_loop_short 5 (bit_stream_init cut)
                (array_length (array_of B)) 0 0 bs l _
                ltac:(lia) ltac:(reflexivity) Hn
                ltac:(change (2 ^ 0) with 1; lia) R H1 Hshort) as [s1 E1].
    rewrite E1. cbn [failed]. eauto.
Qed.

Lemma decode_truncated_stream_witness :
  exists out',
    lzss_decode demo_config
      {| array_bytes := [x0a; x20; xc0; x12; x40] ++ repeat x00 11;
         array_length := 3 |}
      (array_of (repeat x00 10))
    = Decoded ERROR_BUFFER_OUT_OF_BOUNDS out'.
Proof.
  apply (decode_truncated_stream demo_config ten_A (repeat x00 16)
           (repeat x00 10)
           {| array_bytes := [x0a; x20; xc0; x12; x40] ++ repeat x00 11;
              array_length := 5 |} 3).
  - exact demo_config_invariant.
  - discriminate.
  - vm_compute. reflexivity.
  - vm_compute. split; [discriminate|reflexivity].
  - reflexivity.
  - vm_compute. reflexivity.
  - vm_compute. split; reflexivity.
Defined.

(** ** A minimum length of 0 *)

Lemma get_longest_match_at_zero config input :
  0 <= max_length config ->
  __get_longest_match config input 0
  = {| match_offset := 0; match_length := 0 |}.
Proof.
  intros Hml. unfold __get_longest_match.
  destruct (u32 (0 + minimum_length config) >=? array_length input);
    [reflexivity|].
  change (Z.to_nat 0) with O. cbn [match_scan].
  unfold MIN. destruct (Z.ltb_spec 0 (max_length config)).
  - reflexivity.
  - replace (max_length config) with 0 by lia. reflexivity.
Qed.

(** With [minimum_length = 0] the empty match at index 0 is emitted as a
    pair of length 0 and [index] stays at 0: the loop goes on until a write
    fails. *)
Lemma encode_loop_stuck config input out :
  array_ok out ->
  minimum_length config = 0 -> 0 <= max_length config ->
  0 <= offset_bits config <= 32 -> 0 <= length_bits config <= 32 ->
  0 < array_length input ->
  forall fuel s bs,
    writes out s bs ->
    8 * array_length out + 8 <= Z.of_nat (List.length bs) + Z.of_nat fuel ->
    exists s',
      encode_loop fuel config input s 0
      = Some (ERROR_BUFFER_OUT_OF_BOUNDS, s').
Proof.
  intros Hout Hmin Hml Hob Hlb Hn.
  induction fuel as [|f IH]; intros s bs W Hf.
  - pose proof (writes_length out s bs Hout W) as HL.
    destruct W as [Wl Wa Wc Wp Wb]. lia.
  - cbn [encode_loop].
    destruct (Z.ltb_spec 0 (array_length input)); [|lia].
    rewrite get_longest_match_at_zero by exact Hml.
    cbn [match_offset match_length]. rewrite Hmin.
    change (0 >=? 0) with true. cbv iota.
    change (bit_stream_write_bit s 1)
      with (bit_stream_write_bit s (Z.b2z true)).
    destruct (bit_stream_write_bit s (Z.b2z true)) as [e1 s1] eqn:E1.
    destruct (write_bit_spec out Hout _ _ _ _ _ W E1) as [[-> W1]|[-> Hc]];
      cbn [failed]; [|eauto].
    destruct (bit_stream_write_uint32 s1 0 (offset_bits config))
      as [e2 s2] eqn:E2.
    destruct (write_uint32_spec out Hout _ _ _ (offset_bits config) _ _
                Hob W1 E2) as [[-> W2]|[-> Hc]]; cbn [failed]; [|eauto].
    destruct (bit_stream_write_uint32 s2 0 (length_bits config))
      as [e3 s3] eqn:E3.
    destruct (write_uint32_spec out Hout _ _ _ (length_bits config) _ _
                Hlb W2 E3) as [[-> W3]|[-> Hc]]; cbn [failed]; [|eauto].
    change (u32 (0 + 0)) with 0.
    apply (IH s3 _ W3).
    rewrite !length_app. cbn [List.length]. lia.
Qed.

(** X19 (a minimum length of 0).  [lzss_config_init] accepts a
    [minimum_length] of 0, and then the encoder never advances: at index 0
    the empty match passes [match.length >= config.minimum_length], a pair
    of offset 0 and length 0 is written, and [index += 0] repeats the round
    until the output is full.  On every non-empty input, in an output of at
    least 5 bytes, [lzss_encode] ends in [ERROR_BUFFER_OUT_OF_BOUNDS] with
    a logical length of 0. *)
Theorem minimum_length_zero_fills_output config input out :
  minimum_length config = 0 -> 0 <= max_length config ->
  0 <= offset_bits config <= 32 -> 0 <= length_bits config <= 32 ->
  0 < array_length input < 2 ^ 32 ->
  array_ok out -> 5 <= array_length out ->
  exists enc,
    lzss_encode config input out = Some (ERROR_BUFFER_OUT_OF_BOUNDS, enc)
    /\ array_length enc = 0.
Proof.
  intros Hmin Hml Hob Hlb Hn Hout Hcap. unfold lzss_encode.
  destruct (Z.eqb_spec (array_length input) 0); [lia|].
  destruct (bit_stream_write_7bit_uint32 (bit_stream_init out)
              (array_length input)) as [e1 s1] eqn:E1.
  pose proof (vlq_bits_length 5 (array_length input)) as Hvl.
  destruct (write_7bit_uint32_spec out Hout _ _ _ _ _ Hn
              (writes_init out Hout) E1) as [[-> W1]|Hbad].
  2:{ cbn [List.length] in Hbad. lia. }
  cbn [failed app] in *.
  destruct (encode_loop_stuck config input out Hout Hmin Hml Hob Hlb
              ltac:(lia) (encode_fuel input out) s1 _ W1) as [s2 E2].
  { unfold encode_fuel. lia. }
  rewrite E2. cbn [failed]. eexists. split; reflexivity.
Qed.

Lemma minimum_length_zero_fills_output_witness :
  exists enc,
    lzss_encode (lzss_config_init 10 6 0) (array_of ten_A) (zeroed 16)
    = Some (ERROR_BUFFER_OUT_OF_BOUNDS, enc)
    /\ array_length enc = 0.
Proof.
  apply (minimum_length_zero_fills_output (lzss_config_init 10 6 0)
           (array_of ten_A) (zeroed 16)).
  - reflexivity.
  - vm_compute. discriminate.
  - vm_compute. split; discriminate.
  - vm_compute. split; discriminate.
  - vm_compute. split; reflexivity.
  - vm_compute. split; [split; discriminate|reflexivity].
  - vm_compute. discriminate.
Defined.
